(** * NoGo MCTS player: a shallow embedding of [player::take_action] and
    [player::node] (TCG_project3, agent.h) and the properties of its
    search loop, rollout, backpropagation and checkpointed early exit.

    The file also covers the pattern tests of [class heuristic] and
    [heuristic_agent::take_action], the [key=value] properties of
    [class agent], and, from TCG_project2, [random_placer::take_action]
    and [my_slider::extract_feature].

    Conventions.
    - C++ [int] values are integers in [Z] and [int] arithmetic is checked:
      [None] stands for undefined behaviour (signed overflow, division by
      zero, a dangling or uninitialised pointer, an index out of range).
    - [board.h] is not part of the sources: the board, [board::place] and
      [info().who_take_turns] are parameters of the development.
    - [std::default_random_engine] and [std::shuffle] are parameters too.
    - The floating-point arithmetic of the UCB score (a binary32 quotient,
      a binary64 logarithm, quotient, square root and product, and the sum
      rounded to [float]) is not modelled: [win_rate] and [ucb] are the
      real numbers of the formula and serve only to choose among the
      children of a node.  The theorems on the search use of the scores
      only that each lies above [-FLT_MAX], so that the scan returns one
      of the children, and hold whichever child that is; the lemmas on
      [win_rate] and [ucb] are about these real numbers, not about the
      values the machine computes.
    - The early-exit comparison, which only converts, halves, adds and
      compares integers, is modelled with binary32 rounding. *)

From Stdlib Require Import ZArith List Lia Reals Lra QArith String Ascii.
From stdpp Require Import base option list strings gmap.
Import ListNotations.
Local Open Scope Z_scope.

(** ** C++ [int] *)

Module CInt.

Definition INT_MAX : Z := 2 ^ 31 - 1.
Definition INT_MIN : Z := - 2 ^ 31.

Definition in_int (z : Z) : bool := (INT_MIN <=? z) && (z <=? INT_MAX).

Definition checked (z : Z) : option Z := if in_int z then Some z else None.

Definition add (a b : Z) : option Z := checked (a + b).
Definition sub (a b : Z) : option Z := checked (a - b).
Definition mul (a b : Z) : option Z := checked (a * b).
(** [a / b] on [int]: truncation toward zero. *)
Definition div (a b : Z) : option Z :=
  if b =? 0 then None else checked (Z.quot a b).

(** [x++] and [x--] on an [int]. *)
Definition incr (x : Z) : option Z := add x 1.
Definition decr (x : Z) : option Z := sub x 1.

End CInt.

(** ** binary32 values met by the early-exit test

    The test [max2 + f * (N * thread_num - ...) < max1] converts three
    [int]s to [float], multiplies one by [f = 0.5], adds and compares.
    Every value involved is a multiple of 1/2, so a value [v] is held as
    the integer [2 * v]; halving is an exponent shift and is exact, and
    rounding to 24 significant bits commutes with the scaling. *)

Module F32.

(** Round to nearest, ties to even, keeping 24 significant bits. *)
Definition rne24 (z : Z) : Z :=
  let a := Z.abs z in
  let e := Z.log2 a - 23 in
  if e <=? 0 then z
  else
    let q := Z.shiftr a e in
    let r := a - Z.shiftl q e in
    let half := Z.shiftl 1 (e - 1) in
    let q' :=
      if r <? half then q
      else if half <? r then q + 1
      else if Z.even q then q else q + 1 in
    Z.sgn z * Z.shiftl q' e.

(** [(float)x], in halves. *)
Definition of_int (x : Z) : Z := 2 * rne24 x.
(** [0.5f * (float)x], in halves. *)
Definition half_of_int (x : Z) : Z := rne24 x.
Definition add (a b : Z) : Z := rne24 (a + b).
Definition lt (a b : Z) : bool := a <? b.

End F32.

(** ** The early-exit test of the coordinator (agent.h, lines 138-161) *)

(** One step of the scan that keeps the two largest entries. *)
Definition top2_step (acc : Z * Z) (tmp : Z) : Z * Z :=
  let '(max1, max2) := acc in
  if max1 <? tmp then (tmp, max1)
  else if max2 <? tmp then (max1, tmp)
  else (max1, max2).

Definition top2 (result : list Z) : Z * Z :=
  fold_left top2_step result (- CInt.INT_MAX, - CInt.INT_MAX).


(** [max2 + f * remaining < max1] with [f = 0.5], in single precision. *)
Definition exit_test (max1 max2 remaining : Z) : bool :=
  F32.lt (F32.add (F32.of_int max2) (F32.half_of_int remaining))
         (F32.of_int max1).

(** [N * thread_num - ((i * N / split) * thread_num)] on [int]. *)
Definition remaining_budget (N thread_num i split : Z) : option Z :=
  total ← CInt.mul N thread_num;
  iN ← CInt.mul i N;
  per ← CInt.div iN split;
  spent ← CInt.mul per thread_num;
  CInt.sub total spent.

(** The body of the checkpoint after the aggregate [result] is formed:
    [Some true] is the [break]. *)
Definition early_exit (result : list Z) (N thread_num i split : Z)
  : option bool :=
  let '(max1, max2) := top2 result in
  remaining ← remaining_budget N thread_num i split;
  Some (exit_test max1 max2 remaining).

(** ** Pieces and actions

    [board::piece_type] is declared in board.h; the constructors below are
    the four values agent.h names ([board::empty], [board::black],
    [board::white], [board::hollow]). *)

Inductive piece_type : Type := empty_piece | black | white | hollow.

Definition piece_eqb (a b : piece_type) : bool :=
  match a, b with
  | empty_piece, empty_piece | black, black | white, white
  | hollow, hollow => true
  | _, _ => false
  end.

(** [action()] and [action::place(pos, who)]. *)
Inductive action : Type :=
| no_action
| place_action (pos : Z) (who : piece_type).

(** Node pointers: addresses in the store of one tree. *)
Abbreviation ptr := nat (only parsing).

(** The 81 cells [0 .. 80] in the order the loops enumerate them. *)
Definition cells : list Z := seqZ 0 81.

(** Monadic left fold: a loop whose body may be undefined. *)
Fixpoint foldM {A B : Type} (f : A -> B -> option A) (a : A) (l : list B)
  : option A :=
  match l with
  | [] => Some a
  | x :: l' => a' ← f a x; foldM f a' l'
  end.

(** [v[k] = x] on a [std::vector<int>] indexed by an [int]. *)
Definition vector_set (v : list Z) (k x : Z) : option (list Z) :=
  if (0 <=? k) && (k <? Z.of_nat (length v))
  then Some (<[Z.to_nat k := x]> v) else None.

(** [result[j] += average_selection[i][j]] over all workers [i], for each
    column [j] of the 81. *)
Definition aggregate (rows : list (list Z)) : option (list Z) :=
  mapM (fun j : nat =>
          foldM (fun acc (row : list Z) => x ← row !! j; CInt.add acc x)
                0 rows)
       (seq 0 81).

(** The sum of column [j] over the rows that have one. *)
Definition column_total (rows : list (list Z)) (j : nat) : Z :=
  foldr (fun (row : list Z) acc => default 0 (row !! j) + acc) 0 rows.

(** [std::max_element]: position and value of the first largest entry. *)
Fixpoint max_element_from (l : list Z) (i best_i : nat) (best : Z)
  : nat * Z :=
  match l with
  | [] => (best_i, best)
  | x :: l' =>
      if best <? x then max_element_from l' (S i) i x
      else max_element_from l' (S i) best_i best
  end.

Definition max_element (l : list Z) : option (nat * Z) :=
  match l with
  | [] => None
  | x :: l' => Some (max_element_from l' 1 0 x)
  end.

(** [std::numeric_limits<float>::max()]. *)
Definition FLT_MAX : R := IZR (2 ^ 128 - 2 ^ 104).

(** ** [class heuristic]: the pattern tests on a position

    The tests read the board through [b[x][y]] only.  Cells and sides are
    the [unsigned] values of [board::piece_type]; [board::empty],
    [board::hollow], [board::size_x] and [board::size_y] come from
    board.h and are parameters. *)

Module heuristic.
Section Patterns.

Variables size_x size_y : Z.
Variables empty hollow : Z.
(** [b[x][y]]. *)
Variable b : Z -> Z -> Z.

(** [3u - who] on [unsigned]. *)
Definition opponent (who : Z) : Z := (3 - who) mod 2 ^ 32.

(** [x < 0 || x >= board::size_x || y < 0 || y >= board::size_y]. *)
Definition off_board (x y : Z) : bool :=
  (x <? 0) || (size_x <=? x) || (y <? 0) || (size_y <=? y).

(** [x >= 0 && x < board::size_x && y >= 0 && y < board::size_y]. *)
Definition on_board (x y : Z) : bool :=
  (0 <=? x) && (x <? size_x) && (0 <=? y) && (y <? size_y).

(** A [bool] used as an [int]. *)
Definition int_of (t : bool) : Z := if t then 1 else 0.

Definition is_eye (x y who : Z) : bool :=
  if off_board x y || negb (b x y =? empty) then false
  else
    (off_board (x + 0) (y - 1) || (b (x + 0) (y - 1) =? who)
     || (b (x + 0) (y - 1) =? hollow))
    && (off_board (x - 1) (y + 0) || (b (x - 1) (y + 0) =? who)
        || (b (x - 1) (y + 0) =? hollow))
    && (off_board (x + 1) (y + 0) || (b (x + 1) (y + 0) =? who)
        || (b (x + 1) (y + 0) =? hollow))
    && (off_board (x + 0) (y + 1) || (b (x + 0) (y + 1) =? who)
        || (b (x + 0) (y + 1) =? hollow)).

Definition count_liberty (x y : Z) : Z :=
  int_of (on_board (x + 0) (y - 1) && (b (x + 0) (y - 1) =? empty))
  + int_of (on_board (x - 1) (y + 0) && (b (x - 1) (y + 0) =? empty))
  + int_of (on_board (x + 1) (y + 0) && (b (x + 1) (y + 0) =? empty))
  + int_of (on_board (x + 0) (y + 1) && (b (x + 0) (y + 1) =? empty)).

Definition is_atari (x y who : Z) : bool :=
  (int_of (off_board (x + 0) (y - 1)
           || (b (x + 0) (y - 1) =? opponent who)
           || (b (x + 0) (y - 1) =? hollow))
   + int_of (off_board (x - 1) (y + 0)
             || (b (x - 1) (y + 0) =? opponent who)
             || (b (x - 1) (y + 0) =? hollow))
   + int_of (off_board (x + 1) (y + 0)
             || (b (x + 1) (y + 0) =? opponent who)
             || (b (x + 1) (y + 0) =? hollow))
   + int_of (off_board (x + 0) (y + 1)
             || (b (x + 0) (y + 1) =? opponent who)
             || (b (x + 0) (y + 1) =? hollow))
   =? 3)
  && (count_liberty x y =? 1).

Definition count_corner_adjacent (x y who : Z) : Z :=
  int_of (on_board (x - 1) (y - 1) && (b (x - 1) (y - 1) =? who))
  + int_of (on_board (x + 1) (y - 1) && (b (x + 1) (y - 1) =? who))
  + int_of (on_board (x - 1) (y + 1) && (b (x - 1) (y + 1) =? who))
  + int_of (on_board (x + 1) (y + 1) && (b (x + 1) (y + 1) =? who)).

Definition count_side_adjacent (x y who : Z) : Z :=
  int_of (on_board (x + 0) (y - 1) && (b (x + 0) (y - 1) =? who))
  + int_of (on_board (x - 1) (y + 0) && (b (x - 1) (y + 0) =? who))
  + int_of (on_board (x + 1) (y + 0) && (b (x + 1) (y + 0) =? who))
  + int_of (on_board (x + 0) (y + 1) && (b (x + 0) (y + 1) =? who)).

(** The summand of [value] at one cell. *)
Definition cell_value (x y who : Z) : Z :=
  16 * int_of (is_eye x y who)
  + 1 * count_liberty x y
  + 8 * int_of (is_atari x y who)
  + 4 * count_corner_adjacent x y who.

(** [value]: the two nested loops, [y] outside, [x] inside. *)
Definition value (who : Z) : Z :=
  fold_left
    (fun score y =>
       fold_left (fun score x => score + cell_value x y who)
                 (seqZ 0 size_x) score)
    (seqZ 0 size_y) 0.

End Patterns.
End heuristic.

(** ** [heuristic_agent::take_action]

    [test state x y who] is [state.test(x, y, who) == board::legal];
    [action_value after x y who] is the score of
    [heuristic::action_value(after, x, y, who)] with the board it leaves
    in [after]; [position m] is the [board::point] of
    [action::place(m, who).position()].  The result is [None] where the
    code indexes [space] out of range, [Some None] for [action()] and
    [Some (Some m)] for [action::place(m, who)]. *)

Module heuristic_agent.

Record point := Point { x : Z; y : Z; i : Z }.

Section Agent.

Variable board : Type.
Variable test : board -> Z -> Z -> Z -> bool.
Variable action_value : board -> Z -> Z -> Z -> Z * board.
Variable position : Z -> point.
Variable engine : Type.
Variable shuffle : list Z -> engine -> list Z * engine.
Variable black : Z.

(** The loop over the shuffled [space], from index [k] on: the index and
    the score of the best legal move so far. *)
Fixpoint best_move (state : board) (who : Z) (space : list Z) (k : Z)
    (after : board) (max_index max_score : Z) : Z * Z :=
  match space with
  | [] => (max_index, max_score)
  | move :: space' =>
      let p := position move in
      if test state (x p) (y p) who then
        let r := action_value after (x p) (y p) who in
        if max_score <? r.1
        then best_move state who space' (k + 1) r.2 k r.1
        else best_move state who space' (k + 1) r.2 max_index max_score
      else best_move state who space' (k + 1) after max_index max_score
  end.

(** A move that [state.test] accepts for [who]. *)
Definition legal_move (state : board) (who : Z) (m : Z) : Prop :=
  test state (x (position m)) (y (position m)) who = true.

(** [space[max_index]]: outside [0 .. size - 1] the access is undefined. *)
Definition at_index (space : list Z) (max_index : Z) : option Z :=
  if 0 <=? max_index then space !! Z.to_nat max_index else None.

Definition take_action (who : Z) (space : list Z) (g : engine)
    (state : board) : option (option Z * list Z * engine) :=
  if (who =? black) && test state 4 4 who then Some (Some 40, space, g)
  else
    let sg := shuffle space g in
    let max_index := (best_move state who sg.1 0 state (-1) (-9999)).1 in
    m ← at_index sg.1 max_index;
    let i := i (position m) in
    if negb ((i =? 4) || (i =? 36) || (i =? 44) || (i =? 76))
       && test state 4 4 who
    then Some (Some 40, sg.1, sg.2)
    else Some (if max_index =? -1 then None else Some m, sg.1, sg.2).

End Agent.
End heuristic_agent.

(** ** [my_slider::extract_feature] (TCG_project2)

    [after] reads a cell of the board; the index addresses one of the
    weight tables of [16 * 16 * 16 * 16] entries that [init_weights]
    creates. *)

Definition extract_feature (after : Z -> Z) (a b c d : Z) : Z :=
  after a * 16 * 16 * 16 + after b * 16 * 16 + after c * 16 + after d.

Definition table_size : Z := 16 * 16 * 16 * 16.

(** ** [class agent]: the properties given as [key=value] words

    [meta] is the [std::map] from keys to values; a missing key makes
    [meta.at] throw, which [property] shows as [None]. *)

Module agent.

Local Open Scope string_scope.

(** [std::isspace] in the C locale, which [operator>>] uses to delimit a
    word. *)
Definition isspace (c : ascii) : bool :=
  (c =? " ")%char || (c =? "009")%char || (c =? "010")%char
  || (c =? "011")%char || (c =? "012")%char || (c =? "013")%char.

(** The words that successive [ss >> pair] read from the rest [s] of the
    stream; [cur] holds the characters of the word being read. *)
Fixpoint extract (cur : string) (s : string) : list string :=
  match s with
  | EmptyString => match cur with EmptyString => [] | _ => [cur] end
  | String c s' =>
      if isspace c then
        match cur with
        | EmptyString => extract "" s'
        | _ => cur :: extract "" s'
        end
      else extract (cur ++ String c "") s'
  end.

Definition stream_words (s : string) : list string := extract "" s.

(** [s.find(c)]: [None] is [npos]. *)
Fixpoint find (c : ascii) (s : string) : option nat :=
  match s with
  | EmptyString => None
  | String a s' => if (a =? c)%char then Some 0%nat else S <$> find c s'
  end.

(** The first [n] characters of [s], and [s] without them. *)
Fixpoint take_chars (n : nat) (s : string) : string :=
  match n, s with
  | S n', String a s' => String a (take_chars n' s')
  | _, _ => ""
  end.

Fixpoint drop_chars (n : nat) (s : string) : string :=
  match n, s with
  | S n', String _ s' => drop_chars n' s'
  | _, _ => s
  end.

(** [pair.substr(0, pair.find('='))]: a count of [npos] takes all. *)
Definition key_of (pair : string) : string :=
  match find "=" pair with
  | Some p => take_chars p pair
  | None => pair
  end.

(** [pair.substr(pair.find('=') + 1)]: [npos + 1] wraps to 0. *)
Definition value_of (pair : string) : string :=
  match find "=" pair with
  | Some p => drop_chars (p + 1) pair
  | None => pair
  end.

Abbreviation meta := (gmap string string) (only parsing).

(** [meta[key] = { value }] for one word. *)
Definition set_pair (m : meta) (pair : string) : meta :=
  <[key_of pair := value_of pair]> m.

(** The constructor [agent(args)]. *)
Definition agent (args : string) : meta :=
  fold_left set_pair (stream_words ("name=unknown role=unknown " ++ args)) ∅.

Definition property (key : string) (m : meta) : option string := m !! key.

Definition notify (msg : string) (m : meta) : meta := set_pair m msg.

Definition name (m : meta) : option string := property "name" m.
Definition role (m : meta) : option string := property "role" m.

(** [s.find_first_of(set) != npos]. *)
Fixpoint find_first_of (set : string) (s : string) : bool :=
  match s with
  | EmptyString => false
  | String a s' =>
      match find a set with
      | Some _ => true
      | None => find_first_of set s'
      end
  end.

(** What a constructor does: it returns, it throws an exception with the
    given [what()], or its behaviour is undefined. *)
Inductive outcome (A : Type) : Type :=
| Returned (a : A)
| Thrown (what : string)
| Undefined.
Arguments Returned {A} a.
Arguments Thrown {A} what.
Arguments Undefined {A}.

Section Construct.

(** [int(meta[key])], that is [int(std::stod(value))], is a parameter:
    [std::stod] throws [invalid_argument] or [out_of_range], and the
    conversion to [int] of a [double] outside the range of [int] is
    undefined. *)
Variable to_int : string -> outcome Z.

(** The constructor [random_agent(args)]: the properties, and the seed
    given to the engine, [None] when it is seeded from the clock. *)
Definition random_agent (args : string) : outcome (meta * option Z) :=
  let m := agent args in
  match m !! "seed" with
  | Some value =>
      match to_int value with
      | Returned seed => Returned (m, Some seed)
      | Thrown what => Thrown what
      | Undefined => Undefined
      end
  | None => Returned (m, None)
  end.

(** The constructor of [player] and of [heuristic_agent], after that of
    [random_agent]: the exception it throws, or the properties, the seed
    and [who].  ([meta.at] throws [out_of_range] for a missing key.) *)
Definition player (args : string)
  : outcome (meta * option Z * piece_type) :=
  match random_agent ("name=random role=unknown " ++ args) with
  | Returned (m, seed) =>
      match name m, role m with
      | Some n, Some r =>
          if find_first_of "[]():; " n then Thrown ("invalid name: " ++ n)
          else
            let who := if (r =? "black") then black else empty_piece in
            let who := if (r =? "white") then white else who in
            if piece_eqb who empty_piece
            then Thrown ("invalid role: " ++ r)
            else Returned (m, seed, who)
      | _, _ => Thrown "out_of_range"
      end
  | Thrown what => Thrown what
  | Undefined => Undefined
  end.

End Construct.

End agent.

(** ** [random_placer::take_action] (TCG_project2)

    The board of Threes! is read through [after(pos)], [after.last()],
    [after.bag(t)] and [after.hint()], which are parameters.  The result
    is [None] where the code indexes [spaces] or [bag] out of range,
    [Some (None, _)] for [action()] and [Some (Some (pos, tile, hint), _)]
    for [action::place(pos, tile, hint)]. *)

Module random_placer.
Section Placer.

Variable engine : Type.
Variable shuffle : list Z -> engine -> list Z * engine.

Variable after : Z -> Z.
Variable last_slide : Z.
Variable bag_count : Z -> nat.
Variable hint : Z.

(** [spaces[0 .. 4]], as the constructor fills them. *)
Definition spaces : list (list Z) :=
  [ [12; 13; 14; 15]; [0; 4; 8; 12]; [0; 1; 2; 3]; [3; 7; 11; 15];
    [0; 1; 2; 3; 4; 5; 6; 7; 8; 9; 10; 11; 12; 13; 14; 15] ].

(** [spaces[after.last()]]. *)
Definition space_of_last : option (list Z) :=
  if 0 <=? last_slide then spaces !! Z.to_nat last_slide else None.

(** The two loops that fill [int bag[3]]: more than three tiles write
    past its end. *)
Definition fill_bag : option (list Z) :=
  let tiles := flat_map (fun t => replicate (bag_count t) t) [1; 2; 3] in
  if (length tiles <=? 3)%nat then Some tiles else None.

(** [bag[--num]]. *)
Definition pop (bag : list Z) : option (Z * list Z) :=
  match rev bag with
  | [] => None
  | t :: r => Some (t, rev r)
  end.

(** The first [pos] of [space] with [after(pos) == 0]. *)
Fixpoint first_empty (space : list Z) : option Z :=
  match space with
  | [] => None
  | pos :: space' =>
      if negb (after pos =? 0) then first_empty space' else Some pos
  end.

Definition take_action (g : engine)
    : option (option (Z * Z * Z) * engine) :=
  space ← space_of_last;
  let sg := shuffle space g in
  match first_empty sg.1 with
  | None => Some (None, sg.2)
  | Some pos =>
      bag ← fill_bag;
      let bg := shuffle bag sg.2 in
      tb ← (if negb (hint =? 0) then Some (hint, bg.1) else pop bg.1);
      hb ← pop tb.2;
      Some (Some (pos, tb.1, hb.1), bg.2)
  end.

End Placer.
End random_placer.

(** ** A small rules engine

    A placement game on the 81 cells without capture or suicide rule: a
    cell is legal when it is on the grid and free, and a legal move hands
    the turn to the other side.  It instantiates the parameters of the
    development on concrete boards. *)

Module Toy.

Record board : Type := Board { stones : list Z; turn : piece_type }.

Definition other (p : piece_type) : piece_type :=
  match p with black => white | white => black | p => p end.

Definition place (b : board) (i : Z) : board * bool :=
  if (0 <=? i) && (i <? 81) && negb (existsb (Z.eqb i) (stones b))
  then (Board (i :: stones b) (other (turn b)), true)
  else (b, false).

Definition who_take_turns (b : board) : piece_type := turn b.

(** A counter as random engine; a shuffle rotates by the counter. *)
Definition engine : Type := nat.
Definition shuffle (l : list Z) (g : engine) : list Z * engine :=
  (rotate g l, S g).

Definition umap_insert (k : Z) (v : ptr) (m : list (Z * ptr))
  : list (Z * ptr) := (k, v) :: m.

Definition empty_board : board := Board [] black.
Definition full_board : board := Board cells black.

End Toy.

(** ** The search tree and the player, over an abstract rules engine *)

Section Search.

(** [board], with [place b i] the board left by the call [b.place(i)] and
    whether it returned [board::legal], and [who_take_turns b] the field
    [b.info().who_take_turns]. *)
Variable board : Type.
Variable place : board -> Z -> board * bool.
Variable who_take_turns : board -> piece_type.

(** [std::default_random_engine] and [std::shuffle(first, last, engine)]. *)
Variable engine : Type.
Variable shuffle : list Z -> engine -> list Z * engine.

(** [m[k] = v] on a [std::unordered_map<int, node*>] held as the list of
    its entries in iteration order, which the standard leaves unspecified. *)
Variable umap_insert : Z -> ptr -> list (Z * ptr) -> list (Z * ptr).

(** [class node : board]. *)
Record node : Type := Node {
  position : board;
  win_cnt : Z;
  total_cnt : Z;
  place_pos : Z;
  child : list (Z * ptr);
  parent : option ptr
}.

(** The nodes of one tree; [new node] appends, so the fresh address is the
    length of the store. *)
Abbreviation heap := (list node) (only parsing).

(** [node(state, m = -1)]. *)
Definition new_node (state : board) (m : Z) : node :=
  Node state 0 0 m [] None.

Definition win_rate (n : node) : R :=
  if total_cnt n =? 0 then 0%R
  else (IZR (win_cnt n) / IZR (total_cnt n))%R.

Definition ucb (h : heap) (n : node) (c : R) : option R :=
  pp ← parent n;
  p ← h !! pp;
  Some (if (total_cnt p =? 0) || (total_cnt n =? 0) then win_rate n
        else (win_rate n
              + c * sqrt (ln (IZR (total_cnt p)) / IZR (total_cnt n)))%R).

(** [child.count(k) != 0]. *)
Definition has_child (n : node) (k : Z) : bool :=
  existsb (fun kv : Z * ptr => kv.1 =? k) (child n).

Definition legal (b : board) (i : Z) : bool := snd (place b i).

Definition is_leaf (n : node) : bool :=
  let cnt := length (List.filter (legal (position n)) cells) in
  negb ((0 <? cnt)%nat && (length (child n) =? cnt)%nat).

(** The [for] loop of [select_root_to_leaf] over the children of [curr],
    with the running [max_score] and the pointer [c], [None] while it is
    uninitialised. *)
Fixpoint best_child (h : heap) (ucb_c : R) (cs : list (Z * ptr))
    (max_score : R) (c : option ptr) : option (R * option ptr) :=
  match cs with
  | [] => Some (max_score, c)
  | curr_child :: cs' =>
      n ← h !! curr_child.2;
      tmp ← ucb h n ucb_c;
      if Rlt_dec max_score tmp
      then best_child h ucb_c cs' tmp (Some curr_child.2)
      else best_child h ucb_c cs' max_score c
  end.

(** The [while] loop of [select_root_to_leaf], unrolled at most [fuel]
    times. *)
Fixpoint select_loop (fuel : nat) (h : heap) (ucb_c : R) (curr : ptr)
    (vec : list ptr) : option (list ptr) :=
  n ← h !! curr;
  if is_leaf n then Some vec
  else if (length (child n) =? 0)%nat then Some vec
  else
    match fuel with
    | O => None
    | S fuel' =>
        r ← best_child h ucb_c (child n) (- FLT_MAX)%R None;
        c ← r.2;
        select_loop fuel' h ucb_c c (vec ++ [c])
    end.

(** A path visits each node of the store at most once, so [length h]
    rounds are enough (lemma [select_loop_total]). *)
Definition select_root_to_leaf (h : heap) (this : ptr) (ucb_c : R)
  : option (list ptr) :=
  select_loop (length h) h ucb_c this [this].

Definition all_space (g : engine) : list Z * engine := shuffle cells g.

Definition expand_from_leaf (h : heap) (this : ptr) (g : engine)
  : option (heap * ptr * engine) :=
  n ← h !! this;
  let '(vec, g') := all_space g in
  match List.find (fun i => legal (position n) i && negb (has_child n i))
                  vec with
  | Some pos =>
      let b := fst (place (position n) pos) in
      let new := length h in
      let n' := Node (position n) (win_cnt n) (total_cnt n) (place_pos n)
                     (umap_insert pos new (child n)) (parent n) in
      Some (<[this := n']> h ++ [Node b 0 0 pos [] (Some this)], new, g')
  | None => Some (h, this, g')
  end.

(** The [while (cnt != q.size())] loop of [simulate_winner], unrolled at
    most [fuel] times; the result carries the final board, the final queue
    and the number of [place] calls made. *)
Fixpoint rollout (fuel : nat) (b : board) (q : list Z) (cnt : Z)
    (steps : nat) : option (board * list Z * nat) :=
  if cnt =? Z.of_nat (length q) then Some (b, q, steps)
  else
    match fuel with
    | O => None
    | S fuel' =>
        match q with
        | [] => None
        | i :: q' =>
            let '(b', ok) := place b i in
            if ok then rollout fuel' b' q' 0 (S steps)
            else cnt' ← CInt.incr cnt;
                 rollout fuel' b' (q' ++ [i]) cnt' (S steps)
        end
    end.

(** Enough rounds for a queue of [n] cells (lemma [rollout_total]). *)
Definition rollout_fuel (n : nat) : nat := n * (n + 2).

Definition simulate_winner (h : heap) (this : ptr) (g : engine)
  : option (piece_type * engine) :=
  n ← h !! this;
  let '(vec, g') := all_space g in
  r ← rollout (rollout_fuel (length vec)) (position n) vec 0 0;
  Some (if piece_eqb (who_take_turns r.1.1) white then black else white,
        g').

(** One round of the loop of [back_propagate], on [path[i]]. *)
Definition visit (winner : piece_type) (n : node) : option node :=
  total ← CInt.incr (total_cnt n);
  win ← (if negb (piece_eqb winner (who_take_turns (position n)))
         then CInt.incr (win_cnt n) else CInt.decr (win_cnt n));
  Some (Node (position n) win total (place_pos n) (child n) (parent n)).

Fixpoint back_propagate (path : list ptr) (winner : piece_type) (h : heap)
  : option heap :=
  match path with
  | [] => Some h
  | p :: path' =>
      n ← h !! p;
      n' ← visit winner n;
      back_propagate path' winner (<[p := n']> h)
  end.

(** The [for] loop of [select_action] with the running [max_visit] and the
    pointer [c]. *)
Fixpoint most_visited (h : heap) (cs : list (Z * ptr)) (max_visit : Z)
    (c : option ptr) : option (Z * option ptr) :=
  match cs with
  | [] => Some (max_visit, c)
  | ch :: cs' =>
      n ← h !! ch.2;
      if max_visit <? total_cnt n
      then most_visited h cs' (total_cnt n) (Some ch.2)
      else most_visited h cs' max_visit c
  end.

Definition select_action (h : heap) (this : ptr) : option Z :=
  n ← h !! this;
  if (length (child n) =? 0)%nat then Some (-1)
  else
    r ← most_visited h (child n) (- CInt.INT_MAX) None;
    c ← r.2;
    m ← h !! c;
    Some (place_pos m).

(** One iteration of the loop of [MCTS]: select, expand, simulate,
    back propagate. *)
Definition cycle (ucb_c : R) (this : ptr) (st : heap * engine)
  : option (heap * engine) :=
  path ← select_root_to_leaf st.1 this ucb_c;
  leaf ← last path;
  '(h1, expand_node, g1) ← expand_from_leaf st.1 leaf st.2;
  let path' :=
    if (expand_node =? leaf)%nat then path else path ++ [expand_node] in
  back ← last path';
  '(winner, g2) ← simulate_winner h1 back g1;
  h2 ← back_propagate path' winner h1;
  Some (h2, g2).

Fixpoint cycles (n : nat) (ucb_c : R) (this : ptr) (st : heap * engine)
  : option (heap * engine) :=
  match n with
  | O => Some st
  | S n' => st' ← cycle ucb_c this st; cycles n' ucb_c this st'
  end.

Definition MCTS (h : heap) (this : ptr) (N : Z) (g : engine) (ucb_c : R)
  : option (Z * heap * engine) :=
  st ← cycles (Z.to_nat N) ucb_c this (h, g);
  a ← select_action st.1 this;
  Some (a, st.1, st.2).

(** *** [player::take_action], the [ParallelAverageSelection] variant

    The state the parallel regions work on: [root_vec] (one store per
    tree, the root at address 0), [average_selection], and the single
    [engine] member of [random_agent], which every thread receives by
    reference. *)
Record workers : Type := Workers {
  root_vec : list heap;
  average_selection : list (list Z);
  rng : engine
}.

(** [root_vec[id]->MCTS(n, engine, c)]. *)
Definition run_MCTS (n : Z) (c : R) (id : nat) (ws : workers)
  : option workers :=
  h ← root_vec ws !! id;
  r ← MCTS h 0%nat n (rng ws) c;
  Some (Workers (<[id := r.1.2]> (root_vec ws)) (average_selection ws) r.2).

(** [for (auto &all_child : root_vec[id]->child)
       average_selection[id][all_child.first] = all_child.second->total_cnt] *)
Definition record_children (id : nat) (ws : workers) : option workers :=
  h ← root_vec ws !! id;
  root ← h !! 0%nat;
  row ← average_selection ws !! id;
  row' ← foldM (fun (row : list Z) (all_child : Z * ptr) =>
                  n ← h !! all_child.2;
                  vector_set row all_child.1 (total_cnt n))
               row (child root);
  Some (Workers (root_vec ws) (<[id := row']> (average_selection ws))
                (rng ws)).

(** [#pragma omp parallel { int id = omp_get_thread_num(); body }] with a
    team of [thread_num] threads, the threads taken in the order of their
    ids. *)
Definition omp_parallel (body : nat -> workers -> option workers)
    (thread_num : nat) (ws : workers) : option workers :=
  foldM (fun ws id => body id ws) ws (seq 0 thread_num).

(** The loop [for (int i = split / 4 + 1; i <= split; ++i)], with [todo]
    the number of rounds left; the result also counts the rounds made. *)
Fixpoint checkpoints (todo : nat) (i N : Z) (c : R) (thread_num : nat)
    (split : Z) (done : nat) (ws : workers) : option (workers * nat) :=
  match todo with
  | O => Some (ws, done)
  | S todo' =>
      per ← CInt.div N split;
      ws' ← omp_parallel
              (fun id ws => ws1 ← run_MCTS per c id ws;
                            record_children id ws1)
              thread_num ws;
      result ← aggregate (average_selection ws');
      stop ← early_exit result N (Z.of_nat thread_num) i split;
      if stop : bool then Some (ws', S done)
      else i' ← CInt.incr i;
           checkpoints todo' i' N c thread_num split (S done) ws'
  end.

(** [take_action] for [N != 0] up to the point where the trees are deleted:
    the final state and the number of checkpoints made. *)
Definition search (state : board) (N : Z) (c : R) (thread_num : nat)
    (g : engine) : option (workers * nat) :=
  let ws0 := Workers (replicate thread_num [new_node state (-1)])
                     (replicate thread_num (replicate 81 0)) g in
  let split := Z.quot N 1000 in
  ws1 ← omp_parallel (run_MCTS (Z.quot N 4) c) thread_num ws0;
  checkpoints (Z.to_nat (split - Z.quot split 4)) (Z.quot split 4 + 1)
              N c thread_num split 0 ws1.

(** The decision taken from the final [average_selection]. *)
Definition decide_move (state : board) (ws : workers) : option action :=
  result ← aggregate (average_selection ws);
  r ← max_element result;
  Some (if r.2 =? 0 then no_action
        else place_action (Z.of_nat r.1) (who_take_turns state)).

(** [take_action(state, steps)] with [N = meta["N"]], [c = meta["c"]] and
    [thread_num = omp_get_num_procs()]; the engine is returned with the
    action since it is a member of the agent. *)
Definition take_action (state : board) (N : Z) (c : R) (thread_num : nat)
    (g : engine) : option (action * engine) :=
  if N =? 0 then Some (no_action, g)
  else
    r ← search state N c thread_num g;
    a ← decide_move state r.1;
    Some (a, rng r.1).

(** *** The two other variants of [take_action]

    The [Normal] variant: one tree, and the answer of [MCTS] placed as it
    comes. *)
Definition take_action_normal (state : board) (N : Z) (c : R) (g : engine)
  : option (action * engine) :=
  if N =? 0 then Some (no_action, g)
  else
    r ← MCTS [new_node state (-1)] 0%nat N g c;
    Some (place_action r.1.1 (who_take_turns state), r.2).

(** [vote_result[v]++] for every vote [v != -1]. *)
Definition count_votes (majority_vote : list Z) : option (list Z) :=
  foldM (fun (vote_result : list Z) (v : Z) =>
           if v =? -1 then Some vote_result
           else
             old ← (if (0 <=? v) then vote_result !! Z.to_nat v else None);
             new ← CInt.incr old;
             vector_set vote_result v new)
        (replicate 81 0) majority_vote.

(** The parallel region of the [ParallelMajorityVote] variant, the threads
    taken in the order of their ids: each builds its own tree and votes
    for what its [MCTS] returns. *)
Fixpoint cast_votes (thread_num : nat) (state : board) (N : Z) (c : R)
    (g : engine) : option (list Z * engine) :=
  match thread_num with
  | O => Some ([], g)
  | S t =>
      r ← MCTS [new_node state (-1)] 0%nat N g c;
      rest ← cast_votes t state N c r.2;
      Some (r.1.1 :: rest.1, rest.2)
  end.

Definition take_action_majority (state : board) (N : Z) (c : R)
    (thread_num : nat) (g : engine) : option (action * engine) :=
  if N =? 0 then Some (no_action, g)
  else
    votes ← cast_votes thread_num state N c g;
    vote_result ← count_votes votes.1;
    r ← max_element vote_result;
    Some (if r.2 =? 0 then no_action
          else place_action (Z.of_nat r.1) (who_take_turns state),
          votes.2).

(** ** Assumptions on the parameters and invariants of the tree *)

(** [std::shuffle] permutes its range. *)
Hypothesis shuffle_perm : forall l g, (shuffle l g).1 ≡ₚ l.

(** An illegal [place] leaves the board as it was. *)
Hypothesis place_illegal :
  forall b i, (place b i).2 = false -> (place b i).1 = b.

Definition no_legal (b : board) (q : list Z) : Prop :=
  Forall (fun i => legal b i = false) q.

(** Assigning to a key that is absent adds one entry to the map. *)
Hypothesis umap_insert_perm :
  forall k v m, k ∉ m.*1 -> umap_insert k v m ≡ₚ (k, v) :: m.

Definition total_at (h : heap) (p : ptr) : Z :=
  from_option total_cnt 0 (h !! p).

(** The sum of [total_cnt] over the children of a node. *)
Definition children_total (h : heap) (n : node) : Z :=
  foldr (fun (x : Z * ptr) acc => total_at h x.2 + acc) 0 (child n).

(** [descends h p l]: [l] is a chain of nodes, each a child of the one
    before, the first a child of [p]. *)
Inductive descends (h : heap) : ptr -> list ptr -> Prop :=
| descends_nil p : descends h p []
| descends_cons p n x l :
    h !! p = Some n -> x ∈ child n -> descends h x.2 l ->
    descends h p (x.2 :: l).

(** The pointer structure of a tree rooted at address 0: children are
    allocated after their parent, are keyed by a legal cell, point back to
    their parent, and no node is the child of two entries. *)
Record shape_ok (h : heap) : Prop := {
  shape_root : exists r, h !! 0%nat = Some r /\ parent r = None;
  shape_child : forall p n x, h !! p = Some n -> x ∈ child n ->
    (p < x.2)%nat /\ x.1 ∈ cells /\ legal (position n) x.1 = true
    /\ exists m, h !! x.2 = Some m /\ parent m = Some p;
  shape_nodup : forall p n, h !! p = Some n -> NoDup (child n).*2
}.

(** The counters after [k] completed cycles. *)
Record counts_ok (k : Z) (h : heap) : Prop := {
  counts_root : total_at h 0%nat = k;
  counts_sum : forall p n, h !! p = Some n ->
    children_total h n <= total_cnt n;
  counts_win : forall p n, h !! p = Some n ->
    - total_cnt n <= win_cnt n <= total_cnt n;
  counts_bound : forall p n, h !! p = Some n -> 0 <= total_cnt n <= k
}.

Definition tree_inv (k : Z) (h : heap) : Prop := shape_ok h /\ counts_ok k h.

(** Two stores that differ in counters only. *)
Definition same_shape (h1 h2 : heap) : Prop :=
  length h1 = length h2
  /\ forall p n1, h1 !! p = Some n1 ->
       exists n2, h2 !! p = Some n2
                  /\ position n2 = position n1 /\ place_pos n2 = place_pos n1
                  /\ child n2 = child n1 /\ parent n2 = parent n1.

(** How many entries of [cs] point into [path]. *)
Definition hits (path : list ptr) (cs : list (Z * ptr)) : Z :=
  foldr (fun (x : Z * ptr) acc =>
           (if bool_decide (x.2 ∈ path) then 1 else 0) + acc) 0 cs.

(** The store after a successful expansion of [leaf] by the move [pos]. *)
Definition expanded (h : heap) (leaf : ptr) (n : node) (pos : Z) : heap :=
  <[leaf := Node (position n) (win_cnt n) (total_cnt n) (place_pos n)
                 (umap_insert pos (length h) (child n)) (parent n)]> h
  ++ [Node (place (position n) pos).1 0 0 pos [] (Some leaf)].


(** The board held by the root of a tree. *)
Definition root_board (h : heap) : option board := position <$> h !! 0%nat.

(** A row of [average_selection]: 81 counters between 0 and [B], non-zero
    only at cells that are legal on [state]. *)
Definition row_ok (state : board) (B : Z) (row : list Z) : Prop :=
  length row = 81%nat
  /\ forall j e, row !! j = Some e ->
       0 <= e <= B /\ (e <> 0 -> legal state (Z.of_nat j) = true).

(** The state of the workers when every tree has completed [k] cycles. *)
Record workers_ok (state : board) (thread_num : nat) (k B : Z)
    (ws : workers) : Prop := {
  wo_trees : length (root_vec ws) = thread_num;
  wo_rows : length (average_selection ws) = thread_num;
  wo_tree : forall id h, root_vec ws !! id = Some h ->
    tree_inv k h /\ root_board h = Some state;
  wo_row : forall id row, average_selection ws !! id = Some row ->
    row_ok state B row
}.

(** The cells the board accepts, in the order [is_leaf] counts them. *)
Definition legal_cells (b : board) : list Z := List.filter (legal b) cells.

(** [h'] has the counters of [h] with one more visit along [path]. *)
Definition visited_once (h h' : heap) (path : list ptr) : Prop :=
  forall p n, h !! p = Some n ->
    exists n', h' !! p = Some n'
               /\ total_cnt n'
                  = total_cnt n + (if bool_decide (p ∈ path) then 1 else 0).

(** What links a child to its parent: the child was made by the move it
    is keyed by, on the parent's board; the keys of a node are distinct;
    the root holds the position to decide from; and every node but the
    root has been visited. *)
Record links_ok (state : board) (h : heap) : Prop := {
  links_root : exists r, h !! 0%nat = Some r /\ position r = state
                         /\ place_pos r = -1;
  links_child : forall p n x m,
    h !! p = Some n -> x ∈ child n -> h !! x.2 = Some m ->
    place_pos m = x.1 /\ position m = (place (position n) x.1).1;
  links_keys : forall p n, h !! p = Some n -> NoDup (child n).*1;
  links_warm : forall p n, h !! p = Some n -> p <> 0%nat -> 1 <= total_cnt n
}.

(** Everything known of a tree after [k] cycles from [state]. *)
Definition grown (state : board) (k : Z) (h : heap) : Prop :=
  tree_inv k h /\ links_ok state h /\ Z.of_nat (length h) <= k + 1.

(** The part of [links_ok] that does not read the counters. *)
Definition links_struct (state : board) (h : heap) : Prop :=
  (exists r, h !! 0%nat = Some r /\ position r = state /\ place_pos r = -1)
  /\ (forall p n x m,
        h !! p = Some n -> x ∈ child n -> h !! x.2 = Some m ->
        place_pos m = x.1 /\ position m = (place (position n) x.1).1)
  /\ (forall p n, h !! p = Some n -> NoDup (child n).*1).

(** The root has a child, if the board to decide from has a legal cell. *)
Definition root_open (state : board) (h : heap) : Prop :=
  legal_cells state <> [] ->
  exists r, h !! 0%nat = Some r /\ child r <> [].

(** A tree after [k] cycles whose root has been expanded by the first of
    them. *)
Definition live (state : board) (k : Z) (h : heap) : Prop :=
  grown state k h /\ 0 <= k /\ (1 <= k -> root_open state h).

(** A row of [average_selection] that holds, for every child of the root,
    the visit count of that child. *)
Definition row_synced (h : heap) (row : list Z) : Prop :=
  forall r x, h !! 0%nat = Some r -> x ∈ child r ->
    row !! Z.to_nat x.1 = Some (total_at h x.2).

(** [h'] has, under its root, the children that [h] has under its. *)
Definition children_kept (h h' : heap) : Prop :=
  forall r x, h !! 0%nat = Some r -> x ∈ child r ->
    exists r', h' !! 0%nat = Some r' /\ x ∈ child r'.

(** A row that is non-zero only at the cells of children of the root. *)
Definition row_children (h : heap) (row : list Z) : Prop :=
  forall j e, row !! j = Some e -> e <> 0 ->
    exists r x, h !! 0%nat = Some r /\ x ∈ child r /\ Z.to_nat x.1 = j.

(** Every worker of [ws] has a tree after [k] cycles and a row for it;
    with [synced], the row holds the visit counts of the root's
    children. *)
Definition team (state : board) (thread_num : nat) (k B : Z)
    (synced : bool) (ws : workers) : Prop :=
  length (root_vec ws) = thread_num
  /\ length (average_selection ws) = thread_num
  /\ forall id h row,
       root_vec ws !! id = Some h -> average_selection ws !! id = Some row ->
       (live state k h /\ row_ok state B row /\ row_children h row)
       /\ (synced = true -> row_synced h row).

(** *** The rollout told by rounds

    The board after the cells of [l] have been placed one after the
    other. *)
Definition play (b : board) (l : list Z) : board :=
  foldl (fun b i => (place b i).1) b l.

(** Every cell of [l] is accepted by the board it is placed on. *)
Fixpoint accepted (b : board) (l : list Z) : Prop :=
  match l with
  | [] => True
  | i :: l' => legal b i = true /\ accepted (place b i).1 l'
  end.

(** The first cell of [q] that [b] accepts, with the cells before it and
    the cells after it. *)
Fixpoint split_at_legal (b : board) (q : list Z)
  : option (list Z * Z * list Z) :=
  match q with
  | [] => None
  | i :: q' =>
      if legal b i then Some ([], i, q')
      else match split_at_legal b q' with
           | Some (pre, j, post) => Some (i :: pre, j, post)
           | None => None
           end
  end.

(** The scan of [simulate_winner] as the specification words it, round by
    round: a round plays the first cell of the queue that the board
    accepts, after one refused call for each cell before it, and these go
    to the back of the queue; the scan stops in the first round in which
    the board accepts no cell of the queue, after one call for each of
    them.  [played] collects the cells played and [steps] counts the
    calls of [place]. *)
Fixpoint scan_by_rounds (fuel : nat) (b : board) (q played : list Z)
    (steps : nat) : option (board * list Z * list Z * nat) :=
  match split_at_legal b q with
  | None => Some (b, q, played, (steps + length q)%nat)
  | Some (pre, i, post) =>
      match fuel with
      | O => None
      | S fuel' =>
          scan_by_rounds fuel' (place b i).1 (post ++ pre) (played ++ [i])
                         (steps + S (length pre))
      end
  end.

(** *** What selection may return

    [may_select h p l]: the loop of [select_root_to_leaf], started at
    [p], can return the chain [l] below [p], whichever child its
    comparison of scores picks: it goes on from a node only where
    [is_leaf] is false, to one of the children of that node. *)
Inductive may_select (h : heap) : ptr -> list ptr -> Prop :=
| may_stop p n :
    h !! p = Some n -> (is_leaf n = true \/ child n = []) ->
    may_select h p []
| may_step p n x l :
    h !! p = Some n -> is_leaf n = false -> x ∈ child n ->
    may_select h x.2 l -> may_select h p (x.2 :: l).


(** ** Facts *)

(** *** Checked arithmetic in range *)

Lemma in_int_spec z :
  CInt.in_int z = true <-> CInt.INT_MIN <= z <= CInt.INT_MAX.
Proof. unfold CInt.in_int. rewrite andb_true_iff, !Z.leb_le. tauto. Qed.

Lemma checked_in z :
  CInt.INT_MIN <= z <= CInt.INT_MAX -> CInt.checked z = Some z.
Proof.
  intros H. unfold CInt.checked.
  destruct (CInt.in_int z) eqn:E; [reflexivity|].
  apply in_int_spec in H. congruence.
Qed.

Lemma checked_Some z r : CInt.checked z = Some r -> r = z.
Proof. unfold CInt.checked. destruct (CInt.in_int z); congruence. Qed.

Lemma incr_in x :
  CInt.INT_MIN <= x < CInt.INT_MAX -> CInt.incr x = Some (x + 1).
Proof. intros H. apply checked_in. lia. Qed.

Lemma decr_in x :
  CInt.INT_MIN < x <= CInt.INT_MAX -> CInt.decr x = Some (x - 1).
Proof. intros H. apply checked_in. lia. Qed.

Lemma INT_MAX_val : CInt.INT_MAX = 2147483647.
Proof. reflexivity. Qed.

Lemma INT_MIN_val : CInt.INT_MIN = -2147483648.
Proof. reflexivity. Qed.

(** *** The rollout *)

Lemma length_cells : length cells = 81%nat.
Proof. reflexivity. Qed.

Lemma length_all_space g : length (all_space g).1 = 81%nat.
Proof.
  unfold all_space. rewrite (Permutation_length (shuffle_perm cells g)).
  apply length_cells.
Qed.

(** The loop ends on every board and every queue: with [done] the cells
    pushed back since the last legal move, [rest] the cells not yet tried,
    the rounds left are bounded by [s * (s + 1) + |rest|], [s] the size of
    the queue. *)
Lemma rollout_total fuel : forall b rest done steps,
  Z.of_nat (length (rest ++ done)) <= CInt.INT_MAX ->
  (length (rest ++ done) * (length (rest ++ done) + 1) + length rest
   <= fuel)%nat ->
  exists b' q' steps',
    rollout fuel b (rest ++ done) (Z.of_nat (length done)) steps
    = Some (b', q', steps')
    /\ (steps' <= steps + length (rest ++ done)
                          * (length (rest ++ done) + 1) + length rest)%nat.
Proof.
  induction fuel as [|fuel IH]; intros b rest done steps Hmax Hfuel.
  - destruct rest as [|i rest]; [|simpl in Hfuel; lia].
    simpl. rewrite Z.eqb_refl. eexists _, _, _. split; [reflexivity|lia].
  - destruct rest as [|i rest].
    + simpl. rewrite Z.eqb_refl. eexists _, _, _. split; [reflexivity|lia].
    + cbn [rollout app].
      destruct (Z.eqb_spec (Z.of_nat (length done))
                           (Z.of_nat (length (i :: rest ++ done))))
        as [E|_].
      { simpl in E. rewrite length_app in E. lia. }
      rewrite !length_app in *. cbn [length] in *.
      destruct (place b i) as [b' ok]. destruct ok.
      * destruct (IH b' (rest ++ done) [] (S steps)) as (b2 & q2 & k & E & Hk).
        { rewrite app_nil_r, length_app. lia. }
        { rewrite app_nil_r, length_app. nia. }
        rewrite app_nil_r in E, Hk.
        change (Z.of_nat (@length Z [])) with 0 in E.
        rewrite E. eexists _, _, _. split; [reflexivity|].
        rewrite ?length_app in *. nia.
      * rewrite incr_in by (rewrite INT_MIN_val; lia). cbn.
        destruct (IH b' rest (done ++ [i]) (S steps)) as (b2 & q2 & k & E & Hk).
        { rewrite !length_app. cbn [length]. lia. }
        { rewrite !length_app. cbn [length]. nia. }
        rewrite length_app in E. cbn [length] in E.
        replace (Z.of_nat (length done + 1)) with (Z.of_nat (length done) + 1)
          in E by lia.
        rewrite <- app_assoc. rewrite E.
        eexists _, _, _. split; [reflexivity|].
        rewrite ?length_app in *. cbn [length] in *. nia.
Qed.

(** When the loop ends, every cell left in the queue was refused on the
    final board. *)
Lemma rollout_final fuel : forall b rest done steps b' q' steps',
  no_legal b done ->
  rollout fuel b (rest ++ done) (Z.of_nat (length done)) steps
  = Some (b', q', steps') ->
  no_legal b' q' /\ q' ⊆ rest ++ done.
Proof.
  induction fuel as [|fuel IH]; intros b rest done steps b' q' k Hd E.
  - simpl in E.
    destruct (Z.eqb_spec (Z.of_nat (length done))
                         (Z.of_nat (length (rest ++ done)))) as [El|]; [|done].
    rewrite length_app in El. destruct rest; [|simpl in El; lia].
    inversion E; subst. done.
  - destruct rest as [|i rest].
    + simpl in E. rewrite Z.eqb_refl in E. inversion E; subst. done.
    + cbn [rollout app] in E.
      destruct (Z.eqb_spec (Z.of_nat (length done))
                           (Z.of_nat (length (i :: rest ++ done))))
        as [El|_].
      { simpl in El. rewrite length_app in El. lia. }
      destruct (place b i) as [b1 ok] eqn:Ep. destruct ok.
      * replace (rest ++ done) with ((rest ++ done) ++ []) in E
          by apply app_nil_r.
        apply (IH _ _ []) in E as [H1 H2]; [|constructor].
        split; [done|]. rewrite app_nil_r in H2.
        intros x Hx. apply H2 in Hx. rewrite elem_of_app in Hx.
        rewrite elem_of_app, elem_of_cons. tauto.
      * pose proof (place_illegal b i) as Hb. rewrite Ep in Hb.
        simpl in Hb. rewrite Hb in E by reflexivity.
        destruct (CInt.incr (Z.of_nat (length done))) as [cnt'|] eqn:Ei;
          [|done].
        apply checked_Some in Ei. subst cnt'. cbn in E.
        rewrite <- app_assoc in E.
        replace (Z.of_nat (length done) + 1)
          with (Z.of_nat (length (done ++ [i]))) in E
          by (rewrite length_app; simpl; lia).
        apply IH in E as [H1 H2].
        { split; [done|]. intros x Hx. apply H2 in Hx.
          rewrite !elem_of_app, list_elem_of_singleton in Hx.
          rewrite elem_of_app, elem_of_cons. tauto. }
        apply Forall_app. split; [done|]. constructor; [|done].
        unfold legal. by rewrite Ep.
Qed.

(** On a board that refuses every cell of the queue the loop makes one
    pass: one [place] call per cell, the board and the queue as before. *)
Lemma rollout_one_scan fuel : forall b rest done steps,
  no_legal b (rest ++ done) ->
  Z.of_nat (length (rest ++ done)) <= CInt.INT_MAX ->
  (length rest <= fuel)%nat ->
  rollout fuel b (rest ++ done) (Z.of_nat (length done)) steps
  = Some (b, done ++ rest, (steps + length rest)%nat).
Proof.
  induction fuel as [|fuel IH]; intros b rest done steps Hn Hmax Hfuel.
  - destruct rest; [|simpl in Hfuel; lia].
    simpl. rewrite Z.eqb_refl, app_nil_r, Nat.add_0_r. done.
  - destruct rest as [|i rest].
    + simpl. rewrite Z.eqb_refl, app_nil_r, Nat.add_0_r. done.
    + cbn [rollout app].
      destruct (Z.eqb_spec (Z.of_nat (length done))
                           (Z.of_nat (length (i :: rest ++ done))))
        as [El|_].
      { simpl in El. rewrite length_app in El. lia. }
      assert (Hi : legal b i = false).
      { apply Forall_app in Hn as [Hn _]. by inversion Hn. }
      unfold legal in Hi. pose proof (place_illegal b i Hi) as Hb.
      destruct (place b i) as [b1 ok]. simpl in Hi, Hb. subst ok b1.
      rewrite length_app in Hmax. cbn [length] in Hmax.
      rewrite incr_in by (rewrite INT_MIN_val; lia). cbn.
      rewrite <- app_assoc.
      replace (Z.of_nat (length done) + 1)
        with (Z.of_nat (length (done ++ [i])))
        by (rewrite length_app; simpl; lia).
      rewrite IH.
      * rewrite <- app_assoc. simpl. do 2 f_equal. lia.
      * unfold no_legal in *.
        rewrite ?Forall_app, ?Forall_cons, ?Forall_nil in *. tauto.
      * rewrite !length_app. cbn [length]. lia.
      * simpl in Hfuel. lia.
Qed.

(** *** The rollout, round by round *)

Lemma split_at_legal_None (b : board) (q : list Z) :
  split_at_legal b q = None <-> no_legal b q.
Proof.
  unfold no_legal. induction q as [|i q IH]; cbn [split_at_legal].
  - split; [constructor|done].
  - destruct (legal b i) eqn:E.
    + split; [done|]. intros H. apply Forall_cons in H as [H _]. congruence.
    + destruct (split_at_legal b q) as [[[pre j] post]|].
      * split; [done|]. intros H. apply Forall_cons in H as [_ H].
        by apply IH in H.
      * split; [|done]. intros _. constructor; [done|]. by apply IH.
Qed.

Lemma split_at_legal_Some (b : board) (q pre post : list Z) (i : Z) :
  split_at_legal b q = Some (pre, i, post) ->
  q = pre ++ i :: post /\ no_legal b pre /\ legal b i = true.
Proof.
  unfold no_legal. revert pre.
  induction q as [|j q IH]; intros pre; cbn [split_at_legal]; [done|].
  destruct (legal b j) eqn:E.
  - intros [= <- <- <-]. split; [done|]. split; [constructor|done].
  - destruct (split_at_legal b q) as [[[pre' j'] post']|]; [|done].
    intros [= <- <- <-]. destruct (IH pre' eq_refl) as (-> & Hpre & Hi).
    split; [done|]. split; [by constructor|done].
Qed.

Lemma split_at_legal_app (b : board) (done rest : list Z) :
  no_legal b done ->
  split_at_legal b (done ++ rest)
  = match split_at_legal b rest with
    | Some (pre, i, post) => Some (done ++ pre, i, post)
    | None => None
    end.
Proof.
  unfold no_legal. induction done as [|j done IH]; intros Hd; cbn.
  - by destruct (split_at_legal b rest) as [[[pre i] post]|].
  - apply Forall_cons in Hd as [Hj Hd]. rewrite Hj, (IH Hd).
    by destruct (split_at_legal b rest) as [[[pre i] post]|].
Qed.

(** The loop with its counter makes the calls of the rounds: in the
    middle of a round, [done] holds the cells refused since the last move
    and [rest] the cells the round has not tried yet. *)
Lemma rollout_rounds fuel :
  forall b rest done s0 f played,
  no_legal b done ->
  Z.of_nat (length (rest ++ done)) <= CInt.INT_MAX ->
  (length (rest ++ done) * (length (rest ++ done) + 1) + length rest
   <= fuel)%nat ->
  (length (rest ++ done) <= f)%nat ->
  rollout fuel b (rest ++ done) (Z.of_nat (length done))
          (s0 + length done)
  = (fun r : board * list Z * list Z * nat => (r.1.1.1, r.1.1.2, r.2))
      <$> scan_by_rounds f b (done ++ rest) played s0.
Proof.
  induction fuel as [|fuel IH];
    intros b rest done s0 f played Hd Hmax Hfuel Hf.
  - destruct rest as [|i rest]; [|simpl in Hfuel; lia].
    simpl. rewrite Z.eqb_refl.
    destruct f; cbn [scan_by_rounds];
      rewrite app_nil_r, (proj2 (split_at_legal_None b done) Hd); done.
  - destruct rest as [|i rest].
    + simpl. rewrite Z.eqb_refl.
      destruct f; cbn [scan_by_rounds];
        rewrite app_nil_r, (proj2 (split_at_legal_None b done) Hd); done.
    + cbn [rollout app].
      destruct (Z.eqb_spec (Z.of_nat (length done))
                           (Z.of_nat (length (i :: rest ++ done))))
        as [E|_].
      { simpl in E. rewrite length_app in E. lia. }
      rewrite !length_app in *. cbn [length] in *.
      destruct f as [|f]; [lia|].
      cbn [scan_by_rounds]. rewrite (split_at_legal_app b done _ Hd).
      cbn [split_at_legal].
      destruct (place b i) as [b1 ok] eqn:Ep.
      assert (El : legal b i = ok) by (unfold legal; by rewrite Ep).
      rewrite El. destruct ok.
      * rewrite app_nil_r.
        replace (place b i).1 with b1 by (by rewrite Ep).
        specialize (IH b1 (rest ++ done) [] (s0 + S (length done))%nat f
                       (played ++ [i])).
        rewrite !app_nil_r in IH. cbn [length app] in IH.
        rewrite Nat.add_0_r in IH.
        replace (S (s0 + length done)) with (s0 + S (length done))%nat by lia.
        change (Z.of_nat 0) with 0 in IH. apply IH.
        -- constructor.
        -- rewrite length_app. lia.
        -- rewrite length_app. nia.
        -- rewrite length_app. lia.
      * pose proof (place_illegal b i) as Hb. rewrite Ep in Hb.
        cbn in Hb. specialize (Hb eq_refl). subst b1.
        rewrite incr_in by (rewrite INT_MIN_val; lia). cbn.
        specialize (IH b rest (done ++ [i]) s0 (S f) played).
        rewrite !length_app in IH. cbn [length] in IH.
        replace (Z.of_nat (length done + 1)) with (Z.of_nat (length done) + 1)
          in IH by lia.
        replace (s0 + (length done + 1))%nat with (S (s0 + length done))
          in IH by lia.
        rewrite <- !app_assoc in IH. cbn [app] in IH.
        rewrite <- app_assoc. cbn [app].
        rewrite IH.
        -- cbn [scan_by_rounds]. rewrite (split_at_legal_app b done _ Hd).
           cbn [split_at_legal]. rewrite El. reflexivity.
        -- apply Forall_app. split; [done|]. by constructor.
        -- lia.
        -- nia.
        -- lia.
Qed.

(** What the rounds leave: the cells played were accepted in turn, the
    board is the one they lead to, every cell is either played or still
    in the queue, and the board refuses every cell of the queue. *)
Lemma scan_by_rounds_spec :
  forall f b q played steps b' q' played' steps',
  scan_by_rounds f b q played steps = Some (b', q', played', steps') ->
  exists pl, played' = played ++ pl /\ b' = play b pl /\ accepted b pl
             /\ pl ++ q' ≡ₚ q /\ no_legal b' q'.
Proof.
  induction f as [|f IH]; intros b q played steps b' q' played' steps' E;
    cbn [scan_by_rounds] in E;
    destruct (split_at_legal b q) as [[[pre i] post]|] eqn:Es; try done.
  - inversion E; subst. exists []. rewrite app_nil_r.
    repeat split; try done. by apply split_at_legal_None.
  - apply IH in E as (pl & -> & -> & Hacc & Hperm & Hno).
    apply split_at_legal_Some in Es as (-> & Hpre & Hi).
    exists (i :: pl). rewrite <- app_assoc. repeat split; try done.
    cbn [app]. rewrite <- Permutation_middle. constructor.
    rewrite Hperm. apply Permutation_app_comm.
  - inversion E; subst. exists []. rewrite app_nil_r.
    repeat split; try done. by apply split_at_legal_None.
Qed.

(** C6 — [simulate_winner] returns on every board and for every shuffle.
    Its loop makes, call for call, the rounds of [scan_by_rounds]: it
    plays the first cell of the queue that the board accepts and stops as
    soon as one pass over the cells left in the queue has found none.
    The cells [played] were accepted one after the other, the final board
    is the one they lead to, every cell of the shuffled queue is either
    played or left in the final queue, and the final board refuses every
    cell left; the winner returned is the opponent of the player to move
    on that final board.  At most 81 * 83 calls of [place] are made, and
    from a board with no legal cell the scan is a single pass of 81 calls
    that plays nothing. *)
Theorem simulate_winner_terminates (h : heap) (this : ptr) (g : engine)
    (n : node) :
  h !! this = Some n ->
  exists played q' steps winner,
    let b' := play (position n) played in
    rollout (rollout_fuel 81) (position n) (all_space g).1 0 0
    = Some (b', q', steps)
    /\ scan_by_rounds 81 (position n) (all_space g).1 [] 0
       = Some (b', q', played, steps)
    /\ simulate_winner h this g = Some (winner, (all_space g).2)
    /\ winner <> who_take_turns b'
    /\ (who_take_turns b' = white -> winner = black)
    /\ (who_take_turns b' = black -> winner = white)
    /\ accepted (position n) played
    /\ played ++ q' ≡ₚ cells
    /\ no_legal b' q'
    /\ q' ⊆ cells
    /\ (steps <= 81 * 83)%nat
    /\ (no_legal (position n) cells ->
        played = [] /\ steps = 81%nat /\ b' = position n).
Proof.
  intros Hn.
  pose proof (length_all_space g) as Hlen.
  pose proof (shuffle_perm cells g) as Hperm. fold (all_space g) in Hperm.
  destruct (rollout_total (rollout_fuel 81) (position n) (all_space g).1 [] 0)
    as (b' & q' & steps & E & Hk).
  { rewrite app_nil_r, Hlen, INT_MAX_val. lia. }
  { rewrite app_nil_r, Hlen. unfold rollout_fuel. lia. }
  rewrite app_nil_r in E, Hk. rewrite Hlen in Hk.
  change (Z.of_nat (@length Z [])) with 0 in E.
  pose proof (rollout_rounds (rollout_fuel 81) (position n)
                (all_space g).1 [] 0 81 []) as Er.
  rewrite app_nil_r, Hlen in Er. cbn [length app Nat.add] in Er.
  change (Z.of_nat 0) with 0 in Er. rewrite Er in E; clear Er;
    [|constructor|rewrite INT_MAX_val; lia|unfold rollout_fuel; lia|lia].
  destruct (scan_by_rounds 81 (position n) (all_space g).1 [] 0)
    as [[[[b2 q2] played] steps2]|] eqn:Es; [|done].
  cbn in E. inversion E; subst b2 q2 steps2. clear E.
  destruct (scan_by_rounds_spec _ _ _ _ _ _ _ _ _ Es)
    as (pl & Hpl & Hb & Hacc & Hpq & Hno).
  cbn [app] in Hpl. subst pl b'.
  exists played, q', steps,
    (if piece_eqb (who_take_turns (play (position n) played)) white
     then black else white).
  cbn zeta.
  assert (Eroll : rollout (rollout_fuel 81) (position n) (all_space g).1 0 0
                  = Some (play (position n) played, q', steps)).
  { pose proof (rollout_rounds (rollout_fuel 81) (position n)
                  (all_space g).1 [] 0 81 []) as Er.
    rewrite app_nil_r, Hlen in Er. cbn [length app Nat.add] in Er.
    change (Z.of_nat 0) with 0 in Er. rewrite Er, Es;
      [done|constructor|rewrite INT_MAX_val; lia|unfold rollout_fuel; lia
      |lia]. }
  split; [exact Eroll|]. split; [reflexivity|]. split.
  { unfold simulate_winner. rewrite Hn. cbn.
    destruct (all_space g) as [vec g'] eqn:Ea. cbn [fst snd] in *.
    rewrite Hlen, Eroll. reflexivity. }
  split; [destruct (who_take_turns _); cbn; congruence|].
  split; [intros ->; reflexivity|]. split; [intros ->; reflexivity|].
  split; [exact Hacc|]. split; [by rewrite Hpq|]. split; [exact Hno|].
  split.
  { intros x Hx. rewrite <- Hperm, <- Hpq. apply elem_of_app. by right. }
  split; [lia|].
  intros Hnone.
  assert (Hpl : played = []).
  { destruct played as [|i pl]; [done|]. destruct Hacc as [Hi _].
    assert (Hin : i ∈ cells).
    { rewrite <- Hperm, <- Hpq. by left. }
    unfold no_legal in Hnone. rewrite Forall_forall in Hnone.
    rewrite (Hnone i Hin) in Hi. done. }
  subst played. split; [done|]. split; [|done].
  assert (Hnone' : no_legal (position n) ((all_space g).1 ++ [])).
  { rewrite app_nil_r. unfold no_legal. by rewrite Hperm. }
  pose proof (rollout_one_scan (rollout_fuel 81) (position n)
                (all_space g).1 [] 0 Hnone') as E2.
  rewrite app_nil_r, Hlen in E2.
  change (Z.of_nat (@length Z [])) with 0 in E2.
  rewrite E2 in Eroll.
  - by inversion Eroll.
  - rewrite INT_MAX_val. lia.
  - unfold rollout_fuel. lia.
Qed.

(** *** Back propagation *)

Lemma visit_in (winner : piece_type) (n : node) :
  CInt.INT_MIN <= total_cnt n < CInt.INT_MAX ->
  CInt.INT_MIN < win_cnt n < CInt.INT_MAX ->
  visit winner n
  = Some (Node (position n)
               (if negb (piece_eqb winner (who_take_turns (position n)))
                then win_cnt n + 1 else win_cnt n - 1)
               (total_cnt n + 1) (place_pos n) (child n) (parent n)).
Proof.
  intros Ht Hw. unfold visit.
  rewrite (incr_in (total_cnt n)) by lia. cbn.
  destruct (negb _);
    [rewrite (incr_in (win_cnt n)) by lia
    |rewrite (decr_in (win_cnt n)) by lia]; reflexivity.
Qed.

(** The effect of [back_propagate] along a path without repetition. *)
Lemma back_propagate_effect (winner : piece_type) :
  forall (path : list ptr) (h : heap),
  NoDup path ->
  (forall p, p ∈ path ->
     exists n, h !! p = Some n
               /\ CInt.INT_MIN <= total_cnt n < CInt.INT_MAX
               /\ CInt.INT_MIN < win_cnt n < CInt.INT_MAX) ->
  exists h',
    back_propagate path winner h = Some h'
    /\ length h' = length h
    /\ (forall p n, p ∈ path -> h !! p = Some n ->
          visit winner n = h' !! p)
    /\ (forall p, p ∉ path -> h' !! p = h !! p).
Proof.
  induction path as [|p path IH]; intros h Hnd Hok.
  - exists h. split; [done|]. split; [done|]. split; [|done].
    intros p n Hp. by apply elem_of_nil in Hp.
  - apply NoDup_cons in Hnd as [Hp Hnd].
    destruct (Hok p) as (n & Hn & Ht & Hw); [by left|].
    cbn [back_propagate]. rewrite Hn. cbn.
    rewrite (visit_in winner n Ht Hw). cbn.
    set (n' := Node _ _ _ _ _ _).
    assert (Hlt : (p < length h)%nat) by (by eapply lookup_lt_Some).
    destruct (IH (<[p := n']> h) Hnd) as (h' & E & Hlen & Hin & Hout).
    { intros q Hq. destruct (Hok q) as (m & Hm & ?); [by right|].
      exists m. split; [|done].
      rewrite list_lookup_insert_ne; [done|]. intros ->. done. }
    exists h'. split; [exact E|]. split.
    { by rewrite Hlen, length_insert. }
    split.
    + intros q m Hq Hm. apply elem_of_cons in Hq as [->|Hq].
      * rewrite Hout by done. rewrite list_lookup_insert_eq by done.
        rewrite Hn in Hm. inversion Hm; subst m.
        by rewrite (visit_in winner n Ht Hw).
      * apply Hin; [done|]. rewrite list_lookup_insert_ne; [done|].
        intros ->. done.
    + intros q Hq. apply not_elem_of_cons in Hq as [Hne Hq].
      rewrite Hout by done. by rewrite list_lookup_insert_ne.
Qed.

(** C4 — along a selected path (no node twice, counters below [INT_MAX]),
    [back_propagate] adds exactly 1 to [total_cnt] of every node of the
    path, adds 1 to its [win_cnt] when the winner differs from the player
    to move at that node and subtracts 1 otherwise, and leaves every other
    field and every other node as they were. *)
Theorem back_propagate_counts (winner : piece_type) (path : list ptr)
    (h : heap) :
  NoDup path ->
  (forall p, p ∈ path ->
     exists n, h !! p = Some n
               /\ CInt.INT_MIN <= total_cnt n < CInt.INT_MAX
               /\ CInt.INT_MIN < win_cnt n < CInt.INT_MAX) ->
  exists h',
    back_propagate path winner h = Some h'
    /\ (forall p n, p ∈ path -> h !! p = Some n ->
          exists n', h' !! p = Some n'
            /\ total_cnt n' = total_cnt n + 1
            /\ (winner <> who_take_turns (position n) ->
                win_cnt n' = win_cnt n + 1)
            /\ (winner = who_take_turns (position n) ->
                win_cnt n' = win_cnt n - 1)
            /\ position n' = position n /\ place_pos n' = place_pos n
            /\ child n' = child n /\ parent n' = parent n)
    /\ (forall p, p ∉ path -> h' !! p = h !! p).
Proof.
  intros Hnd Hok.
  destruct (back_propagate_effect winner path h Hnd Hok)
    as (h' & E & _ & Hin & Hout).
  exists h'. split; [exact E|]. split; [|exact Hout].
  intros p n Hp Hn.
  destruct (Hok p Hp) as (n0 & Hn0 & Ht & Hw).
  rewrite Hn in Hn0. inversion Hn0; subst n0.
  specialize (Hin p n Hp Hn). rewrite (visit_in winner n Ht Hw) in Hin.
  eexists. split; [symmetry; exact Hin|]. cbn.
  split; [done|].
  destruct (piece_eqb winner (who_take_turns (position n))) eqn:Ee; cbn.
  - assert (winner = who_take_turns (position n))
      by (destruct winner, (who_take_turns (position n)); done).
    repeat split; congruence.
  - assert (winner <> who_take_turns (position n))
      by (intros Heq; rewrite Heq in Ee;
          destruct (who_take_turns (position n)); done).
    repeat split; congruence.
Qed.

(** *** The selection score *)

Lemma win_rate_cold (n : node) : total_cnt n = 0 -> win_rate n = 0%R.
Proof. intros E. unfold win_rate. by rewrite E. Qed.

Lemma win_rate_warm (n : node) :
  total_cnt n <> 0 -> win_rate n = (IZR (win_cnt n) / IZR (total_cnt n))%R.
Proof.
  intros E. unfold win_rate.
  destruct (Z.eqb_spec (total_cnt n) 0); [contradiction|reflexivity].
Qed.

Lemma ucb_cold (h : heap) (n : node) (c s : R) :
  total_cnt n = 0 -> ucb h n c = Some s -> s = 0%R.
Proof.
  intros E. unfold ucb.
  destruct (parent n) as [pp|]; [|done]. cbn.
  destruct (h !! pp) as [p|]; [|done]. cbn.
  rewrite E, orb_true_r, win_rate_cold by done. congruence.
Qed.

Lemma FLT_MAX_large : (1 < FLT_MAX)%R.
Proof. unfold FLT_MAX. apply IZR_lt. reflexivity. Qed.

(** With counters in [-total_cnt, total_cnt] and a non-negative
    exploration constant, a score is at least -1. *)
Lemma ucb_lower (h : heap) (n : node) (c s : R) :
  (0 <= c)%R ->
  0 <= total_cnt n ->
  - total_cnt n <= win_cnt n ->
  ucb h n c = Some s ->
  (-1 <= s)%R.
Proof.
  intros Hc Ht Hw. unfold ucb.
  destruct (parent n) as [pp|]; [|done]. cbn.
  destruct (h !! pp) as [p|]; [|done]. cbn.
  assert (Hwr : (-1 <= win_rate n)%R).
  { unfold win_rate. destruct (Z.eqb_spec (total_cnt n) 0); [lra|].
    assert (Hpos : (0 < IZR (total_cnt n))%R) by (apply IZR_lt; lia).
    assert (Hle : (- IZR (total_cnt n) <= IZR (win_cnt n))%R).
    { rewrite <- opp_IZR. by apply IZR_le. }
    apply Rmult_le_reg_r with (r := IZR (total_cnt n)); [done|].
    unfold Rdiv. rewrite Rmult_assoc, Rinv_l by lra. lra. }
  intros E. inversion E; subst s; clear E.
  destruct (_ || _); [done|].
  pose proof (sqrt_pos (ln (IZR (total_cnt p)) / IZR (total_cnt n))).
  pose proof (Rmult_le_pos _ _ Hc H). lra.
Qed.

(** The scan over the children keeps the first greatest score above its
    starting value. *)
Lemma best_child_max (h : heap) (c : R) :
  forall cs s0 c0 s q,
  best_child h c cs s0 c0 = Some (s, q) ->
  (s0 <= s)%R
  /\ (forall x, x ∈ cs ->
        exists n sx, h !! x.2 = Some n /\ ucb h n c = Some sx
                     /\ (sx <= s)%R)
  /\ ((q = c0 /\ s = s0)
      \/ exists x n, x ∈ cs /\ q = Some x.2 /\ h !! x.2 = Some n
                     /\ ucb h n c = Some s /\ (s0 < s)%R).
Proof.
  induction cs as [|x cs IH]; intros s0 c0 s q E.
  - cbn in E. inversion E; subst. split; [lra|]. split; [|by left].
    intros x Hx. by apply elem_of_nil in Hx.
  - cbn [best_child] in E.
    destruct (h !! x.2) as [n|] eqn:Hn; [|done]. cbn in E.
    destruct (ucb h n c) as [tmp|] eqn:Hu; [|done]. cbn in E.
    destruct (Rlt_dec s0 tmp) as [Hlt|Hge];
      apply IH in E as (H1 & H2 & H3).
    + split; [lra|]. split.
      * intros y Hy. apply elem_of_cons in Hy as [->|Hy]; [|by apply H2].
        exists n, tmp. done.
      * right. destruct H3 as [[-> ->]|(y & m & Hy & -> & Hm & Hs & Hlt')].
        -- exists x, n. repeat split; try done. by left.
        -- exists y, m. repeat split; try done; [by right|lra].
    + split; [done|]. split.
      * intros y Hy. apply elem_of_cons in Hy as [->|Hy]; [|by apply H2].
        exists n, tmp. repeat split; try done. lra.
      * destruct H3 as [?|(y & m & Hy & -> & Hm & Hs & Hlt')]; [by left|].
        right. exists y, m. repeat split; try done. by right.
Qed.

(** *** Selection returns a chain from the root *)

Lemma best_child_some (h : heap) (c : R) :
  forall cs s0 c0,
  (forall x, x ∈ cs ->
     exists n sx, h !! x.2 = Some n /\ ucb h n c = Some sx) ->
  is_Some (best_child h c cs s0 c0).
Proof.
  induction cs as [|x cs IH]; intros s0 c0 Hall; [by eexists|].
  cbn [best_child].
  destruct (Hall x) as (n & sx & Hn & Hs); [by left|].
  rewrite Hn. cbn. rewrite Hs. cbn.
  destruct (Rlt_dec s0 sx); apply IH; intros y Hy; apply Hall; by right.
Qed.

Lemma best_child_picks (h : heap) (c : R) (cs : list (Z * ptr)) :
  cs <> [] ->
  (forall x, x ∈ cs ->
     exists n sx, h !! x.2 = Some n /\ ucb h n c = Some sx
                  /\ (-1 <= sx)%R) ->
  exists s x, x ∈ cs
              /\ best_child h c cs (- FLT_MAX) None = Some (s, Some x.2).
Proof.
  intros Hne Hall.
  destruct (best_child_some h c cs (- FLT_MAX)%R None) as [[s q] E].
  { intros x Hx. destruct (Hall x Hx) as (n & sx & ? & ? & _). eauto. }
  pose proof (best_child_max h c cs _ _ _ _ E) as (_ & Hle & Hq).
  destruct Hq as [[-> ->]|(x & n & Hx & -> & _)].
  - destruct cs as [|x cs]; [done|].
    destruct (Hall x) as (n & sx & Hn & Hs & Hlow); [by left|].
    destruct (Hle x) as (n' & sx' & Hn' & Hs' & Hup); [by left|].
    rewrite Hn in Hn'. inversion Hn'; subst n'.
    rewrite Hs in Hs'. inversion Hs'; subst sx'.
    pose proof FLT_MAX_large. lra.
  - exists s, x. done.
Qed.

Lemma child_scored (h : heap) (k : Z) (c : R) (p : ptr) (n : node)
    (x : Z * ptr) :
  tree_inv k h -> (0 <= c)%R ->
  h !! p = Some n -> x ∈ child n ->
  exists m sx, h !! x.2 = Some m /\ ucb h m c = Some sx /\ (-1 <= sx)%R.
Proof.
  intros [Hs Hc] Hpos Hn Hx.
  destruct (shape_child h Hs p n x Hn Hx) as (_ & _ & _ & m & Hm & Hpar).
  assert (Hu : is_Some (ucb h m c)).
  { unfold ucb. rewrite Hpar. cbn. rewrite Hn. cbn. by eexists. }
  destruct Hu as [sx Hu]. exists m, sx. split; [done|]. split; [done|].
  pose proof (counts_win k h Hc _ _ Hm).
  pose proof (counts_bound k h Hc _ _ Hm).
  eapply ucb_lower; [done| | |exact Hu]; lia.
Qed.

Lemma select_loop_total (h : heap) (k : Z) (c : R) :
  tree_inv k h -> (0 <= c)%R ->
  forall fuel curr vec,
  is_Some (h !! curr) ->
  (length h <= fuel + curr)%nat ->
  exists l, select_loop fuel h c curr vec = Some (vec ++ l)
            /\ descends h curr l.
Proof.
  intros Hinv Hc.
  induction fuel as [|fuel IH]; intros curr vec [n Hn] Hfuel.
  - apply lookup_lt_Some in Hn. lia.
  - cbn [select_loop]. rewrite Hn. cbn.
    destruct (is_leaf n).
    { exists []. rewrite app_nil_r. split; [done|constructor]. }
    destruct (Nat.eqb_spec (length (child n)) 0).
    { exists []. rewrite app_nil_r. split; [done|constructor]. }
    destruct (best_child_picks h c (child n)) as (s & x & Hx & E).
    { by destruct (child n). }
    { intros y Hy. by eapply child_scored. }
    rewrite E. cbn.
    destruct Hinv as [Hs Hcnt].
    destruct (shape_child h Hs curr n x Hn Hx) as (Hlt & _ & _ & m & Hm & _).
    destruct (IH x.2 (vec ++ [x.2])) as (l & El & Hl).
    { by eexists. }
    { lia. }
    exists (x.2 :: l). rewrite El, <- app_assoc. split; [done|].
    econstructor; done.
Qed.

Lemma descends_valid (h : heap) :
  shape_ok h ->
  forall p l, descends h p l -> is_Some (h !! p) ->
  forall q, q ∈ p :: l -> is_Some (h !! q).
Proof.
  intros Hs p l Hd. induction Hd as [p|p n x l Hn Hx Hd IH]; intros Hp q Hq.
  - apply list_elem_of_singleton in Hq as ->. done.
  - apply elem_of_cons in Hq as [->|Hq]; [done|].
    apply IH; [|done].
    destruct (shape_child h Hs p n x Hn Hx) as (_ & _ & _ & m & Hm & _).
    by eexists.
Qed.

Lemma descends_gt (h : heap) :
  shape_ok h ->
  forall p l, descends h p l -> forall q, q ∈ l -> (p < q)%nat.
Proof.
  intros Hs p l Hd. induction Hd as [p|p n x l Hn Hx Hd IH]; intros q Hq.
  - by apply elem_of_nil in Hq.
  - destruct (shape_child h Hs p n x Hn Hx) as (Hlt & _).
    apply elem_of_cons in Hq as [->|Hq]; [done|].
    specialize (IH q Hq). lia.
Qed.

Lemma descends_NoDup (h : heap) :
  shape_ok h -> forall p l, descends h p l -> NoDup (p :: l).
Proof.
  intros Hs p l Hd. induction Hd as [p|p n x l Hn Hx Hd IH].
  - apply NoDup_singleton.
  - apply NoDup_cons. split; [|done].
    intros Hp.
    pose proof (descends_gt h Hs p (x.2 :: l)
                  (descends_cons h p n x l Hn Hx Hd) p Hp). lia.
Qed.

Lemma descends_snoc (h : heap) :
  forall p l, descends h p l ->
  forall leaf n x, last (p :: l) = Some leaf -> h !! leaf = Some n ->
  x ∈ child n -> descends h p (l ++ [x.2]).
Proof.
  intros p l Hd. induction Hd as [p|p n0 x0 l Hn0 Hx0 Hd IH];
    intros leaf n x Hlast Hn Hx.
  - cbn in Hlast. inversion Hlast; subst leaf.
    cbn. econstructor; [done..|constructor].
  - cbn [app]. econstructor; [done..|].
    eapply IH; [|done..]. by rewrite last_cons_cons in Hlast.
Qed.

Lemma descends_mono (h h' : heap) :
  (forall p n x, h !! p = Some n -> x ∈ child n ->
     exists n', h' !! p = Some n' /\ x ∈ child n') ->
  forall p l, descends h p l -> descends h' p l.
Proof.
  intros Hsub p l Hd. induction Hd as [p|p n x l Hn Hx Hd IH];
    [constructor|].
  destruct (Hsub p n x Hn Hx) as (n' & Hn' & Hx').
  econstructor; done.
Qed.

(** *** Expansion keeps the invariant *)

Lemma has_child_spec (n : node) (k : Z) :
  has_child n k = true <-> k ∈ (child n).*1.
Proof.
  unfold has_child. rewrite existsb_exists, list_elem_of_fmap. split.
  - intros (x & Hx & E). apply Z.eqb_eq in E. exists x.
    split; [done|]. by apply list_elem_of_In.
  - intros (x & -> & Hx). exists x. split; [by apply list_elem_of_In|].
    apply Z.eqb_refl.
Qed.

Lemma foldr_add_perm {A : Type} (f : A -> Z) (l l' : list A) :
  l ≡ₚ l' ->
  foldr (fun x acc => f x + acc) 0 l = foldr (fun x acc => f x + acc) 0 l'.
Proof. induction 1; cbn; lia. Qed.

Lemma foldr_add_ext {A : Type} (f g : A -> Z) (l : list A) :
  (forall x, x ∈ l -> f x = g x) ->
  foldr (fun x acc => f x + acc) 0 l = foldr (fun x acc => g x + acc) 0 l.
Proof.
  induction l as [|x l IH]; intros H; [done|]. cbn.
  rewrite H by (by left). rewrite IH; [done|]. intros y Hy. apply H. by right.
Qed.

Lemma counts_nonneg (k : Z) (h : heap) : tree_inv k h -> 0 <= k.
Proof.
  intros [Hs Hc]. destruct (shape_root h Hs) as (r & Hr & _).
  pose proof (counts_bound k h Hc _ _ Hr). lia.
Qed.

Lemma find_some_in {A : Type} (f : A -> bool) (l : list A) (x : A) :
  List.find f l = Some x -> x ∈ l /\ f x = true.
Proof.
  intros H. apply find_some in H as [H1 H2]. split; [|done].
  by apply list_elem_of_In.
Qed.

Lemma expanded_lookup (h : heap) (leaf : ptr) (n : node) (pos : Z)
    (p : ptr) (m : node) :
  h !! leaf = Some n ->
  expanded h leaf n pos !! p = Some m <->
  (p = leaf
   /\ m = Node (position n) (win_cnt n) (total_cnt n) (place_pos n)
               (umap_insert pos (length h) (child n)) (parent n))
  \/ (p = length h
      /\ m = Node (place (position n) pos).1 0 0 pos [] (Some leaf))
  \/ (p <> leaf /\ h !! p = Some m).
Proof.
  intros Hn. pose proof (lookup_lt_Some _ _ _ Hn) as Hlt.
  unfold expanded.
  destruct (decide (p < length h)%nat) as [Hp|Hp].
  - rewrite lookup_app_l by (by rewrite length_insert).
    destruct (decide (p = leaf)) as [->|Hne].
    + rewrite list_lookup_insert_eq by done. split.
      * intros E. inversion E. by left.
      * intros [[_ ->]|[[E _]|[E _]]]; [done|lia|done].
    + rewrite list_lookup_insert_ne by done. split.
      * intros E. right. right. done.
      * intros [[E _]|[[E _]|[_ E]]]; [done|lia|done].
  - rewrite lookup_app_r by (rewrite length_insert; lia).
    rewrite length_insert.
    destruct (decide (p = length h)) as [->|Hne].
    + rewrite Nat.sub_diag. cbn. split.
      * intros E. inversion E. right. by left.
      * intros [[E _]|[[_ ->]|[_ E]]]; [lia|done|].
        apply lookup_lt_Some in E. lia.
    + destruct (p - length h)%nat as [|d] eqn:Ed; [lia|]. cbn. split.
      * intros E. by destruct d.
      * intros [[E _]|[[E _]|[_ E]]]; [lia|lia|].
        apply lookup_lt_Some in E. lia.
Qed.

Lemma expanded_total_at (h : heap) (leaf : ptr) (n : node) (pos : Z)
    (q : ptr) :
  h !! leaf = Some n ->
  total_at (expanded h leaf n pos) q = total_at h q.
Proof.
  intros Hn. unfold total_at.
  destruct (expanded h leaf n pos !! q) as [m|] eqn:E.
  - apply expanded_lookup in E; [|done].
    destruct E as [[-> ->]|[[-> ->]|[_ E]]].
    + by rewrite Hn.
    + by rewrite (lookup_ge_None_2 h (length h)).
    + by rewrite E.
  - destruct (h !! q) as [m|] eqn:E'; [|done]. exfalso.
    destruct (decide (q = leaf)) as [->|Hne].
    + assert (is_Some (expanded h leaf n pos !! leaf)) as [? H].
      { eexists. apply expanded_lookup; [done|]. by left. }
      congruence.
    + assert (expanded h leaf n pos !! q = Some m) as H.
      { apply expanded_lookup; [done|]. right. right. done. }
      congruence.
Qed.

Lemma expanded_inv (k : Z) (h : heap) (leaf : ptr) (n : node) (pos : Z) :
  tree_inv k h ->
  h !! leaf = Some n ->
  pos ∈ cells ->
  pos ∉ (child n).*1 ->
  legal (position n) pos = true ->
  tree_inv k (expanded h leaf n pos).
Proof.
  intros Hinv Hn Hcell Hfresh Hlegal.
  pose proof (counts_nonneg k h Hinv) as Hk.
  destruct Hinv as [Hs Hc].
  pose proof (lookup_lt_Some _ _ _ Hn) as Hlt.
  pose proof (umap_insert_perm pos (length h) (child n) Hfresh) as Hperm.
  set (h1 := expanded h leaf n pos).
  assert (Hold : forall p m, p <> leaf -> h !! p = Some m ->
                   h1 !! p = Some m).
  { intros p m Hne Hm. apply expanded_lookup; [done|]. right. right. done. }
  split; constructor.
  - (* root *)
    destruct (shape_root h Hs) as (r & Hr & Hpar).
    destruct (decide (leaf = 0%nat)) as [->|Hne].
    + eexists. split; [apply expanded_lookup; [done|]; by left|].
      cbn. rewrite Hn in Hr. by inversion Hr; subst.
    + exists r. split; [by apply Hold|done].
  - (* children *)
    intros p m x Hm Hx. apply expanded_lookup in Hm; [|done].
    destruct Hm as [[-> ->]|[[-> ->]|[Hne Hm]]].
    + cbn in Hx. rewrite Hperm in Hx. apply elem_of_cons in Hx as [->|Hx].
      * cbn. split; [done|]. split; [done|]. split; [done|].
        eexists. split; [apply expanded_lookup; [done|]; right; by left|].
        done.
      * destruct (shape_child h Hs leaf n x Hn Hx) as (H1 & H2 & H3 & m & Hm & Hp).
        split; [done|]. split; [done|]. split; [done|].
        exists m. split; [|done]. apply Hold; [lia|done].
    + cbn in Hx. by apply elem_of_nil in Hx.
    + destruct (shape_child h Hs p m x Hm Hx) as (H1 & H2 & H3 & m' & Hm' & Hp).
      split; [done|]. split; [done|]. split; [done|].
      destruct (decide (x.2 = leaf)) as [E|E].
      * eexists. split; [apply expanded_lookup; [done|]; left; done|].
        cbn. rewrite E, Hn in Hm'. by inversion Hm'; subst.
      * exists m'. split; [by apply Hold|done].
  - (* no shared child *)
    intros p m Hm. apply expanded_lookup in Hm; [|done].
    destruct Hm as [[-> ->]|[[-> ->]|[Hne Hm]]].
    + cbn. rewrite Hperm. cbn. apply NoDup_cons. split.
      * intros Hin. apply list_elem_of_fmap in Hin as (x & Ex & Hx).
        destruct (shape_child h Hs leaf n x Hn Hx) as (_ & _ & _ & m & Hm & _).
        apply lookup_lt_Some in Hm. lia.
      * by apply (shape_nodup h Hs leaf).
    + cbn. constructor.
    + by apply (shape_nodup h Hs p).
  - (* the root counter *)
    unfold h1. rewrite expanded_total_at by done. apply (counts_root k h Hc).
  - (* children sums *)
    intros p m Hm. unfold children_total.
    rewrite (foldr_add_ext _ (fun x => total_at h x.2))
      by (intros; by apply expanded_total_at).
    apply expanded_lookup in Hm; [|done].
    destruct Hm as [[-> ->]|[[-> ->]|[Hne Hm]]].
    + cbn [child total_cnt].
      rewrite (foldr_add_perm (fun x => total_at h x.2) _ _ Hperm). cbn.
      pose proof (counts_sum k h Hc leaf n Hn) as Hsum.
      unfold children_total in Hsum.
      unfold total_at at 1. rewrite (lookup_ge_None_2 h (length h)) by lia.
      cbn. lia.
    + cbn. lia.
    + apply (counts_sum k h Hc p m Hm).
  - intros p m Hm. apply expanded_lookup in Hm; [|done].
    destruct Hm as [[-> ->]|[[-> ->]|[Hne Hm]]]; cbn.
    + apply (counts_win k h Hc leaf n Hn).
    + lia.
    + apply (counts_win k h Hc p m Hm).
  - intros p m Hm. apply expanded_lookup in Hm; [|done].
    destruct Hm as [[-> ->]|[[-> ->]|[Hne Hm]]]; cbn.
    + apply (counts_bound k h Hc leaf n Hn).
    + lia.
    + apply (counts_bound k h Hc p m Hm).
Qed.

(** [expand_from_leaf] either leaves the store alone or yields
    [expanded h leaf n pos] for a legal cell [pos] that is not yet a key. *)
Lemma expand_from_leaf_cases (h : heap) (leaf : ptr) (n : node)
    (g : engine) :
  h !! leaf = Some n ->
  expand_from_leaf h leaf g = Some (h, leaf, (all_space g).2)
  \/ exists pos,
       pos ∈ cells /\ (pos ∉ (child n).*1) /\ legal (position n) pos = true
       /\ expand_from_leaf h leaf g
          = Some (expanded h leaf n pos, length h, (all_space g).2).
Proof.
  intros Hn. unfold expand_from_leaf. rewrite Hn. cbn.
  pose proof (shuffle_perm cells g) as Hperm. fold (all_space g) in Hperm.
  destruct (all_space g) as [vec g'] eqn:Ea. cbn in Hperm |- *.
  destruct (List.find _ vec) as [pos|] eqn:Ef; [|by left].
  right. exists pos. apply find_some_in in Ef as [Hin Hp].
  apply andb_true_iff in Hp as [Hl Hc].
  split; [by rewrite <- Hperm|]. split; [|done].
  intros Hk. apply has_child_spec in Hk. by rewrite Hk in Hc.
Qed.

(** *** Back propagation along a chain keeps the invariant *)

Lemma same_shape_back (h1 h2 : heap) (p : ptr) (n2 : node) :
  same_shape h1 h2 -> h2 !! p = Some n2 ->
  exists n1, h1 !! p = Some n1
             /\ position n2 = position n1 /\ place_pos n2 = place_pos n1
             /\ child n2 = child n1 /\ parent n2 = parent n1.
Proof.
  intros [Hlen Hfw] Hn2.
  pose proof (lookup_lt_Some _ _ _ Hn2) as Hlt. rewrite <- Hlen in Hlt.
  apply lookup_lt_is_Some_2 in Hlt as [n1 Hn1].
  destruct (Hfw p n1 Hn1) as (n2' & Hn2' & ?).
  rewrite Hn2 in Hn2'. inversion Hn2'; subst n2'. by exists n1.
Qed.

Lemma same_shape_ok (h1 h2 : heap) :
  same_shape h1 h2 -> shape_ok h1 -> shape_ok h2.
Proof.
  intros Hss Hs. pose proof Hss as [Hlen Hfw]. constructor.
  - destruct (shape_root h1 Hs) as (r & Hr & Hp).
    destruct (Hfw _ _ Hr) as (r' & Hr' & _ & _ & _ & Hp').
    exists r'. split; [done|congruence].
  - intros p n2 x Hn2 Hx.
    destruct (same_shape_back h1 h2 p n2 Hss Hn2)
      as (n1 & Hn1 & Hpos & _ & Hc & _).
    rewrite Hc in Hx.
    destruct (shape_child h1 Hs p n1 x Hn1 Hx) as (H1 & H2 & H3 & m & Hm & Hp).
    split; [done|]. split; [done|]. split; [by rewrite Hpos|].
    destruct (Hfw _ _ Hm) as (m' & Hm' & _ & _ & _ & Hp').
    exists m'. split; [done|congruence].
  - intros p n2 Hn2.
    destruct (same_shape_back h1 h2 p n2 Hss Hn2) as (n1 & Hn1 & _ & _ & Hc & _).
    rewrite Hc. by apply (shape_nodup h1 Hs p).
Qed.

Lemma hits_nonneg (path : list ptr) (cs : list (Z * ptr)) :
  0 <= hits path cs.
Proof.
  induction cs as [|x cs IH]; cbn; [lia|].
  fold (hits path cs). destruct (bool_decide _); lia.
Qed.

Lemma hits_nil (cs : list (Z * ptr)) : hits [] cs = 0.
Proof.
  induction cs as [|x cs IH]; cbn; [done|]. fold (hits [] cs).
  rewrite IH. rewrite bool_decide_eq_false_2; [done|]. apply not_elem_of_nil.
Qed.

Lemma hits_cons (a : ptr) (l : list ptr) (cs : list (Z * ptr)) :
  NoDup cs.*2 ->
  hits (a :: l) cs
  <= (if bool_decide (a ∈ cs.*2) then 1 else 0) + hits l cs.
Proof.
  induction cs as [|x cs IH]; intros Hnd.
  - cbn. destruct (bool_decide _); lia.
  - cbn in Hnd. apply NoDup_cons in Hnd as [Hx Hnd]. specialize (IH Hnd).
    cbn. fold (hits (a :: l) cs). fold (hits l cs).
    destruct (decide (x.2 = a)) as [E|E].
    + subst a.
      rewrite (bool_decide_eq_true_2 (x.2 ∈ x.2 :: l)) by (by left).
      rewrite (bool_decide_eq_true_2 (x.2 ∈ x.2 :: cs.*2)) by (by left).
      rewrite bool_decide_eq_false_2 in IH by done.
      destruct (bool_decide (x.2 ∈ l)); lia.
    + assert (bool_decide (x.2 ∈ a :: l) = bool_decide (x.2 ∈ l)) as ->.
      { apply bool_decide_ext. rewrite elem_of_cons. tauto. }
      assert (bool_decide (a ∈ x.2 :: cs.*2) = bool_decide (a ∈ cs.*2))
        as ->.
      { apply bool_decide_ext. rewrite elem_of_cons.
        split; [intros [?|?]; [congruence|done]|tauto]. }
      lia.
Qed.

Lemma hits_zero (path : list ptr) (cs : list (Z * ptr)) :
  (forall x, x ∈ cs -> x.2 ∉ path) -> hits path cs = 0.
Proof.
  induction cs as [|x cs IH]; intros H; [done|]. cbn. fold (hits path cs).
  rewrite IH by (intros y Hy; apply H; by right).
  rewrite bool_decide_eq_false_2; [done|]. apply H. by left.
Qed.

(** Along a chain below [r], at most one child of a node lies on the
    chain, and only if the node itself is [r] or on the chain. *)
Lemma hits_chain (h : heap) :
  shape_ok h ->
  forall r l, descends h r l ->
  forall p n, h !! p = Some n ->
  hits l (child n) <= (if bool_decide (p ∈ r :: l) then 1 else 0).
Proof.
  intros Hs r l Hd.
  induction Hd as [r|r nr x l Hnr Hx Hd IH]; intros p n Hn.
  - rewrite hits_nil. destruct (bool_decide _); lia.
  - pose proof (hits_cons x.2 l (child n) (shape_nodup h Hs p n Hn)) as Hc.
    specialize (IH p n Hn).
    pose proof (hits_nonneg l (child n)) as H0.
    destruct (decide (p = r)) as [->|Hne].
    + rewrite bool_decide_eq_true_2 by (by left).
      rewrite bool_decide_eq_false_2 in IH.
      * destruct (bool_decide (x.2 ∈ (child n).*2)); lia.
      * intros Hin.
        destruct (shape_child h Hs r nr x Hnr Hx) as (Hlt & _).
        apply elem_of_cons in Hin as [E|Hin]; [lia|].
        pose proof (descends_gt h Hs _ _ Hd r Hin). lia.
    + rewrite bool_decide_eq_false_2 in Hc.
      * assert (Hle : (if bool_decide (p ∈ x.2 :: l) then 1 else 0)
                      <= (if bool_decide (p ∈ r :: x.2 :: l) then 1 else 0)).
        { repeat case_bool_decide; try lia.
          exfalso. match goal with H : ¬ _ |- _ => apply H end. by right. }
        lia.
      * intros Hin. apply list_elem_of_fmap in Hin as (y & Ey & Hy).
        destruct (shape_child h Hs p n y Hn Hy) as (_ & _ & _ & m & Hm & Hp).
        destruct (shape_child h Hs r nr x Hnr Hx) as (_ & _ & _ & m' & Hm' & Hp').
        rewrite Ey, Hm in Hm'. inversion Hm'; subst m'. congruence.
Qed.

Lemma children_total_shift (h h' : heap) (path : list ptr)
    (cs : list (Z * ptr)) :
  (forall q, total_at h' q
             = total_at h q + (if bool_decide (q ∈ path) then 1 else 0)) ->
  foldr (fun (x : Z * ptr) acc => total_at h' x.2 + acc) 0 cs
  = foldr (fun (x : Z * ptr) acc => total_at h x.2 + acc) 0 cs
    + hits path cs.
Proof.
  intros H. induction cs as [|x cs IH]; cbn; [done|].
  fold (hits path cs). rewrite IH, H. lia.
Qed.

Lemma back_propagate_inv (winner : piece_type) (k : Z) (h : heap)
    (l : list ptr) :
  tree_inv k h ->
  descends h 0%nat l ->
  k < CInt.INT_MAX ->
  exists h', back_propagate (0%nat :: l) winner h = Some h'
             /\ tree_inv (k + 1) h' /\ same_shape h h'.
Proof.
  intros Hinv Hd Hk. pose proof (counts_nonneg k h Hinv) as Hk0.
  destruct Hinv as [Hs Hc].
  pose proof (descends_NoDup h Hs _ _ Hd) as Hnd.
  destruct (shape_root h Hs) as (r & Hr & Hrp).
  assert (Hvalid : forall p, p ∈ 0%nat :: l -> is_Some (h !! p)).
  { eapply descends_valid; [done..|by eexists]. }
  assert (Hrange : forall p n, h !! p = Some n ->
                     CInt.INT_MIN <= total_cnt n < CInt.INT_MAX
                     /\ CInt.INT_MIN < win_cnt n < CInt.INT_MAX).
  { intros p n Hn. pose proof (counts_bound k h Hc p n Hn).
    pose proof (counts_win k h Hc p n Hn).
    rewrite INT_MIN_val. rewrite INT_MAX_val in *. lia. }
  destruct (back_propagate_effect winner (0%nat :: l) h Hnd)
    as (h' & E & Hlen & Hin & Hout).
  { intros p Hp. destruct (Hvalid p Hp) as [n Hn]. exists n.
    split; [done|]. by apply (Hrange p). }
  exists h'. split; [exact E|].
  assert (Hchar : forall p n, h !! p = Some n ->
            exists n', h' !! p = Some n'
              /\ position n' = position n /\ place_pos n' = place_pos n
              /\ child n' = child n /\ parent n' = parent n
              /\ total_cnt n'
                 = total_cnt n
                   + (if bool_decide (p ∈ 0%nat :: l) then 1 else 0)
              /\ - total_cnt n' <= win_cnt n' <= total_cnt n').
  { intros p n Hn. destruct (Hrange p n Hn) as [Ht Hw].
    pose proof (counts_win k h Hc p n Hn) as Hwin.
    case_bool_decide as Hp.
    - specialize (Hin p n Hp Hn). rewrite (visit_in winner n Ht Hw) in Hin.
      eexists. split; [symmetry; exact Hin|]. cbn.
      repeat split; try done; destruct (negb _); lia.
    - exists n. rewrite (Hout p Hp). repeat split; try done; lia. }
  assert (Hss : same_shape h h').
  { split; [done|]. intros p n Hn.
    destruct (Hchar p n Hn) as (n' & ? & ? & ? & ? & ? & _). by exists n'. }
  assert (Htot : forall q, total_at h' q
                 = total_at h q
                   + (if bool_decide (q ∈ 0%nat :: l) then 1 else 0)).
  { intros q. unfold total_at. destruct (h !! q) as [n|] eqn:Hn.
    - destruct (Hchar q n Hn) as (n' & Hn' & _ & _ & _ & _ & Ht & _).
      rewrite Hn'. done.
    - rewrite bool_decide_eq_false_2.
      + rewrite (lookup_ge_None_2 h' q); [cbn; lia|].
        apply lookup_ge_None_1 in Hn. lia.
      + intros Hq. destruct (Hvalid q Hq). congruence. }
  split; [|exact Hss]. split; [by eapply same_shape_ok|]. constructor.
  - rewrite Htot. rewrite bool_decide_eq_true_2 by (by left).
    rewrite (counts_root k h Hc). done.
  - intros p n' Hn'.
    destruct (same_shape_back h h' p n' Hss Hn') as (n & Hn & _ & _ & Hcn & _).
    destruct (Hchar p n Hn) as (n2 & Hn2 & _ & _ & _ & _ & Ht & _).
    rewrite Hn' in Hn2. inversion Hn2; subst n2.
    unfold children_total. rewrite Hcn.
    rewrite (children_total_shift h h' (0%nat :: l)) by done.
    pose proof (counts_sum k h Hc p n Hn) as Hsum.
    unfold children_total in Hsum.
    assert (Hh : hits (0%nat :: l) (child n) = hits l (child n)).
    { pose proof (hits_cons 0%nat l (child n) (shape_nodup h Hs p n Hn)).
      assert (Hle : hits l (child n) <= hits (0%nat :: l) (child n)).
      { clear. induction (child n) as [|x cs IH]; cbn; [lia|].
        fold (hits l cs). fold (hits (0%nat :: l) cs).
        repeat case_bool_decide; try lia.
        exfalso. match goal with H : ¬ _ |- _ => apply H end. by right. }
      rewrite bool_decide_eq_false_2 in H; [lia|].
      intros Hin0. apply list_elem_of_fmap in Hin0 as (y & Ey & Hy).
      destruct (shape_child h Hs p n y Hn Hy) as (Hlt & _). lia. }
    pose proof (hits_chain h Hs _ _ Hd p n Hn). lia.
  - intros p n' Hn'.
    destruct (same_shape_back h h' p n' Hss Hn') as (n & Hn & _).
    destruct (Hchar p n Hn) as (n2 & Hn2 & _ & _ & _ & _ & _ & Hw).
    rewrite Hn' in Hn2. by inversion Hn2; subst n2.
  - intros p n' Hn'.
    destruct (same_shape_back h h' p n' Hss Hn') as (n & Hn & _).
    destruct (Hchar p n Hn) as (n2 & Hn2 & _ & _ & _ & _ & Ht & _).
    rewrite Hn' in Hn2. inversion Hn2; subst n2.
    pose proof (counts_bound k h Hc p n Hn).
    destruct (bool_decide _); lia.
Qed.

(** *** One cycle, and any number of them *)

Lemma simulate_winner_total (h : heap) (this : ptr) (g : engine) (n : node) :
  h !! this = Some n ->
  exists w, simulate_winner h this g = Some (w, (all_space g).2).
Proof.
  intros Hn. pose proof (length_all_space g) as Hlen.
  destruct (rollout_total (rollout_fuel 81) (position n) (all_space g).1 [] 0)
    as (b' & q' & steps & E & _).
  { rewrite app_nil_r, Hlen, INT_MAX_val. lia. }
  { rewrite app_nil_r, Hlen. unfold rollout_fuel. lia. }
  rewrite app_nil_r in E. change (Z.of_nat (@length Z [])) with 0 in E.
  unfold simulate_winner. rewrite Hn. cbn.
  destruct (all_space g) as [vec g'] eqn:Ea. cbn [fst snd] in *.
  rewrite Hlen, E. cbn. by eexists.
Qed.

Lemma last_cons_is_Some {A : Type} (x : A) (l : list A) :
  exists y, last (x :: l) = Some y /\ y ∈ x :: l.
Proof.
  revert x. induction l as [|z l IH]; intros x.
  - exists x. split; [done|by left].
  - destruct (IH z) as (y & E & Hy). exists y.
    rewrite last_cons_cons. split; [done|by right].
Qed.

Lemma fresh_inv (state : board) : tree_inv 0 [new_node state (-1)].
Proof.
  split; constructor.
  - by eexists.
  - intros [|p] n x Hn Hx; [|done]. inversion Hn; subst n.
    by apply elem_of_nil in Hx.
  - intros [|p] n Hn; [|done]. inversion Hn; subst n. constructor.
  - done.
  - intros [|p] n Hn; [|done]. inversion Hn; subst n. done.
  - intros [|p] n Hn; [|done]. inversion Hn; subst n. done.
  - intros [|p] n Hn; [|done]. inversion Hn; subst n. done.
Qed.

Lemma same_shape_root_board (h1 h2 : heap) :
  same_shape h1 h2 -> root_board h2 = root_board h1.
Proof.
  intros [Hlen Hfw]. unfold root_board.
  destruct (h1 !! 0%nat) as [r|] eqn:Hr.
  - destruct (Hfw _ _ Hr) as (r' & -> & Hp & _). cbn. by rewrite Hp.
  - rewrite (lookup_ge_None_2 h2 0%nat); [done|].
    apply lookup_ge_None_1 in Hr. lia.
Qed.

Lemma expanded_root_board (h : heap) (leaf : ptr) (n : node) (pos : Z) :
  h !! leaf = Some n ->
  root_board (expanded h leaf n pos) = root_board h.
Proof.
  intros Hn. unfold root_board.
  destruct (decide (leaf = 0%nat)) as [->|Hne].
  - rewrite Hn.
    assert (expanded h 0%nat n pos !! 0%nat
            = Some (Node (position n) (win_cnt n) (total_cnt n) (place_pos n)
                         (umap_insert pos (length h) (child n)) (parent n)))
      as ->; [|done].
    apply expanded_lookup; [done|]. by left.
  - destruct (h !! 0%nat) as [r|] eqn:Hr.
    + assert (expanded h leaf n pos !! 0%nat = Some r) as ->; [|done].
      apply expanded_lookup; [done|]. right. right. done.
    + apply lookup_ge_None_1 in Hr. apply lookup_lt_Some in Hn. lia.
Qed.

Local Arguments back_propagate : simpl never.
Local Arguments simulate_winner : simpl never.
Local Arguments expand_from_leaf : simpl never.

Lemma cycle_inv (k : Z) (c : R) (h : heap) (g : engine) :
  tree_inv k h -> (0 <= c)%R -> k < CInt.INT_MAX ->
  exists h' g', cycle c 0%nat (h, g) = Some (h', g')
                /\ tree_inv (k + 1) h'
                /\ root_board h' = root_board h.
Proof.
  intros Hinv Hc Hk. pose proof Hinv as [Hs Hcnt].
  destruct (shape_root h Hs) as (r & Hr & _).
  destruct (select_loop_total h k c Hinv Hc (length h) 0%nat [0%nat])
    as (l & Esel & Hd); [by eexists|lia|].
  destruct (last_cons_is_Some 0%nat l) as (leaf & Elast & Hleaf).
  destruct (descends_valid h Hs _ _ Hd (ltac:(by eexists)) leaf Hleaf)
    as [n Hn].
  unfold cycle, select_root_to_leaf. cbn [fst snd].
  rewrite Esel. cbn [app mbind option_bind]. rewrite Elast. cbn.
  destruct (expand_from_leaf_cases h leaf n g Hn)
    as [Ee|(pos & Hcell & Hfresh & Hlegal & Ee)]; rewrite Ee; cbn.
  - rewrite Nat.eqb_refl, Elast. cbn.
    destruct (simulate_winner_total h leaf (all_space g).2 n Hn) as [w Ew].
    rewrite Ew. cbn.
    destruct (back_propagate_inv w k h l Hinv Hd Hk) as (h' & Eb & Hi & Hss).
    rewrite Eb. cbn. eexists _, _. split; [done|]. split; [done|].
    by apply same_shape_root_board.
  - pose proof (lookup_lt_Some _ _ _ Hn) as Hlt.
    destruct (Nat.eqb_spec (length h) leaf) as [E|_]; [lia|].
    set (h1 := expanded h leaf n pos).
    assert (Hnew : h1 !! length h
                   = Some (Node (place (position n) pos).1 0 0 pos []
                                (Some leaf))).
    { apply expanded_lookup; [done|]. right. by left. }
    assert (Hlast' : last (0%nat :: l ++ [length h]) = Some (length h)).
    { change (0%nat :: l ++ [length h]) with ((0%nat :: l) ++ [length h]).
      apply last_snoc. }
    rewrite Hlast'. cbn.
    destruct (simulate_winner_total h1 (length h) (all_space g).2 _ Hnew)
      as [w Ew].
    rewrite Ew. cbn.
    pose proof (expanded_inv k h leaf n pos Hinv Hn Hcell Hfresh Hlegal) as Hinv1.
    assert (Hd1 : descends h1 0%nat (l ++ [length h])).
    { pose proof (umap_insert_perm pos (length h) (child n) Hfresh) as Hperm.
      assert (Hleaf1 : h1 !! leaf
                = Some (Node (position n) (win_cnt n) (total_cnt n)
                             (place_pos n)
                             (umap_insert pos (length h) (child n))
                             (parent n))).
      { apply expanded_lookup; [done|]. by left. }
      apply (descends_snoc h1 0%nat l) with (leaf := leaf)
        (n := Node (position n) (win_cnt n) (total_cnt n) (place_pos n)
                   (umap_insert pos (length h) (child n)) (parent n))
        (x := (pos, length h)); [|done|done|].
      - apply (descends_mono h); [|done].
        intros p m x Hm Hx. destruct (decide (p = leaf)) as [->|Hne].
        + eexists. split; [exact Hleaf1|]. cbn. rewrite Hperm.
          rewrite Hn in Hm. inversion Hm; subst m. by right.
        + exists m. split; [|done].
          apply expanded_lookup; [done|]. right. right. done.
      - cbn. rewrite Hperm. by left. }
    destruct (back_propagate_inv w k h1 _ Hinv1 Hd1 Hk) as (h' & Eb & Hi & Hss).
    change ((0%nat :: l) ++ [length h]) with (0%nat :: (l ++ [length h])).
    rewrite Eb. cbn. eexists _, _. split; [done|]. split; [done|].
    rewrite (same_shape_root_board h1 h' Hss).
    by apply expanded_root_board.
Qed.

Lemma cycles_inv (c : R) :
  (0 <= c)%R ->
  forall (n : nat) (k : Z) (h : heap) (g : engine),
  tree_inv k h -> k + Z.of_nat n <= CInt.INT_MAX ->
  exists h' g', cycles n c 0%nat (h, g) = Some (h', g')
                /\ tree_inv (k + Z.of_nat n) h'
                /\ root_board h' = root_board h.
Proof.
  intros Hc. induction n as [|n IH]; intros k h g Hinv Hk.
  - exists h, g. cbn. rewrite Z.add_0_r. done.
  - cbn [cycles].
    destruct (cycle_inv k c h g Hinv Hc) as (h1 & g1 & E1 & Hinv1 & Hb1);
      [lia|].
    rewrite E1. cbn.
    destruct (IH (k + 1) h1 g1 Hinv1) as (h' & g' & E & Hinv' & Hb'); [lia|].
    exists h', g'. split; [done|].
    replace (k + Z.of_nat (S n)) with (k + 1 + Z.of_nat n) by lia.
    split; [done|congruence].
Qed.

(** C5 — after any number [n] of cycles from a fresh root (a non-negative
    exploration constant, [n] within [int]), every node of the tree has a
    [total_cnt] at least the sum of the [total_cnt] of its children, and
    the [total_cnt] of the root is exactly [n]. *)
Theorem visit_conservation (state : board) (c : R) (g : engine) (n : nat) :
  (0 <= c)%R ->
  Z.of_nat n <= CInt.INT_MAX ->
  exists h' g' root,
    cycles n c 0%nat ([new_node state (-1)], g) = Some (h', g')
    /\ (forall p m, h' !! p = Some m -> children_total h' m <= total_cnt m)
    /\ h' !! 0%nat = Some root
    /\ total_cnt root = Z.of_nat n.
Proof.
  intros Hc Hn.
  destruct (cycles_inv c Hc n 0 [new_node state (-1)] g (fresh_inv state))
    as (h' & g' & E & [Hs Hcnt] & _); [lia|].
  destruct (shape_root h' Hs) as (r & Hr & _).
  exists h', g', r. split; [done|].
  split; [apply (counts_sum _ _ Hcnt)|]. split; [done|].
  pose proof (counts_root _ _ Hcnt) as Ht. unfold total_at in Ht.
  rewrite Hr in Ht. cbn in Ht. lia.
Qed.

(** *** [select_action] and [MCTS] *)

Lemma most_visited_spec (h : heap) :
  forall cs mv c0,
  (forall x, x ∈ cs -> is_Some (h !! x.2)) ->
  exists mv' c',
    most_visited h cs mv c0 = Some (mv', c')
    /\ mv <= mv'
    /\ (forall x, x ∈ cs -> total_at h x.2 <= mv')
    /\ ((c' = c0 /\ mv' = mv) \/ exists x, x ∈ cs /\ c' = Some x.2).
Proof.
  induction cs as [|x cs IH]; intros mv c0 Hall.
  - exists mv, c0. cbn. split; [done|]. split; [lia|]. split; [|by left].
    intros x Hx. by apply elem_of_nil in Hx.
  - cbn [most_visited]. destruct (Hall x) as [n Hn]; [by left|].
    rewrite Hn. cbn.
    assert (Hall' : forall y, y ∈ cs -> is_Some (h !! y.2))
      by (intros y Hy; apply Hall; by right).
    assert (Ht : total_at h x.2 = total_cnt n)
      by (unfold total_at; by rewrite Hn).
    destruct (Z.ltb_spec mv (total_cnt n)).
    + destruct (IH (total_cnt n) (Some x.2) Hall')
        as (mv' & c' & E & Hle & Hmax & Hc).
      exists mv', c'. split; [done|]. split; [lia|]. split.
      * intros y Hy. apply elem_of_cons in Hy as [->|Hy]; [lia|by apply Hmax].
      * right. destruct Hc as [[-> _]|(y & Hy & ->)].
        -- exists x. split; [by left|done].
        -- exists y. split; [by right|done].
    + destruct (IH mv c0 Hall') as (mv' & c' & E & Hle & Hmax & Hc).
      exists mv', c'. split; [done|]. split; [lia|]. split.
      * intros y Hy. apply elem_of_cons in Hy as [->|Hy]; [lia|by apply Hmax].
      * destruct Hc as [?|(y & Hy & ->)]; [by left|].
        right. exists y. split; [by right|done].
Qed.

Lemma select_action_total (k : Z) (h : heap) :
  tree_inv k h -> is_Some (select_action h 0%nat).
Proof.
  intros [Hs Hc]. destruct (shape_root h Hs) as (r & Hr & _).
  unfold select_action. rewrite Hr. cbn.
  destruct (Nat.eqb_spec (length (child r)) 0); [by eexists|].
  assert (Hall : forall x, x ∈ child r -> is_Some (h !! x.2)).
  { intros x Hx.
    destruct (shape_child h Hs _ _ x Hr Hx) as (_ & _ & _ & m & Hm & _).
    by eexists. }
  destruct (most_visited_spec h (child r) (- CInt.INT_MAX) None Hall)
    as (mv & c' & E & _ & Hmax & Hc').
  rewrite E. cbn.
  destruct Hc' as [[-> ->]|(x & Hx & ->)].
  - exfalso. destruct (child r) as [|x cs] eqn:Ec; [done|].
    assert (Hx : x ∈ x :: cs) by (by left).
    specialize (Hmax x Hx).
    destruct (Hall x Hx) as [m Hm].
    pose proof (counts_bound k h Hc _ _ Hm).
    unfold total_at in Hmax. rewrite Hm in Hmax. cbn in Hmax.
    rewrite INT_MAX_val in Hmax. lia.
  - cbn. destruct (Hall x Hx) as [m Hm]. rewrite Hm. by eexists.
Qed.

Lemma MCTS_inv (k : Z) (c : R) (h : heap) (g : engine) (N : Z) :
  (0 <= c)%R ->
  tree_inv k h -> k + Z.max 0 N <= CInt.INT_MAX ->
  exists a h' g', MCTS h 0%nat N g c = Some (a, h', g')
                  /\ tree_inv (k + Z.max 0 N) h'
                  /\ root_board h' = root_board h.
Proof.
  intros Hc Hinv Hk.
  assert (HN : Z.of_nat (Z.to_nat N) = Z.max 0 N) by lia.
  destruct (cycles_inv c Hc (Z.to_nat N) k h g Hinv)
    as (h' & g' & E & Hinv' & Hb); [lia|].
  rewrite HN in Hinv'.
  destruct (select_action_total _ h' Hinv') as [a Ea].
  unfold MCTS. rewrite E. cbn. rewrite Ea. cbn. by exists a, h', g'.
Qed.

(** *** The parallel regions *)

(** A region whose body, run by thread [id], touches only [root_vec[id]],
    [average_selection[id]] and the engine, and takes them from [I] to
    [J], takes every worker from [I] to [J]. *)
Lemma omp_parallel_each (I J : heap -> list Z -> Prop)
    (body : nat -> workers -> option workers) :
  (forall id ws h row,
     root_vec ws !! id = Some h -> average_selection ws !! id = Some row ->
     I h row ->
     exists h' row' g',
       body id ws
       = Some (Workers (<[id := h']> (root_vec ws))
                       (<[id := row']> (average_selection ws)) g')
       /\ J h' row') ->
  forall (len s : nat) (ws : workers),
  length (root_vec ws) = (s + len)%nat ->
  length (average_selection ws) = (s + len)%nat ->
  (forall id h row,
     root_vec ws !! id = Some h -> average_selection ws !! id = Some row ->
     if decide (id < s)%nat then J h row else I h row) ->
  exists ws',
    foldM (fun ws id => body id ws) ws (seq s len) = Some ws'
    /\ length (root_vec ws') = (s + len)%nat
    /\ length (average_selection ws') = (s + len)%nat
    /\ (forall id h row,
          root_vec ws' !! id = Some h ->
          average_selection ws' !! id = Some row -> J h row).
Proof.
  intros Hbody. induction len as [|len IH]; intros s ws Ht Hr Hall.
  - exists ws. cbn. split; [done|]. split; [done|]. split; [done|].
    intros id h row Hh Hrow. specialize (Hall id h row Hh Hrow).
    destruct (decide (id < s)%nat); [done|].
    apply lookup_lt_Some in Hh. lia.
  - cbn [seq foldM].
    destruct (lookup_lt_is_Some_2 (root_vec ws) s) as [h Hh]; [lia|].
    destruct (lookup_lt_is_Some_2 (average_selection ws) s) as [row Hrow];
      [lia|].
    pose proof (Hall s h row Hh Hrow) as HI.
    destruct (decide (s < s)%nat); [lia|].
    destruct (Hbody s ws h row Hh Hrow HI) as (h' & row' & g' & E & HJ).
    rewrite E. cbn.
    destruct (IH (S s) (Workers (<[s := h']> (root_vec ws))
                                (<[s := row']> (average_selection ws)) g'))
      as (ws' & E' & Ht' & Hr' & Hall').
    { cbn. rewrite length_insert. lia. }
    { cbn. rewrite length_insert. lia. }
    { cbn. intros id h0 row0 Hh0 Hrow0.
      destruct (decide (id = s)) as [->|Hne].
      - rewrite list_lookup_insert_eq in Hh0
          by (by eapply lookup_lt_Some).
        rewrite list_lookup_insert_eq in Hrow0
          by (by eapply lookup_lt_Some).
        inversion Hh0; inversion Hrow0; subst.
        destruct (decide (s < S s)%nat); [done|lia].
      - rewrite list_lookup_insert_ne in Hh0 by done.
        rewrite list_lookup_insert_ne in Hrow0 by done.
        specialize (Hall id h0 row0 Hh0 Hrow0).
        destruct (decide (id < s)%nat), (decide (id < S s)%nat);
          try done; lia. }
    exists ws'. split; [done|]. split; [lia|]. split; [lia|done].
Qed.

(** *** The bodies of the two parallel regions *)

Local Arguments MCTS : simpl never.

Lemma run_MCTS_step (state : board) (k B n : Z) (c : R) :
  (0 <= c)%R -> k + Z.max 0 n <= CInt.INT_MAX ->
  forall id ws h row,
  root_vec ws !! id = Some h -> average_selection ws !! id = Some row ->
  (tree_inv k h /\ root_board h = Some state) /\ row_ok state B row ->
  exists h' row' g',
    run_MCTS n c id ws
    = Some (Workers (<[id := h']> (root_vec ws))
                    (<[id := row']> (average_selection ws)) g')
    /\ (tree_inv (k + Z.max 0 n) h' /\ root_board h' = Some state)
       /\ row_ok state B row'.
Proof.
  intros Hc Hk id ws h row Hh Hrow [[Hinv Hb] Hok].
  destruct (MCTS_inv k c h (rng ws) n Hc Hinv Hk)
    as (a & h' & g' & E & Hinv' & Hb').
  exists h', row, g'. unfold run_MCTS. rewrite Hh. cbn. rewrite E. cbn.
  rewrite (list_insert_id _ _ _ Hrow).
  split; [done|]. split; [|done]. split; [done|congruence].
Qed.

Lemma cells_spec (k : Z) : k ∈ cells <-> 0 <= k < 81.
Proof. unfold cells. rewrite elem_of_seqZ. lia. Qed.

Lemma vector_set_row (state : board) (B : Z) (row : list Z) (k v : Z) :
  row_ok state B row -> k ∈ cells -> legal state k = true -> 0 <= v <= B ->
  exists row', vector_set row k v = Some row' /\ row_ok state B row'.
Proof.
  intros [Hlen Hrow] Hk Hl Hv. apply cells_spec in Hk.
  unfold vector_set. rewrite Hlen.
  destruct (Z.leb_spec 0 k); [|lia].
  destruct (Z.ltb_spec k (Z.of_nat 81)); [|lia]. cbn.
  eexists. split; [done|]. split; [by rewrite length_insert|].
  intros j e Hj.
  destruct (decide (j = Z.to_nat k)) as [->|Hne].
  - rewrite list_lookup_insert_eq in Hj by lia. inversion Hj; subst e.
    split; [done|]. intros _. by rewrite Z2Nat.id by lia.
  - rewrite list_lookup_insert_ne in Hj by done. by apply Hrow.
Qed.

Lemma record_children_fold (state : board) (B : Z) (h : heap) :
  forall (cs : list (Z * ptr)) (row : list Z),
  (forall x, x ∈ cs ->
     x.1 ∈ cells /\ legal state x.1 = true
     /\ exists m, h !! x.2 = Some m /\ 0 <= total_cnt m <= B) ->
  row_ok state B row ->
  exists row',
    foldM (fun (row : list Z) (all_child : Z * ptr) =>
             n ← h !! all_child.2;
             vector_set row all_child.1 (total_cnt n)) row cs
    = Some row'
    /\ row_ok state B row'.
Proof.
  induction cs as [|x cs IH]; intros row Hall Hrow.
  { exists row. cbn. done. }
  cbn [foldM]. destruct (Hall x) as (Hk & Hl & m & Hm & Ht); [by left|].
  rewrite Hm. cbn.
  destruct (vector_set_row state B row x.1 (total_cnt m) Hrow Hk Hl Ht)
    as (row1 & E1 & Hrow1).
  rewrite E1. cbn. apply IH; [|done]. intros y Hy. apply Hall. by right.
Qed.

Lemma record_children_step (state : board) (k B : Z) :
  k <= B ->
  forall id ws h row,
  root_vec ws !! id = Some h -> average_selection ws !! id = Some row ->
  (tree_inv k h /\ root_board h = Some state) /\ row_ok state B row ->
  exists row',
    record_children id ws
    = Some (Workers (root_vec ws) (<[id := row']> (average_selection ws))
                    (rng ws))
    /\ row_ok state B row'.
Proof.
  intros HkB id ws h row Hh Hrow [[[Hs Hc] Hb] Hok].
  destruct (shape_root h Hs) as (r & Hr & _).
  unfold root_board in Hb. rewrite Hr in Hb. cbn in Hb.
  injection Hb as Hpos.
  destruct (record_children_fold state B h (child r) row) as (row' & E & Hok').
  { intros x Hx.
    destruct (shape_child h Hs _ _ x Hr Hx) as (_ & Hk & Hl & m & Hm & _).
    split; [done|]. split; [by rewrite <- Hpos|].
    exists m. split; [done|]. pose proof (counts_bound k h Hc _ _ Hm). lia. }
  { done. }
  exists row'. unfold record_children. rewrite Hh. cbn. rewrite Hr. cbn.
  rewrite Hrow. cbn. rewrite E. cbn. by split.
Qed.

Lemma checkpoint_body_step (state : board) (k B n : Z) (c : R) :
  (0 <= c)%R -> k + Z.max 0 n <= B -> B <= CInt.INT_MAX ->
  forall id ws h row,
  root_vec ws !! id = Some h -> average_selection ws !! id = Some row ->
  (tree_inv k h /\ root_board h = Some state) /\ row_ok state B row ->
  exists h' row' g',
    (ws1 ← run_MCTS n c id ws; record_children id ws1)
    = Some (Workers (<[id := h']> (root_vec ws))
                    (<[id := row']> (average_selection ws)) g')
    /\ (tree_inv (k + Z.max 0 n) h' /\ root_board h' = Some state)
       /\ row_ok state B row'.
Proof.
  intros Hc Hk HB id ws h row Hh Hrow HI.
  destruct (run_MCTS_step state k B n c Hc (ltac:(lia)) id ws h row Hh Hrow HI)
    as (h' & row1 & g' & E & Hinv' & Hrow1).
  rewrite E. cbn.
  pose proof (lookup_lt_Some _ _ _ Hh) as Hlt1.
  pose proof (lookup_lt_Some _ _ _ Hrow) as Hlt2.
  destruct (record_children_step state (k + Z.max 0 n) B Hk id
              (Workers (<[id := h']> (root_vec ws))
                       (<[id := row1]> (average_selection ws)) g')
              h' row1) as (row' & E' & Hrow').
  { cbn. by rewrite list_lookup_insert_eq. }
  { cbn. by rewrite list_lookup_insert_eq. }
  { done. }
  exists h', row', g'. rewrite E'. cbn.
  rewrite list_insert_insert_eq. done.
Qed.

(** *** Aggregation and the final choice *)

Lemma column_sum (state : board) (B : Z) (j : nat) :
  0 <= B ->
  forall (rows : list (list Z)) (acc : Z),
  (forall row, row ∈ rows -> row_ok state B row) ->
  (j < 81)%nat -> 0 <= acc ->
  acc + Z.of_nat (length rows) * B <= CInt.INT_MAX ->
  exists s,
    foldM (fun acc (row : list Z) => x ← row !! j; CInt.add acc x) acc rows
    = Some s
    /\ acc <= s <= acc + Z.of_nat (length rows) * B
    /\ (s <> acc -> legal state (Z.of_nat j) = true)
    /\ ((forall row e, row ∈ rows -> row !! j = Some e -> e = 0) -> s = acc).
Proof.
  intros HB. induction rows as [|row rows IH]; intros acc Hall Hj Hacc Hmax.
  - exists acc. cbn. split; [done|]. split; [lia|]. done.
  - cbn [foldM]. destruct (Hall row) as [Hlen Hrow]; [by left|].
    destruct (lookup_lt_is_Some_2 row j) as [e He]; [lia|].
    destruct (Hrow j e He) as [Hrange Hlegal].
    rewrite He. cbn. cbn [length] in Hmax.
    unfold CInt.add. rewrite checked_in by (rewrite INT_MIN_val; nia). cbn.
    destruct (IH (acc + e)) as (s & E & Hs & Hl & Hz).
    { intros r Hr. apply Hall. by right. }
    { done. } { lia. } { nia. }
    exists s. split; [done|]. split; [cbn [length]; nia|]. split.
    + intros Hne. destruct (decide (e = 0)) as [->|He0]; [|by apply Hlegal].
      apply Hl. lia.
    + intros Hzero. rewrite Hz.
      * rewrite (Hzero row e); [lia|by left|done].
      * intros r e' Hr. apply Hzero. by right.
Qed.

Lemma aggregate_total (state : board) (B : Z) (rows : list (list Z)) :
  0 <= B ->
  (forall row, row ∈ rows -> row_ok state B row) ->
  Z.of_nat (length rows) * B <= CInt.INT_MAX ->
  exists result,
    aggregate rows = Some result
    /\ length result = 81%nat
    /\ forall j s, result !! j = Some s ->
         0 <= s <= Z.of_nat (length rows) * B
         /\ (s <> 0 -> legal state (Z.of_nat j) = true)
         /\ ((forall row e, row ∈ rows -> row !! j = Some e -> e = 0) ->
             s = 0).
Proof.
  intros HB Hall Hmax. unfold aggregate.
  set (f := fun j : nat => foldM _ 0 rows).
  assert (Hf : forall j, (j < 81)%nat ->
            exists s, f j = Some s
              /\ 0 <= s <= Z.of_nat (length rows) * B
              /\ (s <> 0 -> legal state (Z.of_nat j) = true)
              /\ ((forall row e, row ∈ rows -> row !! j = Some e -> e = 0) ->
                  s = 0)).
  { intros j Hj.
    destruct (column_sum state B j HB rows 0 Hall Hj) as (s & E & Hs); [lia..|].
    exists s. split; [exact E|]. rewrite Z.add_0_l in Hs. done. }
  destruct (mapM_is_Some_2 f (seq 0 81)) as [result E].
  { apply Forall_forall. intros j Hj. apply elem_of_seq in Hj.
    destruct (Hf j) as (s & Es & _); [lia|]. cbn. by rewrite Es. }
  exists result. split; [exact E|].
  apply mapM_Some_1 in E.
  split; [by rewrite <- (Forall2_length _ _ _ E), length_seq|].
  intros j s Hs.
  destruct (Forall2_lookup_r _ _ _ _ _ E Hs) as (j' & Hj' & Ej).
  apply lookup_seq in Hj' as [-> Hlt]. cbn in Ej.
  destruct (Hf j Hlt) as (s' & Es' & H1 & H2 & H3).
  rewrite Ej in Es'. inversion Es'; subst s'. done.
Qed.

Lemma max_element_from_spec :
  forall (l : list Z) (i best_i : nat) (best : Z) (pre : list Z),
  length pre = i -> pre !! best_i = Some best ->
  (forall e, e ∈ pre -> e <= best) ->
  let r := max_element_from l i best_i best in
  (pre ++ l) !! r.1 = Some r.2 /\ (forall e, e ∈ pre ++ l -> e <= r.2).
Proof.
  induction l as [|x l IH]; intros i best_i best pre Hlen Hbest Hmax; cbn.
  - rewrite app_nil_r. done.
  - destruct (Z.ltb_spec best x).
    + specialize (IH (S i) i x (pre ++ [x])).
      rewrite <- app_assoc in IH. cbn in IH. apply IH.
      * rewrite length_app. cbn. lia.
      * rewrite lookup_app_r by lia. by rewrite Hlen, Nat.sub_diag.
      * intros e He. apply elem_of_app in He as [He|He].
        -- specialize (Hmax e He). lia.
        -- apply list_elem_of_singleton in He. lia.
    + specialize (IH (S i) best_i best (pre ++ [x])).
      rewrite <- app_assoc in IH. cbn in IH. apply IH.
      * rewrite length_app. cbn. lia.
      * by apply lookup_app_l_Some.
      * intros e He. apply elem_of_app in He as [He|He].
        -- by apply Hmax.
        -- apply list_elem_of_singleton in He. lia.
Qed.

Lemma max_element_spec (l : list Z) :
  l <> [] ->
  exists i m, max_element l = Some (i, m)
              /\ l !! i = Some m /\ (forall e, e ∈ l -> e <= m).
Proof.
  destruct l as [|x l]; [done|]. intros _. cbn [max_element].
  pose proof (max_element_from_spec l 1 0 x [x] eq_refl eq_refl) as H.
  cbn zeta in H. destruct (max_element_from l 1 0 x) as [i m].
  exists i, m. split; [done|]. apply H.
  intros e He. apply list_elem_of_singleton in He. lia.
Qed.


(** *** The early-exit test *)







(** *** The checkpoint loop and the search as a whole *)

Local Arguments aggregate : simpl never.
Local Arguments early_exit : simpl never.
Local Arguments omp_parallel : simpl never.
Local Arguments max_element : simpl never.
Local Arguments run_MCTS : simpl never.
Local Arguments record_children : simpl never.

Lemma remaining_budget_total (N W i split : Z) :
  0 <= N -> 0 <= W -> N * W <= CInt.INT_MAX ->
  1 <= split -> 0 <= i <= split -> split * N <= CInt.INT_MAX ->
  remaining_budget N W i split
  = Some (N * W - Z.quot (i * N) split * W)
  /\ 0 <= N * W - Z.quot (i * N) split * W <= N * W.
Proof.
  intros HN HW HNW Hs Hi HsN.
  assert (Hq : 0 <= Z.quot (i * N) split <= N).
  { rewrite Z.quot_div_nonneg by nia. split.
    - apply Z.div_pos; nia.
    - apply Z.div_le_upper_bound; nia. }
  assert (HNmax : N <= CInt.INT_MAX) by nia.
  split; [|nia].
  unfold remaining_budget, CInt.mul, CInt.div, CInt.sub.
  rewrite (checked_in (N * W)) by (rewrite INT_MIN_val; nia). cbn.
  rewrite (checked_in (i * N)) by (rewrite INT_MIN_val; nia). cbn.
  destruct (Z.eqb_spec split 0); [lia|].
  rewrite checked_in by (rewrite INT_MIN_val, INT_MAX_val in *; lia). cbn.
  rewrite checked_in by (rewrite INT_MIN_val; nia). cbn.
  apply checked_in. rewrite INT_MIN_val. nia.
Qed.

Lemma early_exit_total (result : list Z) (N W i split : Z) :
  0 <= N -> 0 <= W -> N * W <= CInt.INT_MAX ->
  1 <= split -> 0 <= i <= split -> split * N <= CInt.INT_MAX ->
  is_Some (early_exit result N W i split).
Proof.
  intros. unfold early_exit. destruct (top2 result) as [max1 max2].
  destruct (remaining_budget_total N W i split) as [-> _]; try done.
Qed.

Lemma region_ok (state : board) (thread_num : nat) (k k' B : Z)
    (body : nat -> workers -> option workers) :
  (forall id ws h row,
     root_vec ws !! id = Some h -> average_selection ws !! id = Some row ->
     (tree_inv k h /\ root_board h = Some state) /\ row_ok state B row ->
     exists h' row' g',
       body id ws
       = Some (Workers (<[id := h']> (root_vec ws))
                       (<[id := row']> (average_selection ws)) g')
       /\ (tree_inv k' h' /\ root_board h' = Some state)
          /\ row_ok state B row') ->
  forall ws, workers_ok state thread_num k B ws ->
  exists ws', omp_parallel body thread_num ws = Some ws'
              /\ workers_ok state thread_num k' B ws'.
Proof.
  intros Hbody ws Hok.
  destruct (omp_parallel_each _ _ body Hbody thread_num 0%nat ws)
    as (ws' & E & Ht & Hr & Hall).
  { apply (wo_trees _ _ _ _ _ Hok). }
  { apply (wo_rows _ _ _ _ _ Hok). }
  { intros id h row Hh Hrow. destruct (decide (id < 0)%nat); [lia|].
    split; [by apply (wo_tree _ _ _ _ _ Hok id)|].
    by apply (wo_row _ _ _ _ _ Hok id). }
  exists ws'. split; [exact E|]. constructor; [done|done| |].
  - intros id h Hh.
    destruct (lookup_lt_is_Some_2 (average_selection ws') id) as [row Hrow].
    { apply lookup_lt_Some in Hh. lia. }
    by destruct (Hall id h row Hh Hrow).
  - intros id row Hrow.
    destruct (lookup_lt_is_Some_2 (root_vec ws') id) as [h Hh].
    { apply lookup_lt_Some in Hrow. lia. }
    by destruct (Hall id h row Hh Hrow).
Qed.

Lemma workers_rows_ok (state : board) (thread_num : nat) (k B : Z)
    (ws : workers) :
  workers_ok state thread_num k B ws ->
  forall row, row ∈ average_selection ws -> row_ok state B row.
Proof.
  intros Hok row Hrow. apply list_elem_of_lookup in Hrow as [id Hid].
  by apply (wo_row _ _ _ _ _ Hok id).
Qed.

Lemma checkpoints_ok (state : board) (N : Z) (c : R) (thread_num : nat)
    (split B : Z) :
  (0 <= c)%R -> 0 <= N -> 1 <= split < CInt.INT_MAX ->
  N * Z.of_nat thread_num <= CInt.INT_MAX ->
  split * N <= CInt.INT_MAX ->
  0 <= B <= CInt.INT_MAX ->
  Z.of_nat thread_num * B <= CInt.INT_MAX ->
  forall (todo : nat) (i : Z) (done : nat) (k : Z) (ws : workers),
  workers_ok state thread_num k B ws ->
  1 <= i -> i + Z.of_nat todo <= split + 1 ->
  0 <= k -> k + Z.of_nat todo * Z.quot N split <= B ->
  exists ws' done',
    checkpoints todo i N c thread_num split done ws = Some (ws', done')
    /\ (done <= done' <= done + todo)%nat
    /\ (todo <> O -> done < done')%nat
    /\ workers_ok state thread_num
         (k + Z.of_nat (done' - done) * Z.quot N split) B ws'.
Proof.
  intros Hc HN Hsplit HNW HsN HB HWB.
  assert (Hper : 0 <= Z.quot N split <= N).
  { rewrite Z.quot_div_nonneg by lia. split.
    - apply Z.div_pos; lia.
    - apply Z.div_le_upper_bound; nia. }
  induction todo as [|todo IH]; intros i done k ws Hok Hi Hend Hk HkB.
  - exists ws, done. cbn. split; [done|]. split; [lia|]. split; [done|].
    rewrite Nat.sub_diag. cbn. by rewrite Z.add_0_r.
  - cbn [checkpoints]. unfold CInt.div.
    destruct (Z.eqb_spec split 0); [lia|].
    rewrite checked_in by (rewrite INT_MIN_val, INT_MAX_val in *; lia). cbn.
    destruct (region_ok state thread_num k (k + Z.max 0 (Z.quot N split)) B
                (fun id ws => ws1 ← run_MCTS (Z.quot N split) c id ws;
                              record_children id ws1)) with (ws := ws)
      as (ws1 & E1 & Hok1); [|done|].
    { apply checkpoint_body_step; [done|nia|lia]. }
    rewrite E1. cbn. rewrite Z.max_r in Hok1 by lia.
    destruct (aggregate_total state B (average_selection ws1))
      as (result & Ea & _).
    { lia. }
    { by eapply workers_rows_ok. }
    { rewrite (wo_rows _ _ _ _ _ Hok1). lia. }
    rewrite Ea. cbn.
    destruct (early_exit_total result N (Z.of_nat thread_num) i split)
      as [stop Es]; try lia.
    rewrite Es. cbn. destruct stop.
    + exists ws1, (S done). split; [done|]. split; [lia|]. split; [lia|].
      replace (S done - done)%nat with 1%nat by lia.
      by rewrite Z.mul_1_l.
    + rewrite incr_in by (rewrite INT_MIN_val, INT_MAX_val in *; lia). cbn.
      destruct (IH (i + 1) (S done) (k + Z.quot N split) ws1 Hok1)
        as (ws' & done' & E & Hd & _ & Hok'); [lia|lia|lia|nia|].
      exists ws', done'. split; [done|]. split; [lia|]. split; [lia|].
      replace (k + Z.of_nat (done' - done) * Z.quot N split)
        with (k + Z.quot N split
              + Z.of_nat (done' - S done) * Z.quot N split) by nia.
      done.
Qed.

Lemma initial_workers_ok (state : board) (thread_num : nat) (B : Z)
    (g : engine) :
  0 <= B ->
  workers_ok state thread_num 0 B
    (Workers (replicate thread_num [new_node state (-1)])
             (replicate thread_num (replicate 81 0)) g).
Proof.
  intros HB. constructor; cbn [root_vec average_selection].
  - apply length_replicate.
  - apply length_replicate.
  - intros id h Hh. apply lookup_replicate in Hh as [-> _].
    split; [apply fresh_inv|done].
  - intros id row Hrow. apply lookup_replicate in Hrow as [-> _].
    split; [apply length_replicate|].
    intros j e He. apply lookup_replicate in He as [-> _].
    split; [lia|done].
Qed.

(** The bound on what one worker can run: [N/4] and then at most [split]
    rounds of [N/split]. *)
Lemma budget_bound (N : Z) :
  0 <= N ->
  let split := Z.quot N 1000 in
  0 <= split <= N
  /\ 0 <= Z.quot N 4 <= N
  /\ 0 <= split - Z.quot split 4 <= split
  /\ Z.quot N 4 + (split - Z.quot split 4) * Z.quot N split <= 2 * N.
Proof.
  intros HN split.
  assert (Hs : 0 <= split <= N).
  { unfold split. rewrite Z.quot_div_nonneg by lia.
    split; [apply Z.div_pos; lia|]. apply Z.div_le_upper_bound; lia. }
  assert (H4 : 0 <= Z.quot N 4 <= N).
  { rewrite Z.quot_div_nonneg by lia. split; [apply Z.div_pos; lia|].
    apply Z.div_le_upper_bound; lia. }
  assert (Hs4 : 0 <= Z.quot split 4 <= split).
  { rewrite Z.quot_div_nonneg by lia. split; [apply Z.div_pos; lia|].
    apply Z.div_le_upper_bound; lia. }
  split; [done|]. split; [lia|]. split; [lia|].
  destruct (Z.eq_dec split 0) as [E|E].
  - rewrite E. change (Z.quot 0 4) with 0. lia.
  - assert (Hq : 0 <= Z.quot N split /\ split * Z.quot N split <= N).
    { rewrite Z.quot_div_nonneg by lia. split; [apply Z.div_pos; lia|].
      apply Z.mul_div_le. lia. }
    nia.
Qed.

Lemma search_ok (state : board) (N : Z) (c : R) (thread_num : nat)
    (g : engine) :
  (0 <= c)%R -> 0 <= N -> (1 <= thread_num)%nat ->
  Z.of_nat thread_num * (2 * N) <= CInt.INT_MAX ->
  N * Z.quot N 1000 <= CInt.INT_MAX ->
  exists ws done,
    search state N c thread_num g = Some (ws, done)
    /\ Z.of_nat done <= Z.quot N 1000 - Z.quot (Z.quot N 1000) 4
    /\ (1 <= Z.quot N 1000 -> (1 <= done)%nat)
    /\ workers_ok state thread_num
         (Z.quot N 4 + Z.of_nat done * Z.quot N (Z.quot N 1000)) (2 * N) ws.
Proof.
  intros Hc HN HW HWB HsN.
  pose proof (budget_bound N HN) as (Hs & H4 & Htodo & Hbound).
  cbn zeta in *. set (split := Z.quot N 1000) in *.
  assert (H2N : 2 * N <= CInt.INT_MAX) by nia.
  unfold search. fold split.
  destruct (region_ok state thread_num 0 (0 + Z.max 0 (Z.quot N 4)) (2 * N)
              (run_MCTS (Z.quot N 4) c))
    with (ws := Workers (replicate thread_num [new_node state (-1)])
                        (replicate thread_num (replicate 81 0)) g)
    as (ws1 & E1 & Hok1).
  { apply run_MCTS_step; [done|]. lia. }
  { apply initial_workers_ok. lia. }
  rewrite E1. cbn.
  replace (0 + Z.max 0 (Z.quot N 4)) with (Z.quot N 4) in Hok1
    by (clear -H4; lia).
  destruct (Z.eq_dec split 0) as [E0|E0].
  - assert (Z.to_nat (split - Z.quot split 4) = O) as ->
      by (rewrite E0; reflexivity).
    cbn [checkpoints]. exists ws1, O. split; [done|].
    split; [clear -Htodo; lia|]. split; [clear -E0; lia|].
    change (Z.of_nat 0) with 0. by rewrite Z.mul_0_l, Z.add_0_r.
  - assert (Hlt4 : Z.quot split 4 < split).
    { rewrite Z.quot_div_nonneg by lia. apply Z.div_lt_upper_bound; lia. }
    assert (HNW : N * Z.of_nat thread_num <= CInt.INT_MAX) by nia.
    assert (HsN' : split * N <= CInt.INT_MAX) by lia.
    set (per := Z.quot N split) in *. set (s4 := Z.quot split 4) in *.
    set (q4 := Z.quot N 4) in *.
    clearbody s4 q4.
    assert (Htn : Z.of_nat (Z.to_nat (split - s4)) = split - s4) by lia.
    destruct (checkpoints_ok state N c thread_num split (2 * N) Hc HN
                ltac:(lia) HNW HsN' ltac:(lia) HWB
                (Z.to_nat (split - s4)) (s4 + 1) O q4 ws1 Hok1
                ltac:(lia) ltac:(lia) ltac:(lia) ltac:(rewrite Htn; exact Hbound))
      as (ws' & done' & E & Hd & Hpos & Hok').
    fold per in E, Hok'.
    exists ws', done'. split; [exact E|]. split; [lia|]. split.
    + intros _. lia.
    + by rewrite Nat.sub_0_r in Hok'.
Qed.

Lemma decide_move_ok (state : board) (thread_num : nat) (k B : Z)
    (ws : workers) :
  workers_ok state thread_num k B ws -> 0 <= B ->
  Z.of_nat thread_num * B <= CInt.INT_MAX ->
  exists a,
    decide_move state ws = Some a
    /\ (a = no_action
        \/ exists pos, a = place_action pos (who_take_turns state)
                       /\ pos ∈ cells /\ legal state pos = true)
    /\ (no_legal state cells -> a = no_action)
    /\ ((forall row j e, row ∈ average_selection ws -> row !! j = Some e ->
           e = 0) -> a = no_action).
Proof.
  intros Hok HB HWB.
  destruct (aggregate_total state B (average_selection ws))
    as (result & Ea & Hlen & Hres).
  { done. }
  { by eapply workers_rows_ok. }
  { by rewrite (wo_rows _ _ _ _ _ Hok). }
  destruct (max_element_spec result) as (i & m & Em & Hi & Hmax).
  { intros ->. done. }
  unfold decide_move. rewrite Ea. cbn. rewrite Em. cbn.
  destruct (Hres i m Hi) as (Hrange & Hlegal & Hzero).
  pose proof (lookup_lt_Some _ _ _ Hi) as Hlt. rewrite Hlen in Hlt.
  eexists. split; [done|]. destruct (Z.eqb_spec m 0) as [->|Hne].
  - split; [by left|]. done.
  - split; [|split].
    + right. eexists. split; [done|]. split; [|by apply Hlegal].
      apply cells_spec. lia.
    + intros Hnone. exfalso. specialize (Hlegal Hne).
      assert (Hc : Z.of_nat i ∈ cells) by (apply cells_spec; lia).
      unfold no_legal in Hnone. rewrite Forall_forall in Hnone.
      rewrite (Hnone _ Hc) in Hlegal. done.
    + intros Hz. exfalso. apply Hne. apply Hzero.
      intros row e Hrow He. by apply (Hz row i e).
Qed.

(** *** A checkpoint of the coordinator *)

Local Arguments aggregate : simpl never.
Local Arguments early_exit : simpl never.
Local Arguments omp_parallel : simpl never.
Local Arguments run_MCTS : simpl never.
Local Arguments record_children : simpl never.
Local Arguments exit_test : simpl never.
Local Arguments top2 : simpl never.


(** *** [take_action] *)

Local Arguments search : simpl never.
Local Arguments decide_move : simpl never.

Lemma run_MCTS_footprint (n : Z) (c : R) (id : nat) (ws ws' : workers) :
  run_MCTS n c id ws = Some ws' ->
  average_selection ws' = average_selection ws
  /\ (forall j, j <> id -> root_vec ws' !! j = root_vec ws !! j)
  /\ exists h a h',
       root_vec ws !! id = Some h
       /\ MCTS h 0%nat n (rng ws) c = Some (a, h', rng ws')
       /\ root_vec ws' = <[id := h']> (root_vec ws).
Proof.
  unfold run_MCTS. intros E.
  destruct (root_vec ws !! id) as [h|] eqn:Hh; [|done]. cbn in E.
  destruct (MCTS h 0%nat n (rng ws) c) as [[[a h'] g']|] eqn:Em; [|done].
  cbn in E. inversion E; subst ws'; clear E. cbn.
  split; [done|]. split.
  - intros j Hj. by rewrite list_lookup_insert_ne.
  - by exists h, a, h'.
Qed.

Lemma first_pass_rows (n : Z) (c : R) :
  forall (ids : list nat) (ws ws' : workers),
  foldM (fun ws id => run_MCTS n c id ws) ws ids = Some ws' ->
  average_selection ws' = average_selection ws.
Proof.
  induction ids as [|id ids IH]; intros ws ws' E.
  - cbn in E. by inversion E.
  - cbn [foldM] in E.
    destruct (run_MCTS n c id ws) as [ws1|] eqn:E1; [|done]. cbn in E.
    apply run_MCTS_footprint in E1 as [<- _]. by apply IH.
Qed.

Lemma aggregate_length (rows : list (list Z)) (result : list Z) :
  aggregate rows = Some result -> length result = 81%nat.
Proof.
  unfold aggregate. intros E. apply mapM_Some_1 in E.
  by rewrite <- (Forall2_length _ _ _ E), length_seq.
Qed.

Lemma decide_move_zero (state : board) (ws : workers) (result : list Z) :
  aggregate (average_selection ws) = Some result ->
  Forall (fun s => s = 0) result ->
  decide_move state ws = Some no_action.
Proof.
  intros Ea Hz. pose proof (aggregate_length _ _ Ea) as Hlen.
  destruct (max_element_spec result) as (i & m & Em & Hi & _).
  { intros ->. done. }
  unfold decide_move. rewrite Ea. cbn. rewrite Em. cbn.
  rewrite Forall_forall in Hz.
  rewrite (Hz m) by (apply list_elem_of_lookup; eauto). done.
Qed.

Lemma workers_root_total (state : board) (thread_num : nat) (k B : Z)
    (ws : workers) (id : nat) (h : heap) :
  workers_ok state thread_num k B ws ->
  root_vec ws !! id = Some h ->
  exists root, h !! 0%nat = Some root /\ total_cnt root = k
               /\ position root = state.
Proof.
  intros Hok Hh. destruct (wo_tree _ _ _ _ _ Hok id h Hh) as [[Hs Hc] Hb].
  destruct (shape_root h Hs) as (r & Hr & _).
  exists r. split; [done|]. split.
  - pose proof (counts_root k h Hc) as Ht. unfold total_at in Ht.
    by rewrite Hr in Ht.
  - unfold root_board in Hb. rewrite Hr in Hb. by injection Hb.
Qed.

(** C9 — for a budget within [int] and a non-negative exploration
    constant, [take_action] returns: either the empty action or a cell
    that is legal on the given board, with the side to move; the empty
    action when the board has no legal cell; the empty action whenever the
    aggregate over the 81 positions is all zero; and [select_action]
    answers -1 at a root without children. *)
Theorem take_action_no_move (state : board) (N : Z) (c : R)
    (thread_num : nat) (g : engine) :
  (0 <= c)%R -> 0 <= N -> (1 <= thread_num)%nat ->
  Z.of_nat thread_num * (2 * N) <= CInt.INT_MAX ->
  N * Z.quot N 1000 <= CInt.INT_MAX ->
  (exists a g',
     take_action state N c thread_num g = Some (a, g')
     /\ (a = no_action
         \/ exists pos, a = place_action pos (who_take_turns state)
                        /\ pos ∈ cells /\ legal state pos = true)
     /\ (no_legal state cells -> a = no_action))
  /\ (forall ws result,
        aggregate (average_selection ws) = Some result ->
        Forall (fun s => s = 0) result ->
        decide_move state ws = Some no_action)
  /\ (forall (h : heap) root,
        h !! 0%nat = Some root -> child root = [] ->
        select_action h 0%nat = Some (-1)).
Proof.
  intros Hc HN HW HWB HsN. split; [|split].
  - unfold take_action. destruct (Z.eqb_spec N 0) as [->|Hne].
    { exists no_action, g. split; [done|]. split; [by left|done]. }
    destruct (search_ok state N c thread_num g Hc HN HW HWB HsN)
      as (ws & rounds & E & _ & _ & Hok).
    rewrite E. cbn.
    destruct (decide_move_ok state thread_num _ (2 * N) ws Hok)
      as (a & Ea & Hcase & Hnone & _); [lia|done|].
    rewrite Ea. cbn. by exists a, (rng ws).
  - intros ws result. apply decide_move_zero.
  - intros h root Hr Hc0. unfold select_action. rewrite Hr. cbn.
    by rewrite Hc0.
Qed.

(** C8, as the code has it — a budget of 0 is not rejected.  With [N]
    and [c] read from the properties, [if (N)] skips the whole search:
    whatever the board, the exploration constant and the number of
    processors, no worker is launched, the engine is left as it was, and
    the empty action is returned. *)
Theorem take_action_zero_budget (state : board) (c : R) (thread_num : nat)
    (g : engine) :
  take_action state 0 c thread_num g = Some (no_action, g).
Proof. reflexivity. Qed.

(** With [0 < N < 1000], [split = N / 1000] is 0: every worker runs the
    first pass of [N / 4] iterations, the bounds of the checkpoint loop
    are empty (so [N / split] is never evaluated), and since the first
    pass records nothing in [average_selection] the empty action is
    returned. *)
Lemma small_budget_no_checkpoint (state : board) (N : Z) (c : R)
    (thread_num : nat) (g : engine) :
  (0 <= c)%R -> (1 <= thread_num)%nat ->
  Z.of_nat thread_num * (2 * N) <= CInt.INT_MAX ->
  0 < N < 1000 ->
  exists ws,
    search state N c thread_num g = Some (ws, O)
    /\ length (root_vec ws) = thread_num
    /\ (forall id h, root_vec ws !! id = Some h ->
          exists root, h !! 0%nat = Some root
                       /\ total_cnt root = Z.quot N 4)
    /\ take_action state N c thread_num g = Some (no_action, rng ws).
Proof.
  intros Hc HW HWB HN.
  assert (Hsplit : Z.quot N 1000 = 0) by (apply Z.quot_small; lia).
  destruct (search_ok state N c thread_num g Hc) as (ws & rounds & E & Hd & _ & Hok);
    [lia|done|done|rewrite Hsplit; rewrite INT_MAX_val; lia|].
  rewrite Hsplit in Hd. change (Z.quot 0 4) with 0 in Hd.
  assert (rounds = O) as -> by lia.
  change (Z.of_nat 0) with 0 in Hok. rewrite Z.mul_0_l, Z.add_0_r in Hok.
  exists ws. split; [exact E|]. split; [apply (wo_trees _ _ _ _ _ Hok)|].
  split.
  { intros id h Hh.
    destruct (workers_root_total _ _ _ _ _ id h Hok Hh) as (r & Hr & Ht & _).
    by exists r. }
  assert (Hrows : average_selection ws
                  = replicate thread_num (replicate 81 0)).
  { unfold search in E. rewrite Hsplit in E.
    change (Z.to_nat (0 - Z.quot 0 4)) with O in E.
    destruct (omp_parallel _ _ _) as [ws1|] eqn:E1; [|done].
    cbn in E. inversion E; subst ws1.
    unfold omp_parallel in E1. by apply first_pass_rows in E1. }
  destruct (decide_move_ok state thread_num _ (2 * N) ws Hok)
    as (a & Ea & _ & _ & Hz); [lia|done|].
  rewrite Hz in Ea.
  - unfold take_action. destruct (Z.eqb_spec N 0); [lia|].
    rewrite E. cbn. rewrite Ea. done.
  - rewrite Hrows. intros row j e Hrow Hj.
    apply elem_of_replicate_inv in Hrow. subst row.
    by apply lookup_replicate in Hj as [-> _].
Qed.

(** C7, at the budget of the claim — with [N = 2000] and one worker the
    search makes one or two checkpoints of [N / split = 1000] iterations
    after the first pass of [N / 4 = 500]: the root has been visited 1500
    times (early exit at the first checkpoint) or 2500 times, never
    2000. *)
Theorem budget_2000_one_worker (state : board) (c : R) (g : engine) :
  (0 <= c)%R ->
  exists ws rounds h root,
    search state 2000 c 1 g = Some (ws, rounds)
    /\ root_vec ws !! 0%nat = Some h
    /\ h !! 0%nat = Some root
    /\ ((rounds = 1%nat /\ total_cnt root = 1500)
        \/ (rounds = 2%nat /\ total_cnt root = 2500))
    /\ total_cnt root <> 2000.
Proof.
  intros Hc.
  destruct (search_ok state 2000 c 1 g Hc) as (ws & rounds & E & Hd & Hpos & Hok);
    [lia|lia|rewrite INT_MAX_val; lia
    |change (Z.quot 2000 1000) with 2; rewrite INT_MAX_val; lia|].
  change (Z.quot 2000 1000) with 2 in *.
  change (Z.quot 2 4) with 0 in *. change (Z.quot 2000 4) with 500 in *.
  change (Z.quot 2000 2) with 1000 in *.
  specialize (Hpos ltac:(lia)).
  destruct (lookup_lt_is_Some_2 (root_vec ws) 0%nat) as [h Hh].
  { rewrite (wo_trees _ _ _ _ _ Hok). lia. }
  destruct (workers_root_total _ _ _ _ _ 0%nat h Hok Hh) as (r & Hr & Ht & _).
  exists ws, rounds, h, r. split; [exact E|]. split; [done|]. split; [done|].
  assert (rounds = 1%nat \/ rounds = 2%nat) as [-> | ->] by lia.
  - split; [left; split; [done|lia]|lia].
  - split; [right; split; [done|lia]|lia].
Qed.

(** A worker's chunk leaves the trees and the visit vectors of the other
    workers alone, but it draws from, and leaves its state in, the one
    engine the next worker draws from. *)
Lemma workers_share_engine (n : Z) (c : R) (id : nat) (ws ws' : workers) :
  run_MCTS n c id ws = Some ws' ->
  average_selection ws' = average_selection ws
  /\ (forall j, j <> id -> root_vec ws' !! j = root_vec ws !! j)
  /\ exists h a h',
       root_vec ws !! id = Some h
       /\ MCTS h 0%nat n (rng ws) c = Some (a, h', rng ws').
Proof.
  intros E. apply run_MCTS_footprint in E as (H1 & H2 & h & a & h' & H3 & H4 & _).
  split; [done|]. split; [done|]. by exists h, a, h'.
Qed.

Local Arguments omp_parallel : simpl never.
Local Arguments run_MCTS : simpl never.
Local Arguments record_children : simpl never.


(** *** What one cycle does to the tree *)

Lemma legal_cells_spec (b : board) (i : Z) :
  i ∈ legal_cells b <-> i ∈ cells /\ legal b i = true.
Proof.
  unfold legal_cells. rewrite list_elem_of_In, filter_In, <- list_elem_of_In.
  done.
Qed.

Lemma legal_cells_NoDup (b : board) : NoDup (legal_cells b).
Proof.
  apply NoDup_ListNoDup, List.NoDup_filter, NoDup_ListNoDup.
  apply NoDup_seqZ.
Qed.

(** A node whose keys are distinct legal cells is a leaf exactly when it
    has no legal move or some legal move has no child yet. *)
Lemma is_leaf_spec (n : node) :
  NoDup (child n).*1 ->
  (forall k, k ∈ (child n).*1 -> k ∈ cells /\ legal (position n) k = true) ->
  is_leaf n = false
  <-> legal_cells (position n) <> []
      /\ forall i, i ∈ cells -> legal (position n) i = true ->
           i ∈ (child n).*1.
Proof.
  intros Hnd Hkeys. unfold is_leaf. fold (legal_cells (position n)).
  assert (Hsub : (child n).*1 ⊆+ legal_cells (position n)).
  { apply NoDup_submseteq; [done|]. intros k Hk.
    apply legal_cells_spec. by apply Hkeys. }
  rewrite negb_false_iff, andb_true_iff, Nat.ltb_lt, Nat.eqb_eq. split.
  - intros [Hpos Hlen]. split.
    { intros E. rewrite E in Hpos. cbn in Hpos. lia. }
    intros i Hi Hl.
    assert (Hp : (child n).*1 ≡ₚ legal_cells (position n)).
    { apply submseteq_length_Permutation; [done|].
      rewrite length_fmap. lia. }
    rewrite Hp. by apply legal_cells_spec.
  - intros [Hne Hall]. split.
    { destruct (legal_cells (position n)); [done|cbn; lia]. }
    apply Nat.le_antisymm.
    + rewrite <- (length_fmap fst). by apply submseteq_length.
    + rewrite <- (length_fmap fst (child n)). apply submseteq_length.
      apply NoDup_submseteq; [apply legal_cells_NoDup|].
      intros i Hi. apply legal_cells_spec in Hi as [Hi Hl]. by apply Hall.
Qed.

(** Selection stops at a leaf. *)
Lemma select_loop_leaf (h : heap) (c : R) :
  forall fuel curr vec path,
  select_loop fuel h c curr vec = Some path ->
  exists l leaf n,
    path = vec ++ l /\ last (curr :: l) = Some leaf
    /\ h !! leaf = Some n /\ is_leaf n = true.
Proof.
  assert (Hempty : forall n : node, length (child n) = O -> is_leaf n = true).
  { intros n E. unfold is_leaf. rewrite E.
    destruct (length (List.filter _ _)); reflexivity. }
  induction fuel as [|fuel IH]; intros curr vec path E; cbn [select_loop] in E;
    destruct (h !! curr) as [n|] eqn:Hn; try done; cbn in E.
  - destruct (is_leaf n) eqn:El.
    { inversion E; subst. exists [], curr, n. by rewrite app_nil_r. }
    destruct (Nat.eqb_spec (length (child n)) 0) as [E0|]; [|done].
    rewrite (Hempty n E0) in El. done.
  - destruct (is_leaf n) eqn:El.
    { inversion E; subst. exists [], curr, n. by rewrite app_nil_r. }
    destruct (Nat.eqb_spec (length (child n)) 0) as [E0|].
    { rewrite (Hempty n E0) in El. done. }
    destruct (best_child h c (child n) (- FLT_MAX) None) as [[s q]|]; [|done].
    cbn in E. destruct q as [q|]; [|done]. cbn in E.
    apply IH in E as (l & leaf & m & -> & Hlast & Hm & Hleaf).
    exists (q :: l), leaf, m. rewrite <- app_assoc. split; [done|].
    split; [by rewrite last_cons_cons|done].
Qed.

(** [expand_from_leaf] with what its scan found. *)
Lemma expand_from_leaf_found (h : heap) (leaf : ptr) (n : node)
    (g : engine) :
  h !! leaf = Some n ->
  (expand_from_leaf h leaf g = Some (h, leaf, (all_space g).2)
   /\ forall i, i ∈ cells -> legal (position n) i = true ->
        i ∈ (child n).*1)
  \/ exists pos,
       pos ∈ cells /\ (pos ∉ (child n).*1) /\ legal (position n) pos = true
       /\ expand_from_leaf h leaf g
          = Some (expanded h leaf n pos, length h, (all_space g).2).
Proof.
  intros Hn.
  destruct (expand_from_leaf_cases h leaf n g Hn) as [E|?]; [|by right].
  left. split; [done|]. intros i Hi Hl.
  unfold expand_from_leaf in E. rewrite Hn in E. cbn in E.
  pose proof (shuffle_perm cells g) as Hperm. fold (all_space g) in Hperm.
  destruct (all_space g) as [vec g'] eqn:Ea. cbn in Hperm.
  destruct (List.find _ vec) as [pos|] eqn:Ef.
  - exfalso. injection E as Eh El. apply lookup_lt_Some in Hn. lia.
  - apply has_child_spec. destruct (has_child n i) eqn:Ec; [done|].
    exfalso. rewrite <- Hperm in Hi. apply list_elem_of_In in Hi.
    pose proof (find_none _ _ Ef i Hi) as Hf. cbn in Hf.
    by rewrite Hl, Ec in Hf.
Qed.

Lemma back_propagate_totals (winner : piece_type) (k : Z) (h h' : heap)
    (l : list ptr) :
  tree_inv k h -> descends h 0%nat l -> k < CInt.INT_MAX ->
  back_propagate (0%nat :: l) winner h = Some h' ->
  visited_once h h' (0%nat :: l).
Proof.
  intros [Hs Hc] Hd Hk E p n Hn.
  pose proof (descends_NoDup h Hs _ _ Hd) as Hnd.
  destruct (shape_root h Hs) as (r & Hr & _).
  assert (Hrange : forall q m, h !! q = Some m ->
                     CInt.INT_MIN <= total_cnt m < CInt.INT_MAX
                     /\ CInt.INT_MIN < win_cnt m < CInt.INT_MAX).
  { intros q m Hm. pose proof (counts_bound k h Hc q m Hm).
    pose proof (counts_win k h Hc q m Hm).
    rewrite INT_MIN_val. rewrite INT_MAX_val in *. lia. }
  destruct (back_propagate_effect winner (0%nat :: l) h Hnd)
    as (h2 & E2 & _ & Hin & Hout).
  { intros q Hq.
    destruct (descends_valid h Hs _ _ Hd (ltac:(by eexists)) q Hq) as [m Hm].
    exists m. split; [done|]. by apply (Hrange q). }
  rewrite E in E2. inversion E2; subst h2; clear E2.
  destruct (Hrange p n Hn) as [Ht Hw]. case_bool_decide as Hp.
  - specialize (Hin p n Hp Hn). rewrite (visit_in winner n Ht Hw) in Hin.
    eexists. split; [symmetry; exact Hin|]. done.
  - exists n. rewrite (Hout p Hp). split; [done|lia].
Qed.

Local Arguments back_propagate : simpl never.
Local Arguments simulate_winner : simpl never.
Local Arguments expand_from_leaf : simpl never.

Lemma cycle_steps (k : Z) (c : R) (h : heap) (g : engine) :
  tree_inv k h -> (0 <= c)%R -> k < CInt.INT_MAX ->
  exists l leaf n h1 path' h' g',
    select_root_to_leaf h 0%nat c = Some (0%nat :: l)
    /\ descends h 0%nat l /\ last (0%nat :: l) = Some leaf
    /\ h !! leaf = Some n /\ is_leaf n = true
    /\ cycle c 0%nat (h, g) = Some (h', g')
    /\ tree_inv (k + 1) h' /\ same_shape h1 h'
    /\ visited_once h1 h' path'
    /\ ((h1 = h /\ path' = 0%nat :: l
         /\ forall i, i ∈ cells -> legal (position n) i = true ->
              i ∈ (child n).*1)
        \/ exists pos,
             pos ∈ cells /\ (pos ∉ (child n).*1)
             /\ legal (position n) pos = true
             /\ h1 = expanded h leaf n pos
             /\ path' = 0%nat :: l ++ [length h]).
Proof.
  intros Hinv Hc Hk. pose proof Hinv as [Hs Hcnt].
  destruct (shape_root h Hs) as (r & Hr & _).
  destruct (select_loop_total h k c Hinv Hc (length h) 0%nat [0%nat])
    as (l & Esel & Hd); [by eexists|lia|].
  destruct (select_loop_leaf h c _ _ _ _ Esel)
    as (l' & leaf & n & El & Elast & Hn & Hleaf).
  apply app_inv_head in El. subst l'.
  exists l, leaf, n.
  unfold cycle, select_root_to_leaf. cbn [fst snd].
  rewrite Esel. cbn [app mbind option_bind]. rewrite Elast. cbn.
  destruct (expand_from_leaf_found h leaf n g Hn)
    as [[Ee Hall]|(pos & Hcell & Hfresh & Hlegal & Ee)]; rewrite Ee; cbn.
  - rewrite Nat.eqb_refl, Elast. cbn.
    destruct (simulate_winner_total h leaf (all_space g).2 n Hn) as [w Ew].
    rewrite Ew. cbn.
    destruct (back_propagate_inv w k h l Hinv Hd Hk) as (h' & Eb & Hi & Hss).
    pose proof (back_propagate_totals w k h h' l Hinv Hd Hk Eb) as Hv.
    rewrite Eb. cbn. exists h, (0%nat :: l), h'. eexists.
    repeat (split; [done|]). left. done.
  - pose proof (lookup_lt_Some _ _ _ Hn) as Hlt.
    destruct (Nat.eqb_spec (length h) leaf) as [E|_]; [lia|].
    set (h1 := expanded h leaf n pos).
    assert (Hnew : h1 !! length h
                   = Some (Node (place (position n) pos).1 0 0 pos []
                                (Some leaf))).
    { apply expanded_lookup; [done|]. right. by left. }
    assert (Hlast' : last (0%nat :: l ++ [length h]) = Some (length h)).
    { change (0%nat :: l ++ [length h]) with ((0%nat :: l) ++ [length h]).
      apply last_snoc. }
    rewrite Hlast'. cbn.
    destruct (simulate_winner_total h1 (length h) (all_space g).2 _ Hnew)
      as [w Ew].
    rewrite Ew. cbn.
    pose proof (expanded_inv k h leaf n pos Hinv Hn Hcell Hfresh Hlegal)
      as Hinv1.
    assert (Hd1 : descends h1 0%nat (l ++ [length h])).
    { pose proof (umap_insert_perm pos (length h) (child n) Hfresh) as Hperm.
      assert (Hleaf1 : h1 !! leaf
                = Some (Node (position n) (win_cnt n) (total_cnt n)
                             (place_pos n)
                             (umap_insert pos (length h) (child n))
                             (parent n))).
      { apply expanded_lookup; [done|]. by left. }
      apply (descends_snoc h1 0%nat l) with (leaf := leaf)
        (n := Node (position n) (win_cnt n) (total_cnt n) (place_pos n)
                   (umap_insert pos (length h) (child n)) (parent n))
        (x := (pos, length h)); [|done|done|].
      - apply (descends_mono h); [|done].
        intros p m x Hm Hx. destruct (decide (p = leaf)) as [->|Hne].
        + eexists. split; [exact Hleaf1|]. cbn. rewrite Hperm.
          rewrite Hn in Hm. inversion Hm; subst m. by right.
        + exists m. split; [|done].
          apply expanded_lookup; [done|]. right. right. done.
      - cbn. rewrite Hperm. by left. }
    destruct (back_propagate_inv w k h1 _ Hinv1 Hd1 Hk) as (h' & Eb & Hi & Hss).
    pose proof (back_propagate_totals w k h1 h' _ Hinv1 Hd1 Hk Eb) as Hv.
    rewrite Eb. cbn. exists h1, (0%nat :: l ++ [length h]), h'. eexists.
    repeat (split; [done|]). right. by exists pos.
Qed.

(** *** The links between parents and children *)

Lemma links_struct_same_shape (state : board) (h1 h2 : heap) :
  same_shape h1 h2 -> links_struct state h1 -> links_struct state h2.
Proof.
  intros Hss (Hroot & Hchild & Hkeys). pose proof Hss as [Hlen Hfw].
  split; [|split].
  - destruct Hroot as (r & Hr & Hp & Hm).
    destruct (Hfw _ _ Hr) as (r' & Hr' & Hp' & Hm' & _).
    exists r'. split; [done|]. split; congruence.
  - intros p n2 x m2 Hn2 Hx Hm2.
    destruct (same_shape_back h1 h2 p n2 Hss Hn2)
      as (n1 & Hn1 & Hpos & _ & Hc & _).
    destruct (same_shape_back h1 h2 x.2 m2 Hss Hm2)
      as (m1 & Hm1 & Hposm & Hppm & _).
    rewrite Hc in Hx. destruct (Hchild p n1 x m1 Hn1 Hx Hm1) as [H1 H2].
    split; congruence.
  - intros p n2 Hn2.
    destruct (same_shape_back h1 h2 p n2 Hss Hn2) as (n1 & Hn1 & _ & _ & Hc & _).
    rewrite Hc. by apply (Hkeys p).
Qed.

Lemma expanded_links (state : board) (k : Z) (h : heap) (leaf : ptr)
    (n : node) (pos : Z) :
  tree_inv k h -> links_struct state h ->
  h !! leaf = Some n -> pos ∉ (child n).*1 ->
  links_struct state (expanded h leaf n pos).
Proof.
  intros [Hs _] (Hroot & Hchild & Hkeys) Hn Hfresh.
  pose proof (lookup_lt_Some _ _ _ Hn) as Hlt.
  pose proof (umap_insert_perm pos (length h) (child n) Hfresh) as Hperm.
  assert (Hold : forall p m, p <> leaf -> h !! p = Some m ->
                   expanded h leaf n pos !! p = Some m).
  { intros p m Hne Hm. apply expanded_lookup; [done|]. right. right. done. }
  split; [|split].
  - destruct Hroot as (r & Hr & Hp & Hm).
    destruct (decide (leaf = 0%nat)) as [->|Hne].
    + eexists. split; [apply expanded_lookup; [done|]; by left|].
      cbn. rewrite Hn in Hr. inversion Hr; subst r. done.
    + exists r. split; [by apply Hold|done].
  - intros p np x m Hnp Hx Hm.
    apply expanded_lookup in Hnp; [|done].
    apply expanded_lookup in Hm; [|done].
    destruct Hnp as [[-> ->]|[[-> ->]|[Hne Hnp]]].
    + cbn in Hx |- *. rewrite Hperm in Hx.
      apply elem_of_cons in Hx as [->|Hx].
      * cbn in Hm |- *. destruct Hm as [[E _]|[[_ ->]|[_ Hm]]]; [lia|done|].
        apply lookup_lt_Some in Hm. lia.
      * destruct (shape_child h Hs leaf n x Hn Hx) as (H1 & _ & _ & m0 & Hm0 & _).
        pose proof (lookup_lt_Some _ _ _ Hm0).
        destruct Hm as [[E _]|[[E _]|[_ Hm]]]; [lia|lia|].
        by apply (Hchild leaf).
    + cbn in Hx. by apply elem_of_nil in Hx.
    + destruct (shape_child h Hs p np x Hnp Hx) as (_ & _ & _ & m0 & Hm0 & _).
      pose proof (lookup_lt_Some _ _ _ Hm0).
      destruct Hm as [[E ->]|[[E _]|[_ Hm]]]; [|lia|by apply (Hchild p)].
      cbn. rewrite E in Hm0. rewrite Hn in Hm0. inversion Hm0; subst m0.
      apply (Hchild p np x n Hnp Hx). by rewrite E.
  - intros p np Hnp. apply expanded_lookup in Hnp; [|done].
    destruct Hnp as [[-> ->]|[[-> ->]|[Hne Hnp]]]; cbn.
    + rewrite Hperm. cbn. apply NoDup_cons. split; [done|by apply (Hkeys leaf)].
    + constructor.
    + by apply (Hkeys p).
Qed.

Lemma fresh_grown (state : board) : grown state 0 [new_node state (-1)].
Proof.
  split; [apply fresh_inv|]. split; [|cbn; lia]. constructor.
  - by eexists.
  - intros [|p] n x m Hn Hx; [|done]. inversion Hn; subst n.
    by apply elem_of_nil in Hx.
  - intros [|p] n Hn; [|done]. inversion Hn; subst n. constructor.
  - intros [|p] n Hn; done.
Qed.

Lemma links_ok_struct (state : board) (h : heap) :
  links_ok state h -> links_struct state h.
Proof. intros [H1 H2 H3 _]. by split; [|split]. Qed.

(** A cycle keeps [grown] and adds exactly one node, unless the leaf it
    selected has no legal move, in which case it adds none. *)
Lemma cycle_grown (state : board) (k : Z) (c : R) (h : heap) (g : engine) :
  grown state k h -> (0 <= c)%R -> k < CInt.INT_MAX ->
  exists h' g',
    cycle c 0%nat (h, g) = Some (h', g')
    /\ grown state (k + 1) h'
    /\ (length h' = S (length h)
        \/ (length h' = length h
            /\ exists l leaf n,
                 select_root_to_leaf h 0%nat c = Some (0%nat :: l)
                 /\ last (0%nat :: l) = Some leaf /\ h !! leaf = Some n
                 /\ legal_cells (position n) = [])).
Proof.
  intros (Hinv & Hlinks & Hsize) Hc Hk.
  destruct (cycle_steps k c h g Hinv Hc Hk)
    as (l & leaf & n & h1 & path' & h' & g' & Esel & Hd & Elast & Hn & Hleaf
        & E & Hinv' & Hss & Hv & Hcase).
  exists h', g'. split; [exact E|].
  pose proof (links_ok_struct _ _ Hlinks) as Hstruct.
  destruct Hss as [Hlen Hfw]. pose proof (conj Hlen Hfw) as Hss.
  assert (Hkeys : forall q, q ∈ (child n).*1 ->
                    q ∈ cells /\ legal (position n) q = true).
  { intros q Hq. apply list_elem_of_fmap in Hq as (x & -> & Hx).
    destruct Hinv as [Hs _].
    by destruct (shape_child h Hs leaf n x Hn Hx) as (_ & ? & ? & _). }
  destruct Hcase as [(-> & -> & Hall)|(pos & Hcell & Hfresh & Hlegal & -> & ->)].
  - split.
    + split; [done|]. split; [|lia].
      destruct (links_struct_same_shape state h h' Hss Hstruct)
        as (H1 & H2 & H3).
      constructor; [done..|].
      intros p n' Hn' Hp.
      destruct (same_shape_back h h' p n' Hss Hn') as (n1 & Hn1 & _).
      destruct (Hv p n1 Hn1) as (n2 & Hn2 & Ht).
      rewrite Hn' in Hn2. inversion Hn2; subst n2.
      pose proof (links_warm _ _ Hlinks p n1 Hn1 Hp).
      destruct (bool_decide _); lia.
    + right. split; [done|]. exists l, leaf, n.
      repeat (split; [done|]).
      destruct (legal_cells (position n)) as [|i rest] eqn:El; [done|].
      exfalso.
      assert (Hfalse : is_leaf n = false).
      { apply is_leaf_spec; [by apply (links_keys _ _ Hlinks leaf)|done|].
        split; [by rewrite El|done]. }
      congruence.
  - assert (Hlen1 : length (expanded h leaf n pos) = S (length h)).
    { unfold expanded. rewrite length_app, length_insert. cbn. lia. }
    split; [|left; lia].
    split; [done|]. split; [|lia].
    pose proof (expanded_links state k h leaf n pos Hinv Hstruct Hn Hfresh)
      as Hstruct1.
    destruct (links_struct_same_shape state _ h' Hss Hstruct1)
      as (H1 & H2 & H3).
    constructor; [done..|].
    intros p n' Hn' Hp.
    destruct (same_shape_back _ h' p n' Hss Hn') as (n1 & Hn1 & _).
    destruct (Hv p n1 Hn1) as (n2 & Hn2 & Ht).
    rewrite Hn' in Hn2. inversion Hn2; subst n2.
    apply expanded_lookup in Hn1; [|done].
    destruct Hn1 as [[-> ->]|[[-> ->]|[Hne Hn1]]].
    + cbn in Ht. pose proof (links_warm _ _ Hlinks leaf n Hn Hp).
      destruct (bool_decide _); lia.
    + cbn in Ht. rewrite bool_decide_eq_true_2 in Ht; [lia|].
      right. apply elem_of_app. right. by left.
    + pose proof (links_warm _ _ Hlinks p n1 Hn1 Hp).
      destruct (bool_decide _); lia.
Qed.

Lemma cycles_grown (state : board) (c : R) :
  (0 <= c)%R ->
  forall (n : nat) (k : Z) (h : heap) (g : engine),
  grown state k h -> k + Z.of_nat n <= CInt.INT_MAX ->
  exists h' g', cycles n c 0%nat (h, g) = Some (h', g')
                /\ grown state (k + Z.of_nat n) h'.
Proof.
  intros Hc. induction n as [|n IH]; intros k h g Hg Hk.
  - exists h, g. cbn. by rewrite Z.add_0_r.
  - cbn [cycles].
    destruct (cycle_grown state k c h g Hg Hc) as (h1 & g1 & E1 & Hg1 & _);
      [lia|].
    rewrite E1. cbn.
    destruct (IH (k + 1) h1 g1 Hg1) as (h' & g' & E & Hg'); [lia|].
    exists h', g'. split; [done|].
    by replace (k + Z.of_nat (S n)) with (k + 1 + Z.of_nat n) by lia.
Qed.

(** *** Properties of the trees the search builds *)

(** X1: after any number of cycles from a fresh root, [win_cnt] of every node
    lies between [- total_cnt] and [total_cnt], and [total_cnt] between 0
    and the number of cycles. *)
Theorem win_count_bounded (state : board) (c : R) (g : engine) (n : nat) :
  (0 <= c)%R -> Z.of_nat n <= CInt.INT_MAX ->
  exists h' g',
    cycles n c 0%nat ([new_node state (-1)], g) = Some (h', g')
    /\ forall p m, h' !! p = Some m ->
         - total_cnt m <= win_cnt m <= total_cnt m
         /\ 0 <= total_cnt m <= Z.of_nat n.
Proof.
  intros Hc Hn.
  destruct (cycles_grown state c Hc n 0 _ g (fresh_grown state))
    as (h' & g' & E & [_ Hcnt] & _); [lia|].
  exists h', g'. split; [exact E|]. intros p m Hm.
  rewrite Z.add_0_l in Hcnt.
  split; [apply (counts_win _ _ Hcnt p m Hm)|].
  apply (counts_bound _ _ Hcnt p m Hm).
Qed.

(** X2: [n] cycles allocate at most [n] nodes besides the root, and every node
    but the root has been visited at least once: selection never meets a
    child whose [total_cnt] is 0. *)
Theorem tree_size_and_visits (state : board) (c : R) (g : engine) (n : nat) :
  (0 <= c)%R -> Z.of_nat n <= CInt.INT_MAX ->
  exists h' g',
    cycles n c 0%nat ([new_node state (-1)], g) = Some (h', g')
    /\ (1 <= length h' <= n + 1)%nat
    /\ forall p m, h' !! p = Some m -> p <> 0%nat -> 1 <= total_cnt m.
Proof.
  intros Hc Hn.
  destruct (cycles_grown state c Hc n 0 _ g (fresh_grown state))
    as (h' & g' & E & [Hs _] & Hlinks & Hsize); [lia|].
  exists h', g'. split; [exact E|]. split.
  - destruct (shape_root h' Hs) as (r & Hr & _).
    apply lookup_lt_Some in Hr. lia.
  - apply (links_warm _ _ Hlinks).
Qed.

(** X3: in the trees the search builds, the children of a node are keyed by
    distinct cells that are legal on the node's board; the child keyed by
    a cell holds that cell as [place_pos], the board left by placing it on
    the parent's board, and a [parent] pointer back; the root holds the
    board to decide from. *)
Theorem children_are_moves (state : board) (c : R) (g : engine) (n : nat) :
  (0 <= c)%R -> Z.of_nat n <= CInt.INT_MAX ->
  exists h' g' root,
    cycles n c 0%nat ([new_node state (-1)], g) = Some (h', g')
    /\ h' !! 0%nat = Some root /\ position root = state
    /\ parent root = None
    /\ forall p m, h' !! p = Some m ->
         NoDup (child m).*1
         /\ forall x, x ∈ child m ->
              x.1 ∈ cells /\ legal (position m) x.1 = true
              /\ exists km, h' !! x.2 = Some km
                            /\ parent km = Some p
                            /\ place_pos km = x.1
                            /\ position km = (place (position m) x.1).1.
Proof.
  intros Hc Hn.
  destruct (cycles_grown state c Hc n 0 _ g (fresh_grown state))
    as (h' & g' & E & [Hs _] & Hlinks & _); [lia|].
  destruct (links_root _ _ Hlinks) as (r & Hr & Hpos & _).
  destruct (shape_root h' Hs) as (r' & Hr' & Hpar).
  rewrite Hr in Hr'. inversion Hr'; subst r'.
  exists h', g', r. split; [exact E|]. repeat (split; [done|]).
  intros p m Hm. split; [by apply (links_keys _ _ Hlinks p)|].
  intros x Hx.
  destruct (shape_child h' Hs p m x Hm Hx) as (_ & H1 & H2 & km & Hkm & Hp).
  split; [done|]. split; [done|]. exists km. split; [done|]. split; [done|].
  by apply (links_child _ _ Hlinks p m x km).
Qed.

(** X4: on such a tree [select_root_to_leaf] returns a path that starts at the
    root, follows child entries, and ends at a node that has no legal
    move or has a legal move without a child. *)
Theorem selection_ends_at_leaf (state : board) (c : R) (g : engine)
    (n : nat) :
  (0 <= c)%R -> Z.of_nat n <= CInt.INT_MAX ->
  exists h' g' l leaf m,
    cycles n c 0%nat ([new_node state (-1)], g) = Some (h', g')
    /\ select_root_to_leaf h' 0%nat c = Some (0%nat :: l)
    /\ descends h' 0%nat l
    /\ last (0%nat :: l) = Some leaf /\ h' !! leaf = Some m
    /\ (legal_cells (position m) = []
        \/ exists i, i ∈ cells /\ legal (position m) i = true
                     /\ i ∉ (child m).*1).
Proof.
  intros Hc Hn.
  destruct (cycles_grown state c Hc n 0 _ g (fresh_grown state))
    as (h' & g' & E & Hinv & Hlinks & _); [lia|].
  rewrite Z.add_0_l in Hinv.
  destruct (select_loop_total h' _ c Hinv Hc (length h') 0%nat [0%nat])
    as (l & Esel & Hd).
  { destruct Hinv as [Hs _]. destruct (shape_root h' Hs) as (r & Hr & _).
    by exists r. }
  { lia. }
  destruct (select_loop_leaf h' c _ _ _ _ Esel)
    as (l' & leaf & m & El & Elast & Hm & Hleaf).
  apply app_inv_head in El. subst l'.
  exists h', g', l, leaf, m. split; [exact E|].
  repeat (split; [done|]).
  destruct (legal_cells (position m)) as [|i0 rest] eqn:El; [by left|].
  right.
  destruct (decide (Forall (fun i => i ∈ (child m).*1)
                           (legal_cells (position m)))) as [Hall|Hnot].
  - exfalso.
    assert (is_leaf m = false); [|congruence].
    apply is_leaf_spec.
    + by apply (links_keys _ _ Hlinks leaf).
    + intros q Hq. apply list_elem_of_fmap in Hq as (x & -> & Hx).
      destruct Hinv as [Hs _].
      by destruct (shape_child h' Hs leaf m x Hm Hx) as (_ & ? & ? & _).
    + split; [by rewrite El|]. intros i Hi Hl.
      rewrite Forall_forall in Hall. apply Hall.
      by apply legal_cells_spec.
  - apply not_Forall_Exists in Hnot; [|apply _].
    apply Exists_exists in Hnot as (i & Hi & Hni).
    apply legal_cells_spec in Hi as [Hi Hl]. by exists i.
Qed.

(** X5: one more cycle on such a tree adds exactly one node to it, unless the
    leaf that selection reaches has no legal move; then it adds none. *)
Theorem cycle_adds_one_node (state : board) (c : R) (g g1 : engine)
    (n : nat) (h : heap) :
  (0 <= c)%R -> Z.of_nat n < CInt.INT_MAX ->
  cycles n c 0%nat ([new_node state (-1)], g) = Some (h, g1) ->
  exists h' g',
    cycle c 0%nat (h, g1) = Some (h', g')
    /\ (length h' = S (length h)
        \/ (length h' = length h
            /\ exists l leaf m,
                 select_root_to_leaf h 0%nat c = Some (0%nat :: l)
                 /\ last (0%nat :: l) = Some leaf /\ h !! leaf = Some m
                 /\ legal_cells (position m) = [])).
Proof.
  intros Hc Hn E.
  destruct (cycles_grown state c Hc n 0 _ g (fresh_grown state))
    as (h0 & g0 & E0 & Hg); [lia|].
  rewrite E in E0. inversion E0; subst h0 g0. rewrite Z.add_0_l in Hg.
  destruct (cycle_grown state _ c h g1 Hg Hc Hn) as (h' & g' & E' & _ & Hcase).
  by exists h', g'.
Qed.

Lemma most_visited_max (h : heap) :
  forall cs mv c0,
  (forall x, x ∈ cs -> is_Some (h !! x.2)) ->
  (forall q0, c0 = Some q0 -> total_at h q0 = mv) ->
  forall mv' c', most_visited h cs mv c0 = Some (mv', c') ->
  forall q, c' = Some q -> total_at h q = mv'.
Proof.
  induction cs as [|x cs IH]; intros mv c0 Hall Hc0 mv' c' E q Hq.
  - cbn in E. inversion E; subst. by apply Hc0.
  - cbn [most_visited] in E. destruct (Hall x) as [n Hn]; [by left|].
    rewrite Hn in E. cbn in E.
    assert (Hall' : forall y, y ∈ cs -> is_Some (h !! y.2))
      by (intros y Hy; apply Hall; by right).
    destruct (Z.ltb_spec mv (total_cnt n)).
    + eapply (IH (total_cnt n) (Some x.2)); [done| |exact E|done].
      intros q0 Hq0. inversion Hq0; subst q0.
      unfold total_at. by rewrite Hn.
    + by eapply (IH mv c0).
Qed.

(** X6: on such a tree [select_action] answers -1 when the root has no child
    and otherwise the move of a child of the root that no other child
    exceeds in [total_cnt]; that move is legal on the board to decide
    from. *)
Theorem select_action_most_visited (state : board) (c : R) (g : engine)
    (n : nat) :
  (0 <= c)%R -> Z.of_nat n <= CInt.INT_MAX ->
  exists h' g' root a,
    cycles n c 0%nat ([new_node state (-1)], g) = Some (h', g')
    /\ h' !! 0%nat = Some root
    /\ select_action h' 0%nat = Some a
    /\ (child root = [] -> a = -1)
    /\ (child root <> [] ->
        exists x, x ∈ child root /\ a = x.1
                  /\ a ∈ cells /\ legal state a = true
                  /\ forall y, y ∈ child root ->
                       total_at h' y.2 <= total_at h' x.2).
Proof.
  intros Hc Hn.
  destruct (cycles_grown state c Hc n 0 _ g (fresh_grown state))
    as (h' & g' & E & [Hs Hcnt] & Hlinks & _); [lia|].
  destruct (links_root _ _ Hlinks) as (r & Hr & Hpos & _).
  assert (Hall : forall x, x ∈ child r -> is_Some (h' !! x.2)).
  { intros x Hx.
    destruct (shape_child h' Hs _ _ x Hr Hx) as (_ & _ & _ & m & Hm & _).
    by eexists. }
  cut (exists a, select_action h' 0%nat = Some a
         /\ (child r = [] -> a = -1)
         /\ (child r <> [] ->
             exists x, x ∈ child r /\ a = x.1
                       /\ a ∈ cells /\ legal state a = true
                       /\ forall y, y ∈ child r ->
                            total_at h' y.2 <= total_at h' x.2)).
  { intros (a & Ea & H1 & H2). exists h', g', r, a. done. }
  unfold select_action. rewrite Hr. cbn.
  destruct (child r) as [|x0 cs0] eqn:Ec.
  { exists (-1). cbn. done. }
  rewrite <- Ec in *. destruct (Nat.eqb_spec (length (child r)) 0) as [E0|_].
  { rewrite Ec in E0. done. }
  destruct (most_visited_spec h' (child r) (- CInt.INT_MAX) None Hall)
    as (mv & c' & Em & _ & Hmax & Hc').
  rewrite Em. cbn.
  destruct Hc' as [[-> ->]|(x & Hx & ->)].
  { exfalso. assert (Hx : x0 ∈ child r) by (rewrite Ec; by left).
    specialize (Hmax x0 Hx). destruct (Hall x0 Hx) as [m Hm].
    pose proof (counts_bound _ _ Hcnt _ _ Hm).
    unfold total_at in Hmax. rewrite Hm in Hmax. cbn in Hmax.
    rewrite INT_MAX_val in Hmax. lia. }
  cbn. destruct (Hall x Hx) as [m Hm]. rewrite Hm. cbn.
  exists (place_pos m). split; [done|].
  split; [intros E0; by rewrite E0 in Ec|]. intros _.
  destruct (links_child _ _ Hlinks _ _ x m Hr Hx Hm) as [Hpp _].
  destruct (shape_child h' Hs _ _ x Hr Hx) as (_ & Hcell & Hlegal & _).
  exists x. split; [done|]. split; [done|]. rewrite Hpp.
  split; [done|]. split; [by rewrite <- Hpos|].
  intros y Hy.
  rewrite (most_visited_max h' (child r) (- CInt.INT_MAX) None Hall
             ltac:(done) mv (Some x.2) Em x.2 eq_refl).
  by apply Hmax.
Qed.

(** *** Untried moves come first *)


Lemma may_select_descends (h : heap) :
  forall p l, may_select h p l -> descends h p l.
Proof.
  intros p l H. induction H as [p n Hn _|p n x l Hn _ Hx _ IH].
  - constructor.
  - by apply (descends_cons h p n x l).
Qed.




(** *** The answer of [MCTS] and the variants built on it *)

Local Arguments MCTS : simpl never.
Local Arguments max_element : simpl never.
Local Arguments count_votes : simpl never.
Local Arguments cast_votes : simpl never.

Lemma select_action_grown (state : board) (k : Z) (h : heap) :
  grown state k h ->
  exists root a,
    h !! 0%nat = Some root /\ select_action h 0%nat = Some a
    /\ ((a = -1 /\ child root = [])
        \/ (a ∈ cells /\ legal state a = true
            /\ exists x, x ∈ child root /\ x.1 = a)).
Proof.
  intros ([Hs Hcnt] & Hlinks & _).
  destruct (links_root _ _ Hlinks) as (r & Hr & Hpos & _).
  assert (Hall : forall x, x ∈ child r -> is_Some (h !! x.2)).
  { intros x Hx.
    destruct (shape_child h Hs _ _ x Hr Hx) as (_ & _ & _ & m & Hm & _).
    by eexists. }
  exists r. unfold select_action. rewrite Hr. cbn.
  destruct (child r) as [|x0 cs0] eqn:Ec.
  { exists (-1). cbn. split; [done|]. split; [done|]. by left. }
  rewrite <- Ec in *. destruct (Nat.eqb_spec (length (child r)) 0) as [E0|_].
  { rewrite Ec in E0. done. }
  destruct (most_visited_spec h (child r) (- CInt.INT_MAX) None Hall)
    as (mv & c' & Em & _ & Hmax & Hc').
  rewrite Em. cbn.
  destruct Hc' as [[-> ->]|(x & Hx & ->)].
  { exfalso. assert (Hx : x0 ∈ child r) by (rewrite Ec; by left).
    specialize (Hmax x0 Hx). destruct (Hall x0 Hx) as [m Hm].
    pose proof (counts_bound _ _ Hcnt _ _ Hm).
    unfold total_at in Hmax. rewrite Hm in Hmax. cbn in Hmax.
    rewrite INT_MAX_val in Hmax. lia. }
  cbn. destruct (Hall x Hx) as [m Hm]. rewrite Hm. cbn.
  exists (place_pos m). split; [done|]. split; [done|]. right.
  destruct (links_child _ _ Hlinks _ _ x m Hr Hx Hm) as [Hpp _].
  destruct (shape_child h Hs _ _ x Hr Hx) as (_ & Hcell & Hlegal & _).
  rewrite Hpp. split; [done|]. split; [by rewrite <- Hpos|]. by exists x.
Qed.

(** What [MCTS] returns on a fresh root: -1, or a cell legal on the
    board; -1 whenever the board has no legal cell. *)
Lemma MCTS_fresh (state : board) (N : Z) (c : R) (g : engine) :
  (0 <= c)%R -> N <= CInt.INT_MAX ->
  exists a h' g',
    MCTS [new_node state (-1)] 0%nat N g c = Some (a, h', g')
    /\ (a = -1 \/ (a ∈ cells /\ legal state a = true))
    /\ (no_legal state cells -> a = -1).
Proof.
  intros Hc HN.
  destruct (cycles_grown state c Hc (Z.to_nat N) 0 _ g (fresh_grown state))
    as (h' & g' & E & Hg); [rewrite INT_MAX_val in *; lia|].
  destruct (select_action_grown state _ h' Hg) as (r & a & Hr & Ea & Hcase).
  exists a, h', g'. unfold MCTS. rewrite E. cbn. rewrite Ea. cbn.
  split; [done|]. split.
  - destruct Hcase as [[-> _]|(H1 & H2 & _)]; [by left|by right].
  - intros Hnone. destruct Hcase as [[-> _]|(H1 & H2 & _)]; [done|].
    unfold no_legal in Hnone. rewrite Forall_forall in Hnone.
    rewrite (Hnone a H1) in H2. done.
Qed.

(** X7: the single-tree variant never answers with the empty action once
    [N] is not 0: it places what [MCTS] returned, a legal cell or, on a
    board without legal cell, the position -1. *)
Theorem take_action_normal_places (state : board) (N : Z) (c : R)
    (g : engine) :
  (0 <= c)%R -> N <> 0 -> N <= CInt.INT_MAX ->
  exists a g',
    take_action_normal state N c g
    = Some (place_action a (who_take_turns state), g')
    /\ (a = -1 \/ (a ∈ cells /\ legal state a = true))
    /\ (no_legal state cells -> a = -1).
Proof.
  intros Hc HN0 HN.
  destruct (MCTS_fresh state N c g Hc HN) as (a & h' & g' & E & H1 & H2).
  exists a, g'. unfold take_action_normal.
  destruct (Z.eqb_spec N 0); [done|]. rewrite E. cbn. done.
Qed.

Lemma cast_votes_ok (state : board) (N : Z) (c : R) :
  (0 <= c)%R -> N <= CInt.INT_MAX ->
  forall (thread_num : nat) (g : engine),
  exists votes g',
    cast_votes thread_num state N c g = Some (votes, g')
    /\ length votes = thread_num
    /\ Forall (fun v => v = -1 \/ (v ∈ cells /\ legal state v = true)) votes
    /\ (no_legal state cells -> Forall (fun v => v = -1) votes).
Proof.
  intros Hc HN. induction thread_num as [|t IH]; intros g.
  - exists [], g. unfold cast_votes. repeat split; constructor.
  - unfold cast_votes; fold cast_votes.
    destruct (MCTS_fresh state N c g Hc HN) as (a & h' & g1 & E & H1 & H2).
    rewrite E. cbn.
    destruct (IH g1) as (votes & g' & E' & Hlen & Hall & Hnone).
    rewrite E'. cbn. exists (a :: votes), g'. split; [done|].
    split; [cbn; lia|]. split; [by constructor|].
    intros Hn. constructor; [by apply H2|by apply Hnone].
Qed.

Lemma count_votes_fold (state : board) :
  forall (votes : list Z) (B : Z) (vr : list Z),
  Forall (fun v => v = -1 \/ (v ∈ cells /\ legal state v = true)) votes ->
  row_ok state B vr -> 0 <= B ->
  B + Z.of_nat (length votes) <= CInt.INT_MAX ->
  exists vr',
    foldM (fun (vote_result : list Z) (v : Z) =>
             if v =? -1 then Some vote_result
             else
               old ← (if (0 <=? v) then vote_result !! Z.to_nat v
                      else None);
               new ← CInt.incr old;
               vector_set vote_result v new) vr votes = Some vr'
    /\ row_ok state (B + Z.of_nat (length votes)) vr'
    /\ (Forall (fun v => v = -1) votes -> vr' = vr).
Proof.
  induction votes as [|v votes IH]; intros B vr Hall Hrow HB Hmax.
  - exists vr. cbn. rewrite Z.add_0_r. done.
  - apply Forall_cons in Hall as [Hv Hall]. cbn [foldM length] in *.
    assert (Hmono : forall r, row_ok state B r -> row_ok state (B + 1) r).
    { intros r [Hl Hr]. split; [done|]. intros j e He.
      destruct (Hr j e He). split; [lia|done]. }
    destruct (Z.eqb_spec v (-1)) as [->|Hne].
    + cbn. destruct (IH (B + 1) vr Hall (Hmono _ Hrow)) as (vr' & E & Hok & Hsame);
        [lia|lia|].
      exists vr'. split; [done|]. split.
      * by replace (B + Z.of_nat (S (length votes)))
          with (B + 1 + Z.of_nat (length votes)) by lia.
      * intros Hm. apply Forall_cons in Hm as [_ Hm]. by apply Hsame.
    + destruct Hv as [?|[Hcell Hlegal]]; [done|].
      pose proof Hcell as Hc'. apply cells_spec in Hc'.
      destruct (Z.leb_spec 0 v); [|lia].
      destruct Hrow as [Hlen Hent].
      destruct (lookup_lt_is_Some_2 vr (Z.to_nat v)) as [old Hold]; [lia|].
      rewrite Hold. cbn. destruct (Hent _ _ Hold) as [Hrange _].
      rewrite incr_in by (rewrite INT_MIN_val; lia). cbn.
      destruct (vector_set_row state (B + 1) vr v (old + 1)) as (vr1 & E1 & Hok1);
        [by apply Hmono|done|done|lia|].
      rewrite E1. cbn.
      destruct (IH (B + 1) vr1 Hall Hok1) as (vr' & E & Hok & _); [lia|lia|].
      exists vr'. split; [done|]. split.
      * by replace (B + Z.of_nat (S (length votes)))
          with (B + 1 + Z.of_nat (length votes)) by lia.
      * intros Hm. apply Forall_cons in Hm as [? _]. done.
Qed.

(** X8: the majority-vote variant returns the empty action or a cell that is
    legal on the given board, and the empty action when the board has no
    legal cell. *)
Theorem take_action_majority_legal (state : board) (N : Z) (c : R)
    (thread_num : nat) (g : engine) :
  (0 <= c)%R -> N <= CInt.INT_MAX ->
  Z.of_nat thread_num <= CInt.INT_MAX ->
  exists a g',
    take_action_majority state N c thread_num g = Some (a, g')
    /\ (a = no_action
        \/ exists pos, a = place_action pos (who_take_turns state)
                       /\ pos ∈ cells /\ legal state pos = true)
    /\ (no_legal state cells -> a = no_action).
Proof.
  intros Hc HN HW. unfold take_action_majority.
  destruct (Z.eqb_spec N 0) as [_|_].
  { exists no_action, g. split; [done|]. split; [by left|done]. }
  destruct (cast_votes_ok state N c Hc HN thread_num g)
    as (votes & g' & E & Hlen & Hall & Hnone).
  rewrite E. cbn.
  assert (Hrow0 : row_ok state 0 (replicate 81 0)).
  { split; [apply length_replicate|]. intros j e He.
    apply lookup_replicate in He as [-> _]. split; [lia|done]. }
  destruct (count_votes_fold state votes 0 (replicate 81 0) Hall Hrow0)
    as (vr & Ev & [Hl Hent] & Hsame); [lia|lia|].
  unfold count_votes. rewrite Ev. cbn.
  destruct (max_element_spec vr) as (i & m & Em & Hi & Hmax).
  { intros ->. done. }
  rewrite Em. cbn. eexists _, g'. split; [done|].
  destruct (Hent i m Hi) as [Hrange Hlegal].
  pose proof (lookup_lt_Some _ _ _ Hi) as Hlt. rewrite Hl in Hlt.
  destruct (Z.eqb_spec m 0) as [->|Hne]; [split; [by left|done]|].
  split.
  - right. eexists. split; [done|]. split; [apply cells_spec; lia|].
    by apply Hlegal.
  - intros Hn. exfalso. rewrite (Hsame (Hnone Hn)) in Hi.
    apply lookup_replicate in Hi as [-> _]. done.
Qed.

(** X9: with a budget that is a multiple of 4000, a worker of the checkpointed
    search runs [N / 4] iterations and then between 1 and [3 N / 4000]
    rounds of 1000: never more than [N] in all. *)
Theorem budget_respected_multiple_4000 (state : board) (m : Z) (c : R)
    (thread_num : nat) (g : engine) :
  (0 <= c)%R -> 1 <= m -> (1 <= thread_num)%nat ->
  Z.of_nat thread_num * (8000 * m) <= CInt.INT_MAX ->
  16000 * m * m <= CInt.INT_MAX ->
  exists ws rounds,
    search state (4000 * m) c thread_num g = Some (ws, rounds)
    /\ 1 <= Z.of_nat rounds <= 3 * m
    /\ forall id h, root_vec ws !! id = Some h ->
         exists root, h !! 0%nat = Some root
           /\ total_cnt root = 1000 * m + 1000 * Z.of_nat rounds
           /\ total_cnt root <= 4000 * m.
Proof.
  intros Hc Hm HW HWB HsN.
  assert (Hq1 : Z.quot (4000 * m) 1000 = 4 * m).
  { rewrite Z.quot_div_nonneg by lia.
    replace (4000 * m) with (4 * m * 1000) by lia. apply Z.div_mul. lia. }
  assert (Hq2 : Z.quot (4 * m) 4 = m).
  { rewrite Z.quot_div_nonneg by lia.
    replace (4 * m) with (m * 4) by lia. apply Z.div_mul. lia. }
  assert (Hq3 : Z.quot (4000 * m) 4 = 1000 * m).
  { rewrite Z.quot_div_nonneg by lia.
    replace (4000 * m) with (1000 * m * 4) by lia. apply Z.div_mul. lia. }
  assert (Hq4 : Z.quot (4000 * m) (4 * m) = 1000).
  { rewrite Z.quot_div_nonneg by lia.
    replace (4000 * m) with (1000 * (4 * m)) by lia. apply Z.div_mul. lia. }
  destruct (search_ok state (4000 * m) c thread_num g Hc)
    as (ws & rounds & E & Hd & Hpos & Hok).
  { lia. } { done. } { lia. } { rewrite Hq1. lia. }
  rewrite Hq1 in *. rewrite Hq2 in Hd. rewrite Hq3, Hq4 in Hok.
  specialize (Hpos ltac:(lia)).
  exists ws, rounds. split; [exact E|]. split; [lia|].
  intros id h Hh.
  destruct (workers_root_total _ _ _ _ _ id h Hok Hh) as (r & Hr & Ht & _).
  exists r. split; [done|]. lia.
Qed.

(** *** The final choice *)

Local Arguments aggregate : simpl never.
Local Arguments max_element : simpl never.

Lemma column_exact (j : nat) :
  forall (rows : list (list Z)) (acc s : Z),
  foldM (fun acc (row : list Z) => x ← row !! j; CInt.add acc x) acc rows
  = Some s ->
  s = acc + column_total rows j.
Proof.
  induction rows as [|row rows IH]; intros acc s E.
  - cbn in E. inversion E. unfold column_total. cbn. lia.
  - cbn [foldM] in E. destruct (row !! j) as [x|] eqn:Hx; [|done].
    cbn in E. destruct (CInt.add acc x) as [acc'|] eqn:Ea; [|done].
    cbn in E. apply checked_Some in Ea. subst acc'.
    apply IH in E. unfold column_total in *. cbn [foldr]. rewrite Hx.
    cbn [default from_option]. unfold Datatypes.id.
    rewrite E, Z.add_assoc. reflexivity.
Qed.

Lemma aggregate_exact (rows : list (list Z)) (result : list Z) :
  aggregate rows = Some result ->
  length result = 81%nat
  /\ forall j s, result !! j = Some s -> s = column_total rows j.
Proof.
  intros E. split; [by eapply aggregate_length|].
  unfold aggregate in E. apply mapM_Some_1 in E.
  intros j s Hs.
  destruct (Forall2_lookup_r _ _ _ _ _ E Hs) as (j' & Hj' & Ej).
  apply lookup_seq in Hj' as [-> _]. cbn in Ej.
  apply column_exact in Ej. lia.
Qed.

Lemma max_element_from_first :
  forall (l : list Z) (i best_i : nat) (best : Z) (pre : list Z),
  length pre = i -> (best_i < i)%nat ->
  (forall j e, (j < best_i)%nat -> pre !! j = Some e -> e < best) ->
  (forall j e, pre !! j = Some e -> e <= best) ->
  let r := max_element_from l i best_i best in
  forall j e, (j < r.1)%nat -> (pre ++ l) !! j = Some e -> e < r.2.
Proof.
  induction l as [|x l IH]; intros i best_i best pre Hlen Hbi Hlt Hle; cbn.
  - intros j e Hj He. rewrite app_nil_r in He. by eapply Hlt.
  - destruct (Z.ltb_spec best x).
    + specialize (IH (S i) i x (pre ++ [x])).
      rewrite <- app_assoc in IH. cbn in IH. apply IH.
      * rewrite length_app. cbn. lia.
      * lia.
      * intros j e Hj He. rewrite lookup_app_l in He by lia.
        specialize (Hle j e He). lia.
      * intros j e He. apply lookup_app_Some in He as [He|[_ He]].
        -- specialize (Hle j e He). lia.
        -- apply list_lookup_singleton_Some in He as [_ <-]. lia.
    + specialize (IH (S i) best_i best (pre ++ [x])).
      rewrite <- app_assoc in IH. cbn in IH. apply IH.
      * rewrite length_app. cbn. lia.
      * lia.
      * intros j e Hj He. rewrite lookup_app_l in He by lia.
        by eapply Hlt.
      * intros j e He. apply lookup_app_Some in He as [He|[_ He]].
        -- by eapply Hle.
        -- apply list_lookup_singleton_Some in He as [_ <-]. lia.
Qed.

Lemma max_element_first (l : list Z) (i : nat) (m : Z) :
  max_element l = Some (i, m) ->
  l !! i = Some m
  /\ (forall j e, l !! j = Some e -> e <= m)
  /\ (forall j e, (j < i)%nat -> l !! j = Some e -> e < m).
Proof.
  destruct l as [|x l]; [done|]. unfold max_element. intros E.
  inversion E as [Er]; clear E.
  pose proof (max_element_from_spec l 1 0 x [x] eq_refl eq_refl) as H1.
  pose proof (max_element_from_first l 1 0 x [x] eq_refl ltac:(lia)) as H2.
  cbn zeta in H1, H2. rewrite Er in H1, H2. cbn [fst snd] in H1, H2.
  destruct H1 as [Hi Hmax].
  { intros e He. apply list_elem_of_singleton in He. lia. }
  split; [exact Hi|]. split.
  - intros j e He. apply Hmax. apply list_elem_of_lookup. by exists j.
  - apply H2.
    + intros j e Hj. lia.
    + intros j e He. apply list_lookup_singleton_Some in He as [_ <-]. lia.
Qed.

(** X10: the final choice of [take_action]: the aggregate holds, for each of the
    81 positions, the sum of the workers' entries; the empty action is
    returned when no sum is positive, and otherwise the position of the
    first largest sum, for the side to move. *)
Theorem final_choice_first_maximum (state : board) (ws : workers)
    (a : action) :
  decide_move state ws = Some a ->
  exists result idx m,
    aggregate (average_selection ws) = Some result
    /\ length result = 81%nat
    /\ (forall j s, result !! j = Some s ->
          s = column_total (average_selection ws) j)
    /\ result !! idx = Some m
    /\ (forall j e, result !! j = Some e -> e <= m)
    /\ (forall j e, (j < idx)%nat -> result !! j = Some e -> e < m)
    /\ (m = 0 -> a = no_action)
    /\ (m <> 0 ->
        a = place_action (Z.of_nat idx) (who_take_turns state)).
Proof.
  unfold decide_move. intros E.
  destruct (aggregate (average_selection ws)) as [result|] eqn:Ea; [|done].
  cbn in E. destruct (max_element result) as [[idx m]|] eqn:Em; [|done].
  cbn in E. inversion E; subst a; clear E.
  destruct (aggregate_exact _ _ Ea) as [Hlen Hsum].
  destruct (max_element_first _ _ _ Em) as (Hi & Hmax & Hfirst).
  exists result, idx, m. repeat (split; [done|]).
  destruct (Z.eqb_spec m 0); split; done.
Qed.

(** *** A search with a budget of a thousand finds a move *)

Local Arguments MCTS : simpl never.
Local Arguments aggregate : simpl never.
Local Arguments early_exit : simpl never.
Local Arguments omp_parallel : simpl never.
Local Arguments max_element : simpl never.
Local Arguments run_MCTS : simpl never.
Local Arguments record_children : simpl never.

Lemma descends_root_child (h : heap) (l : list ptr) (r : node) (leaf : ptr) :
  h !! 0%nat = Some r -> descends h 0%nat l ->
  last (0%nat :: l) = Some leaf -> leaf <> 0%nat -> child r <> [].
Proof.
  intros Hr Hd Hl Hne. inversion Hd as [|p n x l' Hn Hx Hd']; subst.
  - cbn in Hl. congruence.
  - rewrite Hr in Hn. inversion Hn; subst n. intros Ec. rewrite Ec in Hx.
    by apply elem_of_nil in Hx.
Qed.

(** The first cycle on a board with a legal cell gives the root a child,
    and a child is never removed. *)
Lemma cycle_root_open (state : board) (k : Z) (c : R) (h h' : heap)
    (g g' : engine) :
  grown state k h -> (0 <= c)%R -> k < CInt.INT_MAX ->
  cycle c 0%nat (h, g) = Some (h', g') -> root_open state h'.
Proof.
  intros (Hinv & Hlinks & _) Hc Hk E Hlegal.
  destruct (cycle_steps k c h g Hinv Hc Hk)
    as (l & leaf & n & h1 & path' & h2 & g2 & Esel & Hd & Elast & Hn & Hleaf
        & E' & Hinv' & Hss & Hv & Hcase).
  rewrite E in E'. inversion E'; subst h2 g2. clear E'.
  destruct (links_root _ _ Hlinks) as (r & Hr & Hpos & _).
  cut (exists r1, h1 !! 0%nat = Some r1 /\ child r1 <> []).
  { intros (r1 & Hr1 & Hc1). destruct Hss as [_ Hfw].
    destruct (Hfw _ _ Hr1) as (r2 & Hr2 & _ & _ & Hch & _).
    exists r2. split; [done|]. by rewrite Hch. }
  pose proof (lookup_lt_Some _ _ _ Hn) as Hlt.
  destruct Hcase as [(-> & -> & Hall)|(pos & Hcell & Hfresh & Hl & -> & ->)].
  - exists r. split; [done|].
    destruct (decide (leaf = 0%nat)) as [->|Hne];
      [|by apply (descends_root_child h l r leaf)].
    rewrite Hr in Hn. inversion Hn; subst n. intros Ec.
    destruct (legal_cells state) as [|i rest] eqn:El; [done|].
    assert (Hi : i ∈ legal_cells state) by (rewrite El; by left).
    apply legal_cells_spec in Hi as [Hi1 Hi2]. rewrite <- Hpos in Hi2.
    specialize (Hall i Hi1 Hi2). rewrite Ec in Hall.
    by apply elem_of_nil in Hall.
  - destruct (decide (leaf = 0%nat)) as [->|Hne].
    + rewrite Hr in Hn. inversion Hn; subst n.
      eexists. split; [apply expanded_lookup; [done|]; by left|].
      cbn. intros Ec.
      pose proof (umap_insert_perm pos (length h) (child r) Hfresh) as Hp.
      rewrite Ec in Hp. by apply Permutation_nil_cons in Hp.
    + exists r. split; [apply expanded_lookup; [done|]; by right; right|].
      by apply (descends_root_child h l r leaf).
Qed.

(** A cycle removes no child of the root. *)
Lemma cycle_children_kept (state : board) (k : Z) (c : R) (h h' : heap)
    (g g' : engine) :
  grown state k h -> (0 <= c)%R -> k < CInt.INT_MAX ->
  cycle c 0%nat (h, g) = Some (h', g') -> children_kept h h'.
Proof.
  intros (Hinv & Hlinks & _) Hc Hk E r x Hr Hx.
  destruct (cycle_steps k c h g Hinv Hc Hk)
    as (l & leaf & n & h1 & path' & h2 & g2 & Esel & Hd & Elast & Hn & Hleaf
        & E' & Hinv' & Hss & Hv & Hcase).
  rewrite E in E'. inversion E'; subst h2 g2. clear E'.
  cut (exists r1, h1 !! 0%nat = Some r1 /\ x ∈ child r1).
  { intros (r1 & Hr1 & Hc1). destruct Hss as [_ Hfw].
    destruct (Hfw _ _ Hr1) as (r2 & Hr2 & _ & _ & Hch & _).
    exists r2. split; [done|]. by rewrite Hch. }
  pose proof (lookup_lt_Some _ _ _ Hn) as Hlt.
  destruct Hcase as [(-> & -> & Hall)|(pos & Hcell & Hfresh & Hl & -> & ->)].
  - by exists r.
  - destruct (decide (leaf = 0%nat)) as [->|Hne].
    + rewrite Hr in Hn. inversion Hn; subst n.
      eexists. split; [apply expanded_lookup; [done|]; by left|].
      cbn. rewrite (umap_insert_perm pos (length h) (child r) Hfresh).
      by right.
    + exists r. split; [apply expanded_lookup; [done|]; by right; right|done].
Qed.

Lemma children_kept_trans (h1 h2 h3 : heap) :
  children_kept h1 h2 -> children_kept h2 h3 -> children_kept h1 h3.
Proof.
  intros H12 H23 r x Hr Hx. destruct (H12 r x Hr Hx) as (r2 & Hr2 & Hx2).
  by apply (H23 r2).
Qed.

Lemma cycles_live (state : board) (c : R) :
  (0 <= c)%R ->
  forall (n : nat) (k : Z) (h : heap) (g : engine),
  live state k h -> k + Z.of_nat n <= CInt.INT_MAX ->
  exists h' g', cycles n c 0%nat (h, g) = Some (h', g')
                /\ live state (k + Z.of_nat n) h'
                /\ children_kept h h'.
Proof.
  intros Hc. induction n as [|n IH]; intros k h g Hl Hk.
  - exists h, g. cbn. rewrite Z.add_0_r. split; [done|]. split; [done|].
    intros r x Hr Hx. by exists r.
  - cbn [cycles]. destruct Hl as (Hg & Hk0 & Hopen).
    destruct (cycle_grown state k c h g Hg Hc) as (h1 & g1 & E1 & Hg1 & _);
      [lia|].
    pose proof (cycle_root_open state k c h h1 g g1 Hg Hc ltac:(lia) E1)
      as Hopen1.
    pose proof (cycle_children_kept state k c h h1 g g1 Hg Hc ltac:(lia) E1)
      as Hkept1.
    rewrite E1. cbn.
    destruct (IH (k + 1) h1 g1) as (h' & g' & E & Hl' & Hkept'); [|lia|].
    { split; [done|]. split; [lia|done]. }
    exists h', g'. split; [done|].
    replace (k + Z.of_nat (S n)) with (k + 1 + Z.of_nat n) by lia.
    split; [done|]. by apply (children_kept_trans h h1 h').
Qed.

Lemma MCTS_live (state : board) (k : Z) (c : R) (h : heap) (g : engine)
    (N : Z) :
  (0 <= c)%R -> live state k h -> k + Z.max 0 N <= CInt.INT_MAX ->
  exists a h' g', MCTS h 0%nat N g c = Some (a, h', g')
                  /\ live state (k + Z.max 0 N) h'
                  /\ children_kept h h'.
Proof.
  intros Hc Hl Hk.
  assert (HN : Z.of_nat (Z.to_nat N) = Z.max 0 N) by lia.
  destruct (cycles_live state c Hc (Z.to_nat N) k h g Hl)
    as (h' & g' & E & Hl' & Hkept); [lia|].
  rewrite HN in Hl'. pose proof Hl' as (Hg' & _).
  destruct (select_action_grown state _ h' Hg') as (r & a & _ & Ea & _).
  unfold MCTS. rewrite E. cbn. rewrite Ea. cbn. by exists a, h', g'.
Qed.

Lemma live_inv (state : board) (k : Z) (h : heap) :
  live state k h -> tree_inv k h /\ root_board h = Some state.
Proof.
  intros ((Hinv & Hlinks & _) & _). split; [done|].
  destruct (links_root _ _ Hlinks) as (r & Hr & Hpos & _).
  unfold root_board. rewrite Hr. cbn. by rewrite Hpos.
Qed.

(** Writing the children of the root into a row leaves in it the visit
    count of each of them. *)
Lemma record_fold_keeps (h : heap) (j : nat) :
  forall (cs : list (Z * ptr)) (row row' : list Z),
  foldM (fun (row : list Z) (all_child : Z * ptr) =>
           n ← h !! all_child.2;
           vector_set row all_child.1 (total_cnt n)) row cs
  = Some row' ->
  (forall x, x ∈ cs -> Z.to_nat x.1 <> j) ->
  row' !! j = row !! j.
Proof.
  induction cs as [|x cs IH]; intros row row' E Hne.
  - cbn in E. by inversion E.
  - cbn [foldM] in E. destruct (h !! x.2) as [n|]; [|done]. cbn in E.
    destruct (vector_set row x.1 (total_cnt n)) as [row1|] eqn:E1; [|done].
    cbn in E. rewrite (IH row1 row' E).
    + unfold vector_set in E1. destruct (_ && _); [|done].
      inversion E1; subst row1.
      apply list_lookup_insert_ne. apply Hne. by left.
    + intros y Hy. apply Hne. by right.
Qed.

Lemma record_fold_synced (h : heap) :
  forall (cs : list (Z * ptr)) (row row' : list Z),
  foldM (fun (row : list Z) (all_child : Z * ptr) =>
           n ← h !! all_child.2;
           vector_set row all_child.1 (total_cnt n)) row cs
  = Some row' ->
  NoDup cs.*1 -> (forall x, x ∈ cs -> 0 <= x.1) ->
  forall x, x ∈ cs -> row' !! Z.to_nat x.1 = Some (total_at h x.2).
Proof.
  induction cs as [|y cs IH]; intros row row' E Hnd Hpos x Hx.
  - by apply elem_of_nil in Hx.
  - cbn [foldM] in E. destruct (h !! y.2) as [n|] eqn:Hn; [|done].
    cbn in E.
    destruct (vector_set row y.1 (total_cnt n)) as [row1|] eqn:E1; [|done].
    cbn in E. cbn in Hnd. apply NoDup_cons in Hnd as [Hy Hnd].
    apply elem_of_cons in Hx as [->|Hx].
    + rewrite (record_fold_keeps h (Z.to_nat y.1) cs row1 row' E).
      * unfold vector_set in E1.
        destruct (Z.leb_spec 0 y.1); [|done].
        destruct (Z.ltb_spec y.1 (Z.of_nat (length row))); [|done].
        cbn in E1. inversion E1; subst row1. unfold total_at. rewrite Hn. cbn.
        apply list_lookup_insert_eq. lia.
      * intros z Hz Ez. apply Hy. apply list_elem_of_fmap. exists z.
        split; [|done].
        pose proof (Hpos z ltac:(by right)).
        pose proof (Hpos y ltac:(by left)). lia.
    + apply (IH row1 row' E Hnd); [|done].
      intros z Hz. apply Hpos. by right.
Qed.

Lemma run_MCTS_live_step (state : board) (k B n : Z) (c : R) :
  (0 <= c)%R -> k + Z.max 0 n <= CInt.INT_MAX ->
  forall id ws h row,
  root_vec ws !! id = Some h -> average_selection ws !! id = Some row ->
  live state k h /\ row_ok state B row /\ row_children h row ->
  exists h' row' g',
    run_MCTS n c id ws
    = Some (Workers (<[id := h']> (root_vec ws))
                    (<[id := row']> (average_selection ws)) g')
    /\ live state (k + Z.max 0 n) h' /\ row_ok state B row'
    /\ row_children h' row'.
Proof.
  intros Hc Hk id ws h row Hh Hrow (Hl & Hok & Hrc).
  destruct (MCTS_live state k c h (rng ws) n Hc Hl Hk)
    as (a & h' & g' & E & Hl' & Hkept).
  exists h', row, g'. unfold run_MCTS. rewrite Hh. cbn. rewrite E. cbn.
  rewrite (list_insert_id _ _ _ Hrow).
  split; [done|]. split; [done|]. split; [done|].
  intros j e He Hne. destruct (Hrc j e He Hne) as (r & x & Hr & Hx & Hj).
  destruct (Hkept r x Hr Hx) as (r' & Hr' & Hx'). by exists r', x.
Qed.

Lemma record_children_synced (state : board) (k B : Z) :
  k <= B ->
  forall id ws h row,
  root_vec ws !! id = Some h -> average_selection ws !! id = Some row ->
  live state k h /\ row_ok state B row /\ row_children h row ->
  exists row',
    record_children id ws
    = Some (Workers (root_vec ws) (<[id := row']> (average_selection ws))
                    (rng ws))
    /\ row_ok state B row' /\ row_children h row' /\ row_synced h row'.
Proof.
  intros HkB id ws h row Hh Hrow (Hl & Hok & Hrc).
  destruct (live_inv state k h Hl) as [[Hs Hc] Hb].
  destruct Hl as ((_ & Hlinks & _) & _).
  destruct (shape_root h Hs) as (r & Hr & _).
  unfold root_board in Hb. rewrite Hr in Hb. cbn in Hb.
  injection Hb as Hpos.
  destruct (record_children_fold state B h (child r) row) as (row' & E & Hok').
  { intros x Hx.
    destruct (shape_child h Hs _ _ x Hr Hx) as (_ & Hk & Hlg & m & Hm & _).
    split; [done|]. split; [by rewrite <- Hpos|].
    exists m. split; [done|]. pose proof (counts_bound k h Hc _ _ Hm). lia. }
  { done. }
  exists row'. unfold record_children. rewrite Hh. cbn. rewrite Hr. cbn.
  rewrite Hrow. cbn. rewrite E. cbn. split; [done|]. split; [done|]. split.
  - intros j e He Hne.
    destruct (decide (j ∈ (fun x : Z * ptr => Z.to_nat x.1) <$> child r))
      as [Hin|Hout].
    + apply list_elem_of_fmap in Hin as (x & -> & Hx). by exists r, x.
    + rewrite (record_fold_keeps h j (child r) row row' E) in He.
      * by apply (Hrc j e).
      * intros x Hx Ej. apply Hout. apply list_elem_of_fmap. by exists x.
  - intros r' x Hr' Hx. rewrite Hr in Hr'. inversion Hr'; subst r'.
    apply (record_fold_synced h (child r) row row' E); [| |done].
    + by apply (links_keys _ _ Hlinks 0%nat).
    + intros y Hy.
      destruct (shape_child h Hs _ _ y Hr Hy) as (_ & Hk & _).
      apply cells_spec in Hk. lia.
Qed.

Lemma checkpoint_body_live (state : board) (k B n : Z) (c : R) :
  (0 <= c)%R -> k + Z.max 0 n <= B -> B <= CInt.INT_MAX ->
  forall id ws h row,
  root_vec ws !! id = Some h -> average_selection ws !! id = Some row ->
  live state k h /\ row_ok state B row /\ row_children h row ->
  exists h' row' g',
    (ws1 ← run_MCTS n c id ws; record_children id ws1)
    = Some (Workers (<[id := h']> (root_vec ws))
                    (<[id := row']> (average_selection ws)) g')
    /\ (live state (k + Z.max 0 n) h' /\ row_ok state B row'
        /\ row_children h' row')
       /\ row_synced h' row'.
Proof.
  intros Hc Hk HB id ws h row Hh Hrow HI.
  destruct (run_MCTS_live_step state k B n c Hc (ltac:(lia)) id ws h row Hh
              Hrow HI) as (h' & row1 & g' & E & Hl' & Hrow1 & Hrc1).
  rewrite E. cbn.
  pose proof (lookup_lt_Some _ _ _ Hh) as Hlt1.
  pose proof (lookup_lt_Some _ _ _ Hrow) as Hlt2.
  destruct (record_children_synced state (k + Z.max 0 n) B Hk id
              (Workers (<[id := h']> (root_vec ws))
                       (<[id := row1]> (average_selection ws)) g')
              h' row1) as (row' & E' & Hrow' & Hrc' & Hsync).
  { cbn. by rewrite list_lookup_insert_eq. }
  { cbn. by rewrite list_lookup_insert_eq. }
  { done. }
  exists h', row', g'. rewrite E'. cbn.
  rewrite list_insert_insert_eq. done.
Qed.

Lemma region_team (state : board) (thread_num : nat) (k k' B : Z)
    (s s' : bool) (body : nat -> workers -> option workers) :
  (forall id ws h row,
     root_vec ws !! id = Some h -> average_selection ws !! id = Some row ->
     (live state k h /\ row_ok state B row /\ row_children h row)
     /\ (s = true -> row_synced h row) ->
     exists h' row' g',
       body id ws
       = Some (Workers (<[id := h']> (root_vec ws))
                       (<[id := row']> (average_selection ws)) g')
       /\ (live state k' h' /\ row_ok state B row'
           /\ row_children h' row')
          /\ (s' = true -> row_synced h' row')) ->
  forall ws, team state thread_num k B s ws ->
  exists ws', omp_parallel body thread_num ws = Some ws'
              /\ team state thread_num k' B s' ws'.
Proof.
  intros Hbody ws (Ht & Hr & Hall).
  destruct (omp_parallel_each _ _ body Hbody thread_num 0%nat ws Ht Hr)
    as (ws' & E & Ht' & Hr' & Hall').
  { intros id h row Hh Hrow. destruct (decide (id < 0)%nat); [lia|].
    exact (Hall id h row Hh Hrow). }
  exists ws'. split; [exact E|]. done.
Qed.

(** The rounds of the checkpoint loop: after the last one that is made,
    every row holds the visit counts of the children of its root. *)
Lemma checkpoints_team (state : board) (N : Z) (c : R) (thread_num : nat)
    (split B : Z) :
  (0 <= c)%R -> 0 <= N -> 1 <= split < CInt.INT_MAX ->
  0 <= B <= CInt.INT_MAX ->
  forall (todo : nat) (i : Z) (rounds : nat) (k : Z) (s : bool)
         (ws ws' : workers) (rounds' : nat),
  team state thread_num k B s ws ->
  0 <= k -> k + Z.of_nat todo * Z.quot N split <= B ->
  checkpoints todo i N c thread_num split rounds ws = Some (ws', rounds') ->
  exists k', k <= k'
             /\ team state thread_num k' B
                  (match todo with O => s | S _ => true end) ws'.
Proof.
  intros Hc HN Hsplit HB.
  assert (Hper : 0 <= Z.quot N split <= N).
  { rewrite Z.quot_div_nonneg by lia. split.
    - apply Z.div_pos; lia.
    - apply Z.div_le_upper_bound; nia. }
  induction todo as [|todo IH]; intros i rounds k s ws ws' rounds' Hteam Hk HkB E.
  - cbn in E. inversion E; subst. exists k. split; [lia|done].
  - cbn [checkpoints] in E. unfold CInt.div in E.
    destruct (Z.eqb_spec split 0); [lia|].
    rewrite checked_in in E
      by (rewrite INT_MIN_val, INT_MAX_val in *; lia).
    cbn in E.
    destruct (region_team state thread_num k (k + Z.max 0 (Z.quot N split)) B
                s true
                (fun id ws => ws1 ← run_MCTS (Z.quot N split) c id ws;
                              record_children id ws1)) with (ws := ws)
      as (ws1 & E1 & Hteam1); [|done|].
    { intros id ws0 h row Hh Hrow [HI _].
      destruct (checkpoint_body_live state k B (Z.quot N split) c Hc
                  ltac:(nia) ltac:(lia) id ws0 h row Hh Hrow HI)
        as (h' & row' & g' & Eb & HJ & Hsync).
      exists h', row', g'. done. }
    rewrite E1 in E. cbn in E. rewrite Z.max_r in Hteam1 by lia.
    destruct (aggregate (average_selection ws1)) as [result|]; [|done].
    cbn in E.
    destruct (early_exit result N (Z.of_nat thread_num) i split)
      as [stop|]; [|done].
    cbn in E. destruct stop.
    + inversion E; subst. exists (k + Z.quot N split). split; [lia|done].
    + destruct (CInt.incr i) as [i'|]; [|done]. cbn in E.
      destruct (IH i' (S rounds) (k + Z.quot N split) true ws1 ws' rounds'
                  Hteam1) as (k' & Hk' & Hteam'); [lia|nia|done|].
      exists k'. split; [lia|]. by destruct todo.
Qed.

Lemma column_total_ge (state : board) (B : Z) (j : nat) (e : Z) :
  forall (rows : list (list Z)) (row : list Z),
  (forall row, row ∈ rows -> row_ok state B row) ->
  row ∈ rows -> row !! j = Some e -> e <= column_total rows j.
Proof.
  assert (Hpos : forall rows : list (list Z),
            (forall row, row ∈ rows -> row_ok state B row) ->
            0 <= column_total rows j).
  { induction rows as [|r rows IH]; intros Hall; unfold column_total;
      cbn [foldr]; [lia|].
    fold (column_total rows j).
    specialize (IH ltac:(intros r' Hr'; apply Hall; by right)).
    destruct (Hall r ltac:(by left)) as [_ Hr].
    destruct (r !! j) as [x|] eqn:Hx; cbn; [|lia].
    destruct (Hr j x Hx) as [? _]. lia. }
  induction rows as [|r rows IH]; intros row Hall Hin He.
  - by apply elem_of_nil in Hin.
  - unfold column_total. cbn [foldr]. fold (column_total rows j).
    apply elem_of_cons in Hin as [->|Hin].
    + rewrite He. cbn.
      specialize (Hpos rows ltac:(intros r' Hr'; apply Hall; by right)). lia.
    + specialize (IH row ltac:(intros r' Hr'; apply Hall; by right) Hin He).
      destruct (Hall r ltac:(by left)) as [_ Hr].
      destruct (r !! j) as [x|] eqn:Hx; cbn; [|lia].
      destruct (Hr j x Hx) as [? _]. lia.
Qed.

(** The final state of the search when its budget is at least 1000:
    every row holds the visit counts of the children of its root, and the
    root has children if the board has a legal cell. *)
Lemma search_team (state : board) (N : Z) (c : R) (thread_num : nat)
    (g : engine) (ws : workers) (rounds : nat) :
  (0 <= c)%R -> 1000 <= N -> 2 * N <= CInt.INT_MAX ->
  search state N c thread_num g = Some (ws, rounds) ->
  exists k, 1 <= k /\ team state thread_num k (2 * N) true ws.
Proof.
  intros Hc HN HB E.
  pose proof (budget_bound N ltac:(lia)) as (Hs & H4 & Htodo & Hbound).
  cbn zeta in *. set (split := Z.quot N 1000) in *.
  assert (Hs1 : 1 <= split).
  { unfold split. rewrite Z.quot_div_nonneg by lia.
    apply Z.div_le_lower_bound; lia. }
  assert (H41 : 1 <= Z.quot N 4).
  { rewrite Z.quot_div_nonneg by lia. apply Z.div_le_lower_bound; lia. }
  assert (Hs4 : Z.quot split 4 < split).
  { rewrite Z.quot_div_nonneg by lia. apply Z.div_lt; lia. }
  unfold search in E. fold split in E.
  destruct (region_team state thread_num 0 (0 + Z.max 0 (Z.quot N 4)) (2 * N)
              false false (run_MCTS (Z.quot N 4) c))
    with (ws := Workers (replicate thread_num [new_node state (-1)])
                        (replicate thread_num (replicate 81 0)) g)
    as (ws1 & E1 & Hteam1).
  { intros id ws0 h row Hh Hrow [HI _].
    destruct (run_MCTS_live_step state 0 (2 * N) (Z.quot N 4) c Hc
                ltac:(clear - H4 HB; lia) id ws0 h row Hh Hrow HI)
      as (h' & row' & g' & Eb & HJ).
    exists h', row', g'. done. }
  { split; [apply length_replicate|]. split; [apply length_replicate|].
    cbn [root_vec average_selection]. intros id h row Hh Hrow.
    apply lookup_replicate in Hh as [-> _].
    split; [|done]. split; [|split].
    - split; [apply fresh_grown|]. split; [lia|]. lia.
    - apply (wo_row _ _ _ _ _ (initial_workers_ok state thread_num (2 * N) g
                                 ltac:(lia)) id).
      exact Hrow.
    - intros j e He Hne. apply lookup_replicate in Hrow as [-> _].
      apply lookup_replicate in He as [-> _]. done. }
  rewrite E1 in E. cbn in E.
  replace (0 + Z.max 0 (Z.quot N 4)) with (Z.quot N 4) in Hteam1
    by (clear - H4; lia).
  destruct (checkpoints_team state N c thread_num split (2 * N) Hc
              ltac:(lia) ltac:(rewrite INT_MAX_val in *; clear - Hs Hs1 HB; lia)
              ltac:(lia)
              (Z.to_nat (split - Z.quot split 4)) (Z.quot split 4 + 1) 0%nat
              (Z.quot N 4) false ws1 ws rounds Hteam1)
    as (k' & Hk' & Hteam'); [clear - H4; lia| |exact E|].
  { rewrite Z2Nat.id by (clear - Htodo; lia). exact Hbound. }
  exists k'. split; [clear - Hk' H41; lia|].
  destruct (Z.to_nat (split - Z.quot split 4)) eqn:Et; [|done].
  clear - Et Hs4. lia.
Qed.

(** X24: with a budget of at least 1000 and a board that has a legal
    cell, [take_action] returns a placement on a legal cell for the side
    to move: it does not pass while it can move. *)
Theorem take_action_finds_move (state : board) (N : Z) (c : R)
    (thread_num : nat) (g : engine) :
  (0 <= c)%R -> 1000 <= N -> (1 <= thread_num)%nat ->
  Z.of_nat thread_num * (2 * N) <= CInt.INT_MAX ->
  N * Z.quot N 1000 <= CInt.INT_MAX ->
  (exists i, i ∈ cells /\ legal state i = true) ->
  exists pos g',
    take_action state N c thread_num g
    = Some (place_action pos (who_take_turns state), g')
    /\ pos ∈ cells /\ legal state pos = true.
Proof.
  intros Hc HN HW HWB HsN (i0 & Hi0 & Hl0).
  assert (H2N : 2 * N <= CInt.INT_MAX) by nia.
  destruct (search_ok state N c thread_num g Hc ltac:(lia) HW HWB HsN)
    as (ws & rounds & E & _ & _ & Hok).
  destruct (decide_move_ok state thread_num _ (2 * N) ws Hok)
    as (a & Ea & Hcase & _); [lia|done|].
  unfold take_action. destruct (Z.eqb_spec N 0) as [?|_]; [lia|].
  rewrite E. cbn. rewrite Ea. cbn.
  destruct Hcase as [->|(pos & -> & Hpos & Hlegal)];
    [|by exists pos, (rng ws)].
  exfalso.
  destruct (search_team state N c thread_num g ws rounds Hc HN H2N E)
    as (k & Hk & Ht & Hr & Hall).
  destruct (lookup_lt_is_Some_2 (root_vec ws) 0%nat) as [h Hh]; [lia|].
  destruct (lookup_lt_is_Some_2 (average_selection ws) 0%nat) as [row Hrow];
    [lia|].
  destruct (Hall 0%nat h row Hh Hrow) as [(Hlive & Hrok & _) Hsync].
  specialize (Hsync eq_refl).
  destruct Hlive as ((Hinv & Hlinks & _) & _ & Hopen).
  destruct (Hopen Hk) as (r & Hroot & Hchild).
  { intros El.
    pose proof (proj2 (legal_cells_spec state i0) (conj Hi0 Hl0)) as Hin.
    rewrite El in Hin. by apply elem_of_nil in Hin. }
  destruct (child r) as [|x cs] eqn:Ec; [done|].
  assert (Hx : x ∈ child r) by (rewrite Ec; by left).
  destruct Hinv as [Hs Hcnt].
  destruct (shape_child h Hs _ _ x Hroot Hx) as (Hlt & Hcell & _ & m & Hm & _).
  pose proof (links_warm _ _ Hlinks x.2 m Hm ltac:(lia)) as Hwarm.
  pose proof (Hsync r x Hroot Hx) as Hentry.
  unfold total_at in Hentry. rewrite Hm in Hentry. cbn in Hentry.
  apply cells_spec in Hcell.
  unfold decide_move in Ea.
  destruct (aggregate (average_selection ws)) as [result|] eqn:Eagg;
    [|done].
  cbn in Ea. destruct (max_element result) as [[idx mx]|] eqn:Emax; [|done].
  cbn in Ea. destruct (Z.eqb_spec mx 0) as [->|]; [|done].
  destruct (aggregate_exact _ _ Eagg) as [Hlen Hcol].
  destruct (max_element_first _ _ _ Emax) as (_ & Hmaxall & _).
  destruct (lookup_lt_is_Some_2 result (Z.to_nat x.1)) as [s Hs']; [lia|].
  pose proof (Hcol _ _ Hs') as ->.
  pose proof (Hmaxall _ _ Hs') as Hle.
  pose proof (column_total_ge state (2 * N) (Z.to_nat x.1) (total_cnt m)
                (average_selection ws) row) as Hge.
  specialize (Hge ltac:(by eapply workers_rows_ok)).
  specialize (Hge ltac:(apply list_elem_of_lookup; by exists 0%nat) Hentry).
  lia.
Qed.

(** X25: after a search with a budget of at least 1000, the row of every
    worker holds, at the cell of each child of the worker's root, the
    visit count of that child, which is at least 1, and 0 at every other
    cell. *)
Theorem rows_are_visit_counts (state : board) (N : Z) (c : R)
    (thread_num : nat) (g : engine) :
  (0 <= c)%R -> 1000 <= N -> (1 <= thread_num)%nat ->
  Z.of_nat thread_num * (2 * N) <= CInt.INT_MAX ->
  N * Z.quot N 1000 <= CInt.INT_MAX ->
  exists ws rounds,
    search state N c thread_num g = Some (ws, rounds)
    /\ length (root_vec ws) = thread_num
    /\ length (average_selection ws) = thread_num
    /\ forall id h row,
         root_vec ws !! id = Some h ->
         average_selection ws !! id = Some row ->
         exists r,
           h !! 0%nat = Some r /\ length row = 81%nat
           /\ (forall x, x ∈ child r ->
                 row !! Z.to_nat x.1 = Some (total_at h x.2)
                 /\ 1 <= total_at h x.2)
           /\ (forall j e, row !! j = Some e -> e <> 0 ->
                 exists x, x ∈ child r /\ Z.to_nat x.1 = j).
Proof.
  intros Hc HN HW HWB HsN.
  assert (H2N : 2 * N <= CInt.INT_MAX) by nia.
  destruct (search_ok state N c thread_num g Hc ltac:(lia) HW HWB HsN)
    as (ws & rounds & E & _).
  destruct (search_team state N c thread_num g ws rounds Hc HN H2N E)
    as (k & Hk & Ht & Hr & Hall).
  exists ws, rounds. split; [exact E|]. split; [exact Ht|].
  split; [exact Hr|].
  intros id h row Hh Hrow.
  destruct (Hall id h row Hh Hrow) as [(Hlive & Hrok & Hrc) Hsync].
  specialize (Hsync eq_refl).
  destruct Hlive as (([Hs Hcnt] & Hlinks & _) & _).
  destruct (shape_root h Hs) as (r & Hroot & _).
  exists r. split; [exact Hroot|]. split; [apply Hrok|]. split.
  - intros x Hx. split; [by apply (Hsync r)|].
    destruct (shape_child h Hs _ _ x Hroot Hx) as (Hlt & _ & _ & m & Hm & _).
    pose proof (links_warm _ _ Hlinks x.2 m Hm ltac:(lia)) as Hwarm.
    unfold total_at. rewrite Hm. exact Hwarm.
  - intros j e He Hne. destruct (Hrc j e He Hne) as (r' & x & Hr' & Hx & Hj).
    rewrite Hroot in Hr'. inversion Hr'; subst r'. by exists x.
Qed.

End Search.

Arguments Node {board}.
Arguments position {board}.
Arguments win_cnt {board}.
Arguments total_cnt {board}.
Arguments place_pos {board}.
Arguments child {board}.
Arguments parent {board}.
Arguments new_node {board}.
Arguments Workers {board engine}.
Arguments root_vec {board engine}.
Arguments average_selection {board engine}.
Arguments rng {board engine}.

(** ** The player on the small rules engine *)

Module ToyRun.

Definition toy_node : Type := node Toy.board.
Definition toy_workers : Type := workers Toy.board Toy.engine.

Definition toy_select_root_to_leaf :=
  select_root_to_leaf Toy.board Toy.place.
Definition toy_simulate_winner :=
  simulate_winner Toy.board Toy.place Toy.who_take_turns
    Toy.engine Toy.shuffle.
Definition toy_back_propagate :=
  back_propagate Toy.board Toy.who_take_turns.
Definition toy_cycles :=
  cycles Toy.board Toy.place Toy.who_take_turns Toy.engine
    Toy.shuffle Toy.umap_insert.
Definition toy_run_MCTS :=
  run_MCTS Toy.board Toy.place Toy.who_take_turns Toy.engine
    Toy.shuffle Toy.umap_insert.
Definition toy_search :=
  search Toy.board Toy.place Toy.who_take_turns Toy.engine
    Toy.shuffle Toy.umap_insert.
Definition toy_take_action :=
  take_action Toy.board Toy.place Toy.who_take_turns Toy.engine
    Toy.shuffle Toy.umap_insert.

(** A fresh tree on the empty board. *)
Definition fresh : list toy_node := [new_node Toy.empty_board (-1)].

(** Two workers before the first parallel region. *)
Definition two_workers : toy_workers :=
  Workers (replicate 2 fresh) (replicate 2 (replicate 81 0)) 0%nat.

(** The keys and addresses of the children of the root of worker [id]. *)
Definition root_children (ws : toy_workers) (id : nat)
  : option (list (Z * ptr)) :=
  h ← root_vec ws !! id; child <$> h !! 0%nat.

End ToyRun.
(** ** The pattern tests of [class heuristic] *)

Section HeuristicFacts.

Import heuristic.

Variables size_x size_y : Z.
Variables empty hollow : Z.
Variable b : Z -> Z -> Z.

Local Abbreviation is_eye := (is_eye size_x size_y empty hollow b).
Local Abbreviation count_liberty := (count_liberty size_x size_y empty b).
Local Abbreviation is_atari := (is_atari size_x size_y empty hollow b).
Local Abbreviation count_corner_adjacent := (count_corner_adjacent size_x size_y b).
Local Abbreviation count_side_adjacent := (count_side_adjacent size_x size_y b).
Local Abbreviation cell_value := (cell_value size_x size_y empty hollow b).
Local Abbreviation value := (value size_x size_y empty hollow b).
Local Abbreviation on_board := (on_board size_x size_y).
Local Abbreviation off_board := (off_board size_x size_y).

Lemma off_board_on_board (x y : Z) : off_board x y = negb (on_board x y).
Proof.
  unfold heuristic.off_board, heuristic.on_board.
  destruct (Z.ltb_spec x 0), (Z.leb_spec size_x x), (Z.ltb_spec y 0),
    (Z.leb_spec size_y y), (Z.leb_spec 0 x), (Z.ltb_spec x size_x),
    (Z.leb_spec 0 y), (Z.ltb_spec y size_y); cbn; try reflexivity; lia.
Qed.

Lemma int_of_range (t : bool) : 0 <= int_of t <= 1.
Proof. destruct t; cbn; lia. Qed.

(** One neighbour cannot both block an eye of [who] and be a liberty. *)
Lemma blocked_not_free (who x y : Z) :
  who <> empty -> hollow <> empty ->
  off_board x y || (b x y =? who) || (b x y =? hollow) = true ->
  on_board x y && (b x y =? empty) = false.
Proof.
  intros Hw Hh. rewrite off_board_on_board.
  destruct (on_board x y); cbn; [|reflexivity].
  destruct (Z.eqb_spec (b x y) who), (Z.eqb_spec (b x y) hollow),
    (Z.eqb_spec (b x y) empty); cbn; congruence.
Qed.

Lemma count_liberty_range (x y : Z) : 0 <= count_liberty x y <= 4.
Proof.
  unfold heuristic.count_liberty.
  repeat match goal with
         | |- context [int_of ?t] =>
             let H := fresh in
             pose proof (int_of_range t) as H;
             generalize dependent (int_of t); intros
         end.
  lia.
Qed.

Lemma count_corner_adjacent_range (x y who : Z) :
  0 <= count_corner_adjacent x y who <= 4.
Proof.
  unfold heuristic.count_corner_adjacent.
  repeat match goal with
         | |- context [int_of ?t] =>
             let H := fresh in
             pose proof (int_of_range t) as H;
             generalize dependent (int_of t); intros
         end.
  lia.
Qed.

Lemma eye_facts (x y who : Z) :
  who <> empty -> hollow <> empty ->
  is_eye x y who = true ->
  on_board x y = true /\ b x y = empty /\ count_liberty x y = 0.
Proof.
  intros Hw Hh. unfold heuristic.is_eye.
  destruct (off_board x y || negb (b x y =? empty)) eqn:E; [discriminate|].
  apply orb_false_elim in E as [E1 E2].
  rewrite off_board_on_board in E1. apply negb_false_iff in E1, E2.
  apply Z.eqb_eq in E2.
  intros H.
  apply andb_prop in H as [H H4]. apply andb_prop in H as [H H3].
  apply andb_prop in H as [H1 H2].
  split; [exact E1|]. split; [exact E2|].
  unfold heuristic.count_liberty.
  rewrite (blocked_not_free who _ _ Hw Hh H1),
    (blocked_not_free who _ _ Hw Hh H2),
    (blocked_not_free who _ _ Hw Hh H3),
    (blocked_not_free who _ _ Hw Hh H4).
  reflexivity.
Qed.

(** X11: an eye of [who] is an empty point of the board without any
    liberty: every neighbour is the edge, a stone of [who] or a hollow
    point, so none of them is empty. *)
Theorem eye_has_no_liberty (x y who : Z) :
  who <> empty -> hollow <> empty ->
  is_eye x y who = true ->
  on_board x y = true /\ b x y = empty /\ count_liberty x y = 0
  /\ is_atari x y who = false.
Proof.
  intros Hw Hh H.
  destruct (eye_facts x y who Hw Hh H) as (H1 & H2 & H3).
  repeat split; try assumption.
  unfold heuristic.is_atari.
  fold (count_liberty x y). rewrite H3. cbn. apply andb_false_r.
Qed.

(** X12: a point in atari has exactly one liberty, and it is an eye of
    neither colour. *)
Theorem atari_excludes_eye (x y who who' : Z) :
  who' <> empty -> hollow <> empty ->
  is_atari x y who = true ->
  count_liberty x y = 1 /\ is_eye x y who' = false.
Proof.
  intros Hw Hh H. unfold heuristic.is_atari in H.
  apply andb_prop in H as [_ H]. apply Z.eqb_eq in H.
  split; [exact H|].
  destruct (is_eye x y who') eqn:E; [|reflexivity].
  destruct (eye_facts x y who' Hw Hh E) as (_ & _ & H0). lia.
Qed.

Lemma side_and_liberty (x y who : Z) :
  who <> empty ->
  int_of (on_board x y && (b x y =? who))
  + int_of (on_board x y && (b x y =? empty)) <= 1.
Proof.
  intros Hw. destruct (on_board x y); cbn; [|lia].
  destruct (Z.eqb_spec (b x y) who), (Z.eqb_spec (b x y) empty); cbn;
    try lia; congruence.
Qed.

Lemma two_colours (x y who who' : Z) :
  who <> who' ->
  int_of (on_board x y && (b x y =? who))
  + int_of (on_board x y && (b x y =? who')) <= 1.
Proof.
  intros Hw. destruct (on_board x y); cbn; [|lia].
  destruct (Z.eqb_spec (b x y) who), (Z.eqb_spec (b x y) who'); cbn;
    try lia; congruence.
Qed.

(** X13: around one point, the liberties and the stones of one colour
    beside it are at most four together, and so are the stones of two
    different colours at its corners. *)
Theorem neighbour_counts_bounded (x y who who' : Z) :
  who <> empty -> who <> who' ->
  0 <= count_liberty x y
  /\ 0 <= count_side_adjacent x y who
  /\ count_side_adjacent x y who + count_liberty x y <= 4
  /\ 0 <= count_corner_adjacent x y who
  /\ count_corner_adjacent x y who + count_corner_adjacent x y who' <= 4.
Proof.
  intros Hw Hd.
  pose proof (count_liberty_range x y).
  pose proof (count_corner_adjacent_range x y who).
  split; [lia|].
  assert (0 <= count_side_adjacent x y who) as Hs.
  { unfold heuristic.count_side_adjacent.
    repeat match goal with
           | |- context [int_of ?t] =>
               let H := fresh in
               pose proof (int_of_range t) as H;
               generalize dependent (int_of t); intros
           end.
    lia. }
  split; [exact Hs|]. split.
  - unfold heuristic.count_side_adjacent, heuristic.count_liberty.
    pose proof (side_and_liberty (x + 0) (y - 1) who Hw).
    pose proof (side_and_liberty (x - 1) (y + 0) who Hw).
    pose proof (side_and_liberty (x + 1) (y + 0) who Hw).
    pose proof (side_and_liberty (x + 0) (y + 1) who Hw).
    lia.
  - split; [lia|].
    unfold heuristic.count_corner_adjacent.
    pose proof (two_colours (x - 1) (y - 1) who who' Hd).
    pose proof (two_colours (x + 1) (y - 1) who who' Hd).
    pose proof (two_colours (x - 1) (y + 1) who who' Hd).
    pose proof (two_colours (x + 1) (y + 1) who who' Hd).
    lia.
Qed.

Lemma cell_value_range (x y who : Z) :
  who <> empty -> hollow <> empty ->
  0 <= cell_value x y who <= 32.
Proof.
  intros Hw Hh. unfold heuristic.cell_value.
  pose proof (count_liberty_range x y).
  pose proof (count_corner_adjacent_range x y who).
  destruct (is_eye x y who) eqn:E.
  - destruct (eye_facts x y who Hw Hh E) as (_ & _ & H1).
    pose proof (int_of_range (is_atari x y who)).
    destruct (is_atari x y who) eqn:A.
    + unfold heuristic.is_atari in A. apply andb_prop in A as [_ A].
      apply Z.eqb_eq in A. lia.
    + cbn [int_of]. lia.
  - destruct (is_atari x y who) eqn:A.
    + unfold heuristic.is_atari in A. apply andb_prop in A as [_ A].
      apply Z.eqb_eq in A. cbn [int_of]. lia.
    + cbn [int_of]. lia.
Qed.

Lemma sum_range (f : Z -> Z) (hi : Z) (l : list Z) (a : Z) :
  (forall x, 0 <= f x <= hi) ->
  a <= fold_left (fun s x => s + f x) l a <= a + hi * Z.of_nat (length l).
Proof.
  intros Hf. revert a. induction l as [|x l IH]; intros a; cbn [fold_left length].
  - lia.
  - specialize (IH (a + f x)). specialize (Hf x). lia.
Qed.

Lemma rows_range (f : Z -> Z -> Z) (hi : Z) (row l : list Z) (a : Z) :
  (forall x y, 0 <= f x y <= hi) ->
  a <= fold_left (fun s y => fold_left (fun s x => s + f x y) row s) l a
    <= a + hi * Z.of_nat (length row) * Z.of_nat (length l).
Proof.
  intros Hf. revert a. induction l as [|y l IH]; intros a; cbn [fold_left length].
  - lia.
  - specialize (IH (fold_left (fun s x => s + f x y) row a)).
    pose proof (sum_range (fun x => f x y) hi row a (fun x => Hf x y)).
    nia.
Qed.

(** X14: on a board of [size_x] by [size_y] points the static value of a
    position lies between 0 and 32 per point, so on the 9 x 9 board the
    [int] sum is at most 2592. *)
Theorem value_bounded (who : Z) :
  who <> empty -> hollow <> empty -> 0 <= size_x -> 0 <= size_y ->
  0 <= value who <= 32 * size_x * size_y.
Proof.
  intros Hw Hh Hx Hy. unfold heuristic.value.
  pose proof (rows_range (fun x y => cell_value x y who) 32
                (seqZ 0 size_x) (seqZ 0 size_y) 0
                (fun x y => cell_value_range x y who Hw Hh)) as H.
  rewrite !length_seqZ in H. rewrite !Z2Nat.id in H by lia. lia.
Qed.

End HeuristicFacts.
(** ** [heuristic_agent::take_action] *)

Section HeuristicAgentFacts.

Import heuristic_agent.

Variable board : Type.
Variable test : board -> Z -> Z -> Z -> bool.
Variable action_value : board -> Z -> Z -> Z -> Z * board.
Variable position : Z -> point.
Variable engine : Type.
Variable shuffle : list Z -> engine -> list Z * engine.
Variable black : Z.

Local Abbreviation best_move := (best_move board test action_value position).
Local Abbreviation take_action :=
  (take_action board test action_value position engine shuffle black).

Local Abbreviation legal_move := (legal_move board test position).

(** The loop leaves [max_index] alone or sets it to the index of a legal
    move. *)
Lemma best_move_index (state : board) (who : Z) (space : list Z) :
  forall (k : Z) (after : board) (mi ms : Z),
    0 <= k ->
    let r := (best_move state who space k after mi ms).1 in
    r = mi
    \/ (k <= r /\ exists m, space !! Z.to_nat (r - k) = Some m
                          /\ legal_move state who m).
Proof.
  induction space as [|m space IH]; intros k after mi ms Hk; cbn zeta.
  - left. reflexivity.
  - cbn [heuristic_agent.best_move].
    assert (forall after' mi' ms',
      (let r := (best_move state who space (k + 1) after' mi' ms').1 in
       r = mi'
       \/ (k + 1 <= r /\ exists m', space !! Z.to_nat (r - (k + 1)) = Some m'
                                  /\ legal_move state who m')) ->
      mi' = mi \/ (mi' = k /\ legal_move state who m) ->
      let r := (best_move state who space (k + 1) after' mi' ms').1 in
      r = mi
      \/ (k <= r /\ exists m', (m :: space) !! Z.to_nat (r - k) = Some m'
                             /\ legal_move state who m')) as Step.
    { intros after' mi' ms' H Hmi. cbn zeta in *.
      destruct H as [H|(H1 & m' & H2 & H3)].
      - rewrite H. destruct Hmi as [->|[-> Hm]]; [left; reflexivity|].
        right. split; [lia|]. exists m. rewrite Z.sub_diag. split; [reflexivity|exact Hm].
      - right. split; [lia|]. exists m'. split; [|exact H3].
        replace (Z.to_nat (_ - k)) with (S (Z.to_nat
          ((best_move state who space (k + 1) after' mi' ms').1 - (k + 1))))
          by lia.
        exact H2. }
    destruct (test state (x (position m)) (y (position m)) who) eqn:T.
    + destruct (ms <? (action_value after (x (position m)) (y (position m)) who).1).
      * apply Step; [apply IH; lia|]. right. split; [reflexivity|exact T].
      * apply Step; [apply IH; lia|]. left. reflexivity.
    + apply Step; [apply IH; lia|]. left. reflexivity.
Qed.

(** Without a legal move in [space] the loop leaves [max_index] alone. *)
Lemma best_move_none (state : board) (who : Z) (space : list Z) :
  (forall m, m ∈ space -> test state (x (position m)) (y (position m)) who = false) ->
  forall (k : Z) (after : board) (mi ms : Z),
    best_move state who space k after mi ms = (mi, ms).
Proof.
  induction space as [|m space IH]; intros Hno k after mi ms;
    cbn [heuristic_agent.best_move].
  - reflexivity.
  - rewrite (Hno m) by apply list_elem_of_here.
    apply IH. intros m' Hm'. apply Hno. apply list_elem_of_further, Hm'.
Qed.

(** X15: whenever [heuristic_agent::take_action] returns, it returns a
    placement, never the empty action: either the centre point 40, which
    the board accepts, or a move of the shuffled [space] that the board
    accepts. *)
Theorem heuristic_move_legal (who : Z) (space : list Z) (g : engine)
    (state : board) (a : option Z) (space' : list Z) (g' : engine) :
  take_action who space g state = Some (a, space', g') ->
  exists m, a = Some m
    /\ ((m = 40 /\ test state 4 4 who = true)
        \/ (m ∈ (shuffle space g).1 /\ legal_move state who m)).
Proof.
  unfold heuristic_agent.take_action.
  destruct ((who =? black) && test state 4 4 who) eqn:B.
  - intros [= <- <- <-]. apply andb_prop in B as [_ B].
    exists 40. split; [reflexivity|]. left. split; [reflexivity|exact B].
  - pose proof (best_move_index state who (shuffle space g).1 0 state (-1)
                  (-9999) ltac:(lia)) as H.
    cbn zeta in H.
    set (max_index := (best_move state who (shuffle space g).1 0 state (-1)
                         (-9999)).1) in *.
    unfold at_index.
    destruct (Z.leb_spec 0 max_index) as [Hpos|Hneg]; [|discriminate].
    destruct ((shuffle space g).1 !! Z.to_nat max_index) as [m|] eqn:L;
      [|discriminate].
    cbn [mbind option_bind].
    destruct (negb _ && test state 4 4 who) eqn:C.
    + intros [= <- <- <-]. apply andb_prop in C as [_ C].
      exists 40. split; [reflexivity|]. left. split; [reflexivity|exact C].
    + intros [= <- <- <-].
      destruct (Z.eqb_spec max_index (-1)) as [E|_]; [lia|].
      exists m. split; [reflexivity|]. right.
      destruct H as [H|(_ & m' & H1 & H2)]; [lia|].
      rewrite Z.sub_0_r, L in H1. injection H1 as <-.
      split; [|exact H2].
      apply list_elem_of_lookup. exists (Z.to_nat max_index). exact L.
Qed.

(** X16: when no move of the shuffled [space] is legal and the centre is
    not either, [heuristic_agent::take_action] reads [space[-1]]: the
    call has no defined result, where [player::take_action] returns the
    empty action. *)
Theorem heuristic_no_move_undefined (who : Z) (space : list Z) (g : engine)
    (state : board) :
  (forall m, m ∈ (shuffle space g).1 ->
             test state (x (position m)) (y (position m)) who = false) ->
  test state 4 4 who = false ->
  take_action who space g state = None.
Proof.
  intros Hno Hc. unfold heuristic_agent.take_action.
  rewrite Hc, andb_false_r.
  cbn zeta. rewrite (best_move_none state who _ Hno). reflexivity.
Qed.


End HeuristicAgentFacts.
(** ** The properties of an agent *)

Section MetaFacts.

Import agent.
Local Open Scope string_scope.

Lemma defaults_words (args : string) :
  stream_words ("name=unknown role=unknown " ++ args)
  = "name=unknown" :: "role=unknown" :: stream_words args.
Proof. reflexivity. Qed.

Lemma player_words (args : string) :
  stream_words ("name=random role=unknown " ++ args)
  = "name=random" :: "role=unknown" :: stream_words args.
Proof. reflexivity. Qed.

(** After the words [ws] the map holds for [k] the value of the last
    word with key [k], or what it held before. *)
Lemma fold_set_pair (k : string) (ws : list string) :
  forall m : gmap string string,
    fold_left set_pair ws m !! k
    = match last (filter (fun w => key_of w = k) ws) with
      | Some w => Some (value_of w)
      | None => m !! k
      end.
Proof.
  induction ws as [|w ws IH]; intros m; cbn [fold_left].
  - reflexivity.
  - rewrite IH, filter_cons. unfold set_pair.
    destruct (decide (key_of w = k)) as [E|E].
    + destruct (filter _ ws) as [|w' l] eqn:F.
      * cbn. rewrite E. apply lookup_insert_eq.
      * change (last (w :: w' :: l)) with (last (w' :: l)).
        destruct (last (w' :: l)) eqn:L; [reflexivity|].
        apply last_None in L. discriminate.
    + destruct (last _); [reflexivity|].
      apply lookup_insert_ne. exact E.
Qed.

Lemma property_last (args key : string) :
  property key (agent.agent args)
  = value_of <$> last (filter (fun w => key_of w = key)
                         ("name=unknown" :: "role=unknown"
                          :: stream_words args)).
Proof.
  unfold property, agent.agent. rewrite defaults_words, fold_set_pair.
  destruct (last _); reflexivity.
Qed.

(** X18: [property(key)] of a constructed agent is the value of the last
    word of ["name=unknown role=unknown " + args] whose key is [key], and
    throws when there is none: a later word overrides an earlier one and
    the two defaults, and [name()] and [role()] never throw. *)
Theorem agent_property_last (args key : string) :
  property key (agent.agent args)
  = value_of <$> last (filter (fun w => key_of w = key)
                         ("name=unknown" :: "role=unknown"
                          :: stream_words args))
  /\ is_Some (name (agent.agent args))
  /\ is_Some (role (agent.agent args)).
Proof.
  split; [apply property_last|].
  unfold name, role. rewrite !property_last.
  rewrite !(filter_cons _ "name=unknown"), !(filter_cons _ "role=unknown").
  split.
  - destruct (decide (key_of "name=unknown" = "name")) as [_|E];
      [|destruct E; reflexivity].
    rewrite last_cons. destruct (last _); eexists; reflexivity.
  - destruct (decide (key_of "name=unknown" = "role")); [discriminate|].
    destruct (decide (key_of "role=unknown" = "role")) as [_|E];
      [|destruct E; reflexivity].
    rewrite last_cons. destruct (last _); eexists; reflexivity.
Qed.

Lemma find_append (k v : string) :
  find "=" k = None ->
  find "=" (k ++ String "=" v) = Some (String.length k)
  /\ take_chars (String.length k) (k ++ String "=" v) = k
  /\ drop_chars (String.length k + 1) (k ++ String "=" v) = v.
Proof.
  induction k as [|a k IH].
  - intros _. cbn. repeat split; reflexivity.
  - change (String a k ++ String "=" v) with (String a (k ++ String "=" v)).
    cbn [find String.length take_chars drop_chars Nat.add].
    destruct (a =? "=")%char; [discriminate|].
    destruct (find "=" k) eqn:F; [discriminate|]. intros _.
    destruct (IH eq_refl) as (H1 & H2 & H3).
    rewrite H1, H2, H3. repeat split; reflexivity.
Qed.

(** X19: after [notify(key + "=" + value)], for a key without ['='],
    [property(key)] is [value], and every other property is as before. *)
Theorem notify_property (key value : string) (m : gmap string string) :
  find "=" key = None ->
  property key (notify (key ++ "=" ++ value) m) = Some value
  /\ forall key', key' <> key ->
       property key' (notify (key ++ "=" ++ value) m) = property key' m.
Proof.
  intros Hk. unfold property, notify, set_pair, key_of, value_of.
  change (key ++ "=" ++ value) with (key ++ String "=" value).
  destruct (find_append key value Hk) as (-> & -> & ->).
  split; [apply lookup_insert_eq|].
  intros key' Hne. apply lookup_insert_ne. congruence.
Qed.

(** X20: a [player] (or [heuristic_agent]) whose arguments set no
    [role] is never constructed.  With a [seed] word whose value cannot be
    converted the constructor of [random_agent] throws first (or, for a
    value outside the range of [int], has no defined behaviour);
    otherwise the constructor throws [invalid_argument], for the name or
    with "invalid role: unknown". *)
Theorem player_needs_role (to_int : string -> outcome Z) (args : string) :
  (forall w, w ∈ stream_words args -> key_of w <> "role") ->
  (forall r, player to_int args <> Returned r)
  /\ (player to_int args = Thrown "invalid role: unknown"
      \/ (exists n, player to_int args = Thrown ("invalid name: " ++ n))
      \/ (exists value what,
            property "seed" (agent.agent ("name=random role=unknown " ++ args))
            = Some value
            /\ to_int value = Thrown what
            /\ player to_int args = Thrown what)
      \/ (exists value,
            property "seed" (agent.agent ("name=random role=unknown " ++ args))
            = Some value
            /\ to_int value = Undefined
            /\ player to_int args = Undefined))
  /\ ((forall w, w ∈ stream_words args -> key_of w <> "seed") ->
      player to_int args = Thrown "invalid role: unknown"
      \/ exists n, player to_int args = Thrown ("invalid name: " ++ n)).
Proof.
  intros Hno.
  set (m := agent.agent ("name=random role=unknown " ++ args)).
  assert (Hrole : role m = Some "unknown").
  { unfold role, m. rewrite property_last, player_words.
    assert (filter (fun w => key_of w = "role") (stream_words args) = [])
      as Hf.
    { induction (stream_words args) as [|w ws IH]; [reflexivity|].
      rewrite filter_cons.
      destruct (decide (key_of w = "role")) as [E|_].
      - destruct (Hno w); [apply list_elem_of_here|exact E].
      - apply IH. intros w' Hw'. apply Hno, list_elem_of_further, Hw'. }
    assert (filter (fun w => key_of w = "role")
              ("name=unknown" :: "role=unknown" :: "name=random"
               :: "role=unknown" :: stream_words args)
            = ["role=unknown"; "role=unknown"]) as ->.
    { rewrite !filter_cons, Hf. reflexivity. }
    reflexivity. }
  assert (Hname : exists n, name m = Some n).
  { unfold name, m. rewrite property_last, player_words.
    assert (filter (fun w => key_of w = "name")
              ("name=unknown" :: "role=unknown" :: "name=random"
               :: "role=unknown" :: stream_words args)
            = "name=unknown" :: "name=random"
              :: filter (fun w => key_of w = "name") (stream_words args))
      as ->.
    { rewrite !filter_cons. reflexivity. }
    rewrite last_cons_cons.
    destruct (last (_ :: filter (fun w => key_of w = "name") _))
      as [w|] eqn:L; [|apply last_None in L; discriminate].
    by eexists. }
  destruct Hname as [n Hname].
  assert (Hbody : forall seed,
            match name m, role m with
            | Some n, Some r =>
                if find_first_of "[]():; " n
                then Thrown ("invalid name: " ++ n)
                else
                  let who := if (r =? "black") then black else empty_piece in
                  let who := if (r =? "white") then white else who in
                  if piece_eqb who empty_piece
                  then Thrown ("invalid role: " ++ r)
                  else Returned (m, seed, who)
            | _, _ => Thrown "out_of_range"
            end
            = (if find_first_of "[]():; " n
               then Thrown ("invalid name: " ++ n)
               else @Thrown (gmap string string * option Z * piece_type)
                      "invalid role: unknown")).
  { intros seed. rewrite Hname, Hrole. by destruct (find_first_of _ n). }
  assert (Hcases :
    (player to_int args
     = (if find_first_of "[]():; " n
        then Thrown ("invalid name: " ++ n)
        else Thrown "invalid role: unknown")
     /\ (m !! "seed" = None
         \/ exists value seed, m !! "seed" = Some value
                               /\ to_int value = Returned seed))
    \/ (exists value what, m !! "seed" = Some value
                           /\ to_int value = Thrown what
                           /\ player to_int args = Thrown what)
    \/ (exists value, m !! "seed" = Some value
                      /\ to_int value = Undefined
                      /\ player to_int args = Undefined)).
  { unfold player, random_agent. fold m.
    destruct (m !! "seed") as [value|] eqn:Es.
    - destruct (to_int value) as [seed|what|] eqn:Et.
      + left. split; [apply Hbody|]. right. by exists value, seed.
      + right. left. by exists value, what.
      + right. right. by exists value.
    - left. split; [apply Hbody|]. by left. }
  split; [|split].
  - intros r Hr.
    destruct Hcases as [[E _]|[(v & e & _ & _ & E)|(v & _ & _ & E)]];
      rewrite E in Hr; [|done..].
    by destruct (find_first_of _ n).
  - destruct Hcases as [[E _]|[(v & e & H1 & H2 & E)|(v & H1 & H2 & E)]].
    + rewrite E. destruct (find_first_of _ n); [|by left].
      right. left. by exists n.
    + right. right. left. by exists v, e.
    + right. right. right. by exists v.
  - intros Hseed.
    assert (Hnone : m !! "seed" = None).
    { change (m !! "seed") with (property "seed" m).
      unfold m. rewrite property_last, player_words.
      assert (filter (fun w => key_of w = "seed") (stream_words args) = [])
        as Hf.
      { clear -Hseed.
        induction (stream_words args) as [|w ws IH]; [reflexivity|].
        rewrite filter_cons.
        destruct (decide (key_of w = "seed")) as [E|_].
        - destruct (Hseed w); [apply list_elem_of_here|exact E].
        - apply IH. intros w' Hw'. apply Hseed, list_elem_of_further, Hw'. }
      assert (filter (fun w => key_of w = "seed")
                ("name=unknown" :: "role=unknown" :: "name=random"
                 :: "role=unknown" :: stream_words args) = []) as ->.
      { rewrite !filter_cons, Hf. reflexivity. }
      reflexivity. }
    destruct Hcases as [[E _]|[(v & e & H1 & _)|(v & H1 & _)]];
      [|congruence..].
    rewrite E. destruct (find_first_of _ n); [|by left].
    right. by exists n.
Qed.

End MetaFacts.

(** ** [my_slider::extract_feature] *)

(** X21: for cells below 16 the feature index of four cells addresses an
    entry of its weight table, and two boards get the same index only if
    they agree on the four cells. *)
Theorem extract_feature_index (after after' : Z -> Z) (a b c d : Z) :
  (forall k, 0 <= after k < 16) -> (forall k, 0 <= after' k < 16) ->
  0 <= extract_feature after a b c d < table_size
  /\ (extract_feature after a b c d = extract_feature after' a b c d ->
      after a = after' a /\ after b = after' b /\ after c = after' c
      /\ after d = after' d).
Proof.
  intros H H'. unfold extract_feature, table_size.
  pose proof (H a). pose proof (H b). pose proof (H c). pose proof (H d).
  pose proof (H' a). pose proof (H' b). pose proof (H' c). pose proof (H' d).
  split; lia.
Qed.
(** ** [random_placer::take_action] *)

Section PlacerFacts.

Import random_placer.

Variable engine : Type.
Variable shuffle : list Z -> engine -> list Z * engine.
Hypothesis shuffle_permutes : forall l g, (shuffle l g).1 ≡ₚ l.

Variable after : Z -> Z.
Variable last_slide : Z.
Variable bag_count : Z -> nat.
Variable hint : Z.

Local Abbreviation take_action :=
  (take_action engine shuffle after last_slide bag_count hint).
Local Abbreviation space_of_last := (space_of_last last_slide).
Local Abbreviation fill_bag := (fill_bag bag_count).
Local Abbreviation first_empty := (first_empty after).

Lemma first_empty_some (space : list Z) (pos : Z) :
  first_empty space = Some pos -> pos ∈ space /\ after pos = 0.
Proof.
  induction space as [|p space IH]; cbn [random_placer.first_empty];
    [discriminate|].
  destruct (Z.eqb_spec (after p) 0) as [E|E]; cbn [negb].
  - intros [= <-]. split; [apply list_elem_of_here|exact E].
  - intros H. destruct (IH H) as [H1 H2].
    split; [apply list_elem_of_further, H1|exact H2].
Qed.

Lemma first_empty_none (space : list Z) :
  first_empty space = None <-> forall pos, pos ∈ space -> after pos <> 0.
Proof.
  induction space as [|p space IH]; cbn [random_placer.first_empty].
  - split; [|reflexivity]. intros _ pos H. inversion H.
  - destruct (Z.eqb_spec (after p) 0) as [E|E]; cbn [negb].
    + split; [discriminate|]. intros H. destruct (H p); [|exact E].
      apply list_elem_of_here.
    + rewrite IH. split.
      * intros H pos Hp. apply elem_of_cons in Hp as [->|Hp]; [exact E|].
        apply H, Hp.
      * intros H pos Hp. apply H, list_elem_of_further, Hp.
Qed.

Lemma fill_bag_tiles (bag : list Z) (t : Z) :
  fill_bag = Some bag -> t ∈ bag -> t = 1 \/ t = 2 \/ t = 3.
Proof.
  unfold random_placer.fill_bag. cbn [flat_map].
  destruct (_ <=? 3)%nat; [|discriminate]. intros [= <-].
  rewrite app_nil_r, !elem_of_app.
  intros [H|[H|H]]; apply elem_of_replicate in H as [-> _]; tauto.
Qed.

Lemma pop_some (bag : list Z) (t : Z) (rest : list Z) :
  pop bag = Some (t, rest) -> bag = rest ++ [t].
Proof.
  unfold pop. destruct (rev bag) as [|t' r] eqn:E; [discriminate|].
  intros [= <- <-]. rewrite <- (rev_involutive bag), E. reflexivity.
Qed.

(** X22: a placement of [random_placer::take_action] goes to an empty
    cell of the side that the last slide selects; the new hint is a tile
    1, 2 or 3 of the bag, and the tile placed is the old hint when there
    is one and such a tile otherwise. *)
Theorem placer_places_on_empty (g g' : engine) (pos tile hint' : Z) :
  take_action g = Some (Some (pos, tile, hint'), g') ->
  after pos = 0
  /\ (exists space, spaces !! Z.to_nat last_slide = Some space /\ pos ∈ space)
  /\ (hint <> 0 -> tile = hint)
  /\ (hint = 0 -> tile = 1 \/ tile = 2 \/ tile = 3)
  /\ (hint' = 1 \/ hint' = 2 \/ hint' = 3).
Proof.
  unfold random_placer.take_action.
  destruct space_of_last as [space|] eqn:S; [|discriminate].
  cbn [mbind option_bind].
  destruct (first_empty _) as [p|] eqn:F; [|discriminate].
  destruct fill_bag as [bag|] eqn:B; [|discriminate].
  cbn [mbind option_bind].
  set (bg := shuffle bag (shuffle space g).2).
  assert (forall t, t ∈ bg.1 -> t = 1 \/ t = 2 \/ t = 3) as Hbag.
  { intros t Ht. apply (fill_bag_tiles bag t B).
    subst bg. rewrite (shuffle_permutes bag) in Ht. exact Ht. }
  destruct (first_empty_some _ _ F) as [Hp He].
  rewrite (shuffle_permutes space) in Hp.
  unfold random_placer.space_of_last in S.
  destruct (0 <=? last_slide); [|discriminate].
  destruct (Z.eqb_spec hint 0) as [Hh|Hh]; cbn [negb].
  - destruct (pop bg.1) as [[t r]|] eqn:P1; [|discriminate].
    cbn [mbind option_bind fst snd].
    destruct (pop r) as [[t' r']|] eqn:P2; [|discriminate].
    cbn [mbind option_bind fst snd]. intros [= <- <- <- <-].
    apply pop_some in P1, P2. subst r.
    split; [exact He|]. split; [exists space; split; [exact S|exact Hp]|].
    split; [intros Hne; destruct (Hne Hh)|]. split.
    + intros _. apply Hbag. rewrite P1, elem_of_app, list_elem_of_singleton.
      right. reflexivity.
    + apply Hbag. rewrite P1, !elem_of_app, list_elem_of_singleton.
      left. right. reflexivity.
  - cbn [mbind option_bind fst snd].
    destruct (pop bg.1) as [[t r]|] eqn:P1; [|discriminate].
    cbn [mbind option_bind fst snd]. intros [= <- <- <- <-].
    apply pop_some in P1.
    split; [exact He|]. split; [exists space; split; [exact S|exact Hp]|].
    split; [intros _; reflexivity|].
    split; [intros H0; destruct (Hh H0)|].
    apply Hbag. rewrite P1, elem_of_app, list_elem_of_singleton.
    right. reflexivity.
Qed.

(** X23: [random_placer::take_action] returns the empty action exactly
    when the side that the last slide selects has no empty cell. *)
Theorem placer_passes_iff_full (g : engine) (space : list Z) :
  spaces !! Z.to_nat last_slide = Some space -> 0 <= last_slide ->
  (exists g', take_action g = Some (None, g'))
  <-> forall pos, pos ∈ space -> after pos <> 0.
Proof.
  intros S Hl. unfold random_placer.take_action, random_placer.space_of_last.
  destruct (Z.leb_spec 0 last_slide); [|lia].
  rewrite S. cbn [mbind option_bind].
  split.
  - intros [g' Hres] pos Hp.
    destruct (first_empty _) as [p|] eqn:F.
    + destruct fill_bag; [|discriminate]. cbn [mbind option_bind] in Hres.
      destruct (if negb (hint =? 0) then _ else _) as [tb|];
        [|discriminate].
      cbn [mbind option_bind] in Hres.
      destruct (pop tb.2); discriminate.
    + apply (proj1 (first_empty_none _) F).
      rewrite (shuffle_permutes space). exact Hp.
  - intros Hfull.
    assert (first_empty (shuffle space g).1 = None) as ->.
    { apply first_empty_none. intros pos Hp. apply Hfull.
      rewrite (shuffle_permutes space) in Hp. exact Hp. }
    eexists. reflexivity.
Qed.

End PlacerFacts.

(** ** The small rules engine meets the assumptions *)

Lemma toy_shuffle_perm (l : list Z) (g : Toy.engine) :
  (Toy.shuffle l g).1 ≡ₚ l.
Proof.
  cbn. unfold rotate. rewrite Permutation_app_comm. by rewrite take_drop.
Qed.

Lemma toy_place_illegal (b : Toy.board) (i : Z) :
  (Toy.place b i).2 = false -> (Toy.place b i).1 = b.
Proof. unfold Toy.place. destruct (_ && _ && _); cbn; done. Qed.

Lemma toy_umap_insert_perm (k : Z) (v : ptr) (m : list (Z * ptr)) :
  k ∉ m.*1 -> Toy.umap_insert k v m ≡ₚ (k, v) :: m.
Proof. done. Qed.

Lemma toy_full_board_stuck : no_legal Toy.board Toy.place Toy.full_board cells.
Proof.
  apply Forall_forall. intros i Hi. unfold legal, Toy.place. cbn [Toy.stones Toy.full_board].
  assert (existsb (Z.eqb i) cells = true) as ->.
  { apply existsb_exists. exists i. split; [by apply list_elem_of_In|].
    apply Z.eqb_refl. }
  by rewrite andb_false_r.
Qed.

(** ** The theorems at concrete inputs *)




Lemma back_propagate_counts_witness :
  exists h', ToyRun.toy_back_propagate [0%nat] white ToyRun.fresh = Some h'
             /\ total_cnt <$> h' !! 0%nat = Some 1.
Proof.
  destruct (back_propagate_counts Toy.board Toy.who_take_turns white
              [0%nat] ToyRun.fresh) as (h' & E & Hin & _).
  - apply NoDup_singleton.
  - intros p Hp. apply list_elem_of_singleton in Hp as ->.
    eexists. split; [reflexivity|]. cbn.
    rewrite INT_MIN_val, INT_MAX_val. lia.
  - exists h'. split; [exact E|].
    destruct (Hin 0%nat (new_node Toy.empty_board (-1)))
      as (n' & Hn' & Ht & _); [by left|reflexivity|].
    rewrite Hn'. cbn. by rewrite Ht.
Defined.

Lemma visit_conservation_witness :
  exists h' g' root,
    ToyRun.toy_cycles 3 1%R 0%nat (ToyRun.fresh, 0%nat) = Some (h', g')
    /\ h' !! 0%nat = Some root /\ total_cnt root = 3.
Proof.
  destruct (visit_conservation Toy.board Toy.place Toy.who_take_turns
              Toy.engine Toy.shuffle Toy.umap_insert toy_shuffle_perm
              toy_umap_insert_perm Toy.empty_board 1%R 0%nat 3)
    as (h' & g' & root & E & _ & Hr & Ht).
  - lra.
  - rewrite INT_MAX_val. lia.
  - exists h', g', root. split; [exact E|]. split; [exact Hr|exact Ht].
Defined.

Lemma simulate_winner_terminates_witness :
  exists played q' w,
    ToyRun.toy_simulate_winner ToyRun.fresh 0%nat 0%nat
    = Some (w, (all_space Toy.engine Toy.shuffle 0%nat).2)
    /\ accepted Toy.board Toy.place Toy.empty_board played
    /\ played ++ q' ≡ₚ cells
    /\ no_legal Toy.board Toy.place
         (play Toy.board Toy.place Toy.empty_board played) q'.
Proof.
  destruct (simulate_winner_terminates Toy.board Toy.place
              Toy.who_take_turns Toy.engine Toy.shuffle toy_shuffle_perm
              toy_place_illegal ToyRun.fresh 0%nat 0%nat
              (new_node Toy.empty_board (-1)) eq_refl)
    as (played & q' & steps & w & H).
  cbn zeta in H.
  destruct H as (_ & _ & E & _ & _ & _ & Ha & Hp & Hn & _).
  exists played, q', w. split; [exact E|]. split; [exact Ha|].
  split; [exact Hp|exact Hn].
Defined.

Lemma budget_2000_one_worker_witness :
  exists ws rounds, ToyRun.toy_search Toy.empty_board 2000 1%R 1 0%nat
                    = Some (ws, rounds)
                    /\ (rounds = 1%nat \/ rounds = 2%nat).
Proof.
  destruct (budget_2000_one_worker Toy.board Toy.place Toy.who_take_turns
              Toy.engine Toy.shuffle Toy.umap_insert toy_shuffle_perm
              toy_umap_insert_perm Toy.empty_board 1%R 0%nat)
    as (ws & rounds & h & root & E & _ & _ & Hcase & _).
  - lra.
  - exists ws, rounds. split; [exact E|].
    destruct Hcase as [[-> _]|[-> _]]; [left|right]; reflexivity.
Defined.

(** C8, as stated, fails: a zero budget is answered with the empty action,
    not an error, and under a budget of 4, where [split] is 0, the worker
    is launched, its root is visited once, and the empty action is
    returned. *)
Lemma zero_budget_not_rejected :
  ToyRun.toy_take_action Toy.empty_board 0 1%R 1 0%nat
  = Some (no_action, 0%nat)
  /\ ToyRun.toy_take_action Toy.empty_board 4 1%R 1 0%nat
     = Some (no_action, 2%nat)
  /\ (r ← ToyRun.toy_search Toy.empty_board 4 1%R 1 0%nat;
      h ← root_vec r.1 !! 0%nat;
      total_cnt <$> h !! 0%nat) = Some 1.
Proof. split; [|split]; vm_compute; reflexivity. Qed.

Lemma small_budget_no_checkpoint_witness :
  exists ws, ToyRun.toy_search Toy.empty_board 500 1%R 1 0%nat
             = Some (ws, O)
             /\ ToyRun.toy_take_action Toy.empty_board 500 1%R 1 0%nat
                = Some (no_action, rng ws).
Proof.
  destruct (small_budget_no_checkpoint Toy.board Toy.place
              Toy.who_take_turns Toy.engine Toy.shuffle Toy.umap_insert
              toy_shuffle_perm toy_umap_insert_perm Toy.empty_board 500 1%R
              1 0%nat)
    as (ws & E & _ & _ & Ea).
  - lra.
  - lia.
  - rewrite INT_MAX_val. lia.
  - lia.
  - exists ws. split; [exact E|exact Ea].
Defined.

Lemma take_action_no_move_witness :
  exists g', ToyRun.toy_take_action Toy.full_board 2000 1%R 1 0%nat
             = Some (no_action, g').
Proof.
  destruct (take_action_no_move Toy.board Toy.place Toy.who_take_turns
              Toy.engine Toy.shuffle Toy.umap_insert toy_shuffle_perm
              toy_umap_insert_perm Toy.full_board 2000 1%R 1 0%nat)
    as ((a & g' & E & _ & Hnone) & _).
  - lra.
  - lia.
  - lia.
  - rewrite INT_MAX_val. lia.
  - change (Z.quot 2000 1000) with 2. rewrite INT_MAX_val. lia.
  - exists g'. rewrite <- (Hnone toy_full_board_stuck). exact E.
Defined.

(** C10, at two workers — the chunk of worker 0 moves the engine from
    state 0 to state 2, and the tree worker 1 builds depends on it: from
    the engine as it was, worker 1 would expand cell 0; after worker 0 it
    expands cell 2.  The random source is shared by the workers. *)
Theorem shared_engine_two_workers :
  (rng <$> ToyRun.toy_run_MCTS 1 1%R 0%nat ToyRun.two_workers) = Some 2%nat
  /\ (ws ← ToyRun.toy_run_MCTS 1 1%R 1%nat ToyRun.two_workers;
      ToyRun.root_children ws 1%nat) = Some [(0, 1%nat)]
  /\ (ws0 ← ToyRun.toy_run_MCTS 1 1%R 0%nat ToyRun.two_workers;
      ws ← ToyRun.toy_run_MCTS 1 1%R 1%nat ws0;
      ToyRun.root_children ws 1%nat) = Some [(2, 1%nat)].
Proof. split; [|split]; vm_compute; reflexivity. Qed.
(** ** The search properties on the small rules engine *)

Lemma win_count_bounded_witness :
  exists h' g',
    ToyRun.toy_cycles 3 1%R 0%nat (ToyRun.fresh, 0%nat) = Some (h', g')
    /\ forall p m, h' !! p = Some m ->
         (- total_cnt m <= win_cnt m <= total_cnt m)
         /\ (0 <= total_cnt m <= Z.of_nat 3).
Proof.
  destruct (win_count_bounded Toy.board Toy.place Toy.who_take_turns
              Toy.engine Toy.shuffle Toy.umap_insert toy_shuffle_perm
              toy_umap_insert_perm Toy.empty_board 1%R 0%nat 3)
    as (h' & g' & E & H).
  - lra.
  - rewrite INT_MAX_val. lia.
  - exists h', g'. split; [exact E|exact H].
Defined.

Lemma tree_size_and_visits_witness :
  exists h' g',
    ToyRun.toy_cycles 3 1%R 0%nat (ToyRun.fresh, 0%nat) = Some (h', g')
    /\ (1 <= length h' <= 3 + 1)%nat
    /\ forall p m, h' !! p = Some m -> p <> 0%nat -> 1 <= total_cnt m.
Proof.
  destruct (tree_size_and_visits Toy.board Toy.place Toy.who_take_turns
              Toy.engine Toy.shuffle Toy.umap_insert toy_shuffle_perm
              toy_umap_insert_perm Toy.empty_board 1%R 0%nat 3)
    as (h' & g' & E & H).
  - lra.
  - rewrite INT_MAX_val. lia.
  - exists h', g'. split; [exact E|exact H].
Defined.

Lemma children_are_moves_witness :
  exists h' g' root,
    ToyRun.toy_cycles 3 1%R 0%nat (ToyRun.fresh, 0%nat) = Some (h', g')
    /\ h' !! 0%nat = Some root
    /\ position root = Toy.empty_board
    /\ parent root = None
    /\ forall p m, h' !! p = Some m ->
         NoDup (child m).*1
         /\ forall x, x ∈ child m ->
              x.1 ∈ cells
              /\ legal Toy.board Toy.place (position m) x.1 = true
              /\ exists km, h' !! x.2 = Some km
                            /\ parent km = Some p
                            /\ place_pos km = x.1
                            /\ position km = (Toy.place (position m) x.1).1.
Proof.
  destruct (children_are_moves Toy.board Toy.place Toy.who_take_turns
              Toy.engine Toy.shuffle Toy.umap_insert toy_shuffle_perm
              toy_umap_insert_perm Toy.empty_board 1%R 0%nat 3)
    as (h' & g' & root & E & H).
  - lra.
  - rewrite INT_MAX_val. lia.
  - exists h', g', root. split; [exact E|exact H].
Defined.

Lemma selection_ends_at_leaf_witness :
  exists h' g' l leaf m,
    ToyRun.toy_cycles 3 1%R 0%nat (ToyRun.fresh, 0%nat) = Some (h', g')
    /\ ToyRun.toy_select_root_to_leaf h' 0%nat 1%R = Some (0%nat :: l)
    /\ descends Toy.board h' 0%nat l
    /\ last (0%nat :: l) = Some leaf
    /\ h' !! leaf = Some m
    /\ (legal_cells Toy.board Toy.place (position m) = []
        \/ exists i, i ∈ cells
                     /\ legal Toy.board Toy.place (position m) i = true
                     /\ i ∉ (child m).*1).
Proof.
  destruct (selection_ends_at_leaf Toy.board Toy.place Toy.who_take_turns
              Toy.engine Toy.shuffle Toy.umap_insert toy_shuffle_perm
              toy_umap_insert_perm Toy.empty_board 1%R 0%nat 3)
    as (h' & g' & l & leaf & m & E & H).
  - lra.
  - rewrite INT_MAX_val. lia.
  - exists h', g', l, leaf, m. split; [exact E|exact H].
Defined.

Lemma cycle_adds_one_node_witness :
  exists h' g',
    cycle Toy.board Toy.place Toy.who_take_turns Toy.engine Toy.shuffle
      Toy.umap_insert 1%R 0%nat (ToyRun.fresh, 0%nat) = Some (h', g')
    /\ (length h' = S (length ToyRun.fresh)
        \/ length h' = length ToyRun.fresh
           /\ exists l leaf m,
                select_root_to_leaf Toy.board Toy.place ToyRun.fresh 0%nat
                  1%R = Some (0%nat :: l)
                /\ last (0%nat :: l) = Some leaf
                /\ ToyRun.fresh !! leaf = Some m
                /\ legal_cells Toy.board Toy.place (position m) = []).
Proof.
  apply (cycle_adds_one_node Toy.board Toy.place Toy.who_take_turns
           Toy.engine Toy.shuffle Toy.umap_insert toy_shuffle_perm
           toy_umap_insert_perm Toy.empty_board 1%R 0%nat 0%nat 0%nat
           ToyRun.fresh).
  - lra.
  - rewrite INT_MAX_val. lia.
  - reflexivity.
Defined.

Lemma select_action_most_visited_witness :
  exists h' g' root a,
    ToyRun.toy_cycles 3 1%R 0%nat (ToyRun.fresh, 0%nat) = Some (h', g')
    /\ h' !! 0%nat = Some root
    /\ select_action Toy.board h' 0%nat = Some a
    /\ (child root = [] -> a = -1)
    /\ (child root <> [] ->
        exists x, x ∈ child root
                  /\ a = x.1
                  /\ a ∈ cells
                  /\ legal Toy.board Toy.place Toy.empty_board a = true
                  /\ forall y, y ∈ child root ->
                       total_at Toy.board h' y.2 <= total_at Toy.board h' x.2).
Proof.
  destruct (select_action_most_visited Toy.board Toy.place
              Toy.who_take_turns Toy.engine Toy.shuffle Toy.umap_insert
              toy_shuffle_perm toy_umap_insert_perm Toy.empty_board 1%R
              0%nat 3)
    as (h' & g' & root & a & E & H).
  - lra.
  - rewrite INT_MAX_val. lia.
  - exists h', g', root, a. split; [exact E|exact H].
Defined.

Lemma take_action_normal_places_witness :
  exists a g',
    take_action_normal Toy.board Toy.place Toy.who_take_turns Toy.engine
      Toy.shuffle Toy.umap_insert Toy.empty_board 5 1%R 0%nat
    = Some (place_action a (Toy.who_take_turns Toy.empty_board), g')
    /\ (a = -1
        \/ a ∈ cells /\ legal Toy.board Toy.place Toy.empty_board a = true)
    /\ (no_legal Toy.board Toy.place Toy.empty_board cells -> a = -1).
Proof.
  apply (take_action_normal_places Toy.board Toy.place Toy.who_take_turns
           Toy.engine Toy.shuffle Toy.umap_insert toy_shuffle_perm
           toy_umap_insert_perm Toy.empty_board 5 1%R 0%nat).
  - lra.
  - lia.
  - rewrite INT_MAX_val. lia.
Defined.

Lemma take_action_majority_legal_witness :
  exists a g',
    take_action_majority Toy.board Toy.place Toy.who_take_turns Toy.engine
      Toy.shuffle Toy.umap_insert Toy.empty_board 5 1%R 2%nat 0%nat
    = Some (a, g')
    /\ (a = no_action
        \/ exists pos,
             a = place_action pos (Toy.who_take_turns Toy.empty_board)
             /\ pos ∈ cells
             /\ legal Toy.board Toy.place Toy.empty_board pos = true)
    /\ (no_legal Toy.board Toy.place Toy.empty_board cells -> a = no_action).
Proof.
  apply (take_action_majority_legal Toy.board Toy.place Toy.who_take_turns
           Toy.engine Toy.shuffle Toy.umap_insert toy_shuffle_perm
           toy_umap_insert_perm Toy.empty_board 5 1%R 2%nat 0%nat).
  - lra.
  - rewrite INT_MAX_val. lia.
  - rewrite INT_MAX_val. lia.
Defined.

Lemma budget_respected_multiple_4000_witness :
  exists ws rounds,
    ToyRun.toy_search Toy.empty_board (4000 * 1) 1%R 2%nat 0%nat
    = Some (ws, rounds)
    /\ 1 <= Z.of_nat rounds <= 3 * 1
    /\ forall id h, root_vec ws !! id = Some h ->
         exists root, h !! 0%nat = Some root
                      /\ total_cnt root = 1000 * 1 + 1000 * Z.of_nat rounds
                      /\ total_cnt root <= 4000 * 1.
Proof.
  apply (budget_respected_multiple_4000 Toy.board Toy.place
           Toy.who_take_turns Toy.engine Toy.shuffle Toy.umap_insert
           toy_shuffle_perm toy_umap_insert_perm Toy.empty_board 1 1%R
           2%nat 0%nat).
  - lra.
  - lia.
  - lia.
  - rewrite INT_MAX_val. lia.
  - rewrite INT_MAX_val. lia.
Defined.

(** Two workers whose rows give cells 5 and 7 the same total 4. *)
Definition tied_workers : ToyRun.toy_workers :=
  Workers [] [ <[5%nat := 3]> (replicate 81 0);
               <[5%nat := 1]> (<[7%nat := 4]> (replicate 81 0)) ] 0%nat.

Lemma final_choice_first_maximum_witness :
  exists result idx m,
    aggregate (average_selection tied_workers) = Some result
    /\ length result = 81%nat
    /\ (forall j s, result !! j = Some s ->
          s = column_total (average_selection tied_workers) j)
    /\ result !! idx = Some m
    /\ (forall j e, result !! j = Some e -> e <= m)
    /\ (forall j e, (j < idx)%nat -> result !! j = Some e -> e < m)
    /\ (m = 0 -> place_action 5 black = no_action)
    /\ (m <> 0 -> place_action 5 black
                  = place_action (Z.of_nat idx)
                      (Toy.who_take_turns Toy.empty_board)).
Proof.
  apply (final_choice_first_maximum Toy.board Toy.who_take_turns Toy.engine
           Toy.empty_board tied_workers (place_action 5 black)).
  vm_compute. reflexivity.
Defined.

Lemma take_action_finds_move_witness :
  exists pos g',
    ToyRun.toy_take_action Toy.empty_board 1000 1%R 1 0%nat
    = Some (place_action pos (Toy.who_take_turns Toy.empty_board), g')
    /\ pos ∈ cells
    /\ legal Toy.board Toy.place Toy.empty_board pos = true.
Proof.
  apply (take_action_finds_move Toy.board Toy.place Toy.who_take_turns
           Toy.engine Toy.shuffle Toy.umap_insert toy_shuffle_perm
           toy_umap_insert_perm Toy.empty_board 1000 1%R 1 0%nat).
  - lra.
  - lia.
  - lia.
  - rewrite INT_MAX_val. lia.
  - change (Z.quot 1000 1000) with 1. rewrite INT_MAX_val. lia.
  - exists 0. split; [|reflexivity]. apply elem_of_seqZ. lia.
Defined.

Lemma rows_are_visit_counts_witness :
  exists ws rounds,
    ToyRun.toy_search Toy.empty_board 1000 1%R 1 0%nat = Some (ws, rounds)
    /\ length (root_vec ws) = 1%nat
    /\ length (average_selection ws) = 1%nat
    /\ forall id h row,
         root_vec ws !! id = Some h ->
         average_selection ws !! id = Some row ->
         exists r,
           h !! 0%nat = Some r /\ length row = 81%nat
           /\ (forall x, x ∈ child r ->
                 row !! Z.to_nat x.1 = Some (total_at Toy.board h x.2)
                 /\ 1 <= total_at Toy.board h x.2)
           /\ (forall j e, row !! j = Some e -> e <> 0 ->
                 exists x, x ∈ child r /\ Z.to_nat x.1 = j).
Proof.
  apply (rows_are_visit_counts Toy.board Toy.place Toy.who_take_turns
           Toy.engine Toy.shuffle Toy.umap_insert toy_shuffle_perm
           toy_umap_insert_perm Toy.empty_board 1000 1%R 1 0%nat).
  - lra.
  - lia.
  - lia.
  - rewrite INT_MAX_val. lia.
  - change (Z.quot 1000 1000) with 1. rewrite INT_MAX_val. lia.
Defined.
(** ** The pattern tests, the heuristic agent and the placer on small
    boards *)

Module Corner.

(** Cells with [empty = 0], [black = 1], [white = 2] and [hollow = 3] on
    the 9 x 9 board.  The corner (0, 0) between two black stones: *)
Definition eye_board (x y : Z) : Z :=
  if ((x =? 0) && (y =? 1)) || ((x =? 1) && (y =? 0)) then 1 else 0.

(** and beside one white stone. *)
Definition atari_board (x y : Z) : Z :=
  if (x =? 0) && (y =? 1) then 2 else 0.

(** A board that accepts every point, one that accepts none, a score and
    a shuffle that keeps the order. *)
Definition position (m : Z) : heuristic_agent.point :=
  heuristic_agent.Point (m mod 9) (m / 9) m.
Definition open (_ : unit) (x y who : Z) : bool := true.
Definition closed (_ : unit) (x y who : Z) : bool := false.
Definition score (b : unit) (x y who : Z) : Z * unit := (x + y, b).
Definition keep (l : list Z) (g : nat) : list Z * nat := (l, g).

(** A Threes! board with the single empty cell 13, and a full one. *)
Definition one_gap (pos : Z) : Z := if pos =? 13 then 0 else 1.
Definition all_taken (pos : Z) : Z := 1.

End Corner.

Lemma keep_permutes (l : list Z) (g : nat) : (Corner.keep l g).1 ≡ₚ l.
Proof. reflexivity. Qed.

Lemma eye_has_no_liberty_witness :
  heuristic.on_board 9 9 0 0 = true
  /\ Corner.eye_board 0 0 = 0
  /\ heuristic.count_liberty 9 9 0 Corner.eye_board 0 0 = 0
  /\ heuristic.is_atari 9 9 0 3 Corner.eye_board 0 0 1 = false.
Proof.
  apply (eye_has_no_liberty 9 9 0 3 Corner.eye_board 0 0 1).
  - lia.
  - lia.
  - reflexivity.
Defined.

Lemma atari_excludes_eye_witness :
  heuristic.count_liberty 9 9 0 Corner.atari_board 0 0 = 1
  /\ heuristic.is_eye 9 9 0 3 Corner.atari_board 0 0 2 = false.
Proof.
  apply (atari_excludes_eye 9 9 0 3 Corner.atari_board 0 0 1 2).
  - lia.
  - lia.
  - vm_compute. reflexivity.
Defined.

Lemma neighbour_counts_bounded_witness :
  0 <= heuristic.count_liberty 9 9 0 Corner.eye_board 1 1
  /\ 0 <= heuristic.count_side_adjacent 9 9 Corner.eye_board 1 1 1
  /\ heuristic.count_side_adjacent 9 9 Corner.eye_board 1 1 1
     + heuristic.count_liberty 9 9 0 Corner.eye_board 1 1 <= 4
  /\ 0 <= heuristic.count_corner_adjacent 9 9 Corner.eye_board 1 1 1
  /\ heuristic.count_corner_adjacent 9 9 Corner.eye_board 1 1 1
     + heuristic.count_corner_adjacent 9 9 Corner.eye_board 1 1 2 <= 4.
Proof.
  apply (neighbour_counts_bounded 9 9 0 Corner.eye_board 1 1 1 2).
  - lia.
  - lia.
Defined.

Lemma value_bounded_witness :
  0 <= heuristic.value 9 9 0 3 Corner.eye_board 1 <= 32 * 9 * 9.
Proof.
  apply (value_bounded 9 9 0 3 Corner.eye_board 1).
  - lia.
  - lia.
  - lia.
  - lia.
Defined.

Lemma heuristic_move_legal_witness :
  exists m, Some 40 = Some m
    /\ ((m = 40 /\ Corner.open tt 4 4 2 = true)
        \/ (m ∈ (Corner.keep (seqZ 0 81) 0%nat).1
            /\ heuristic_agent.legal_move unit Corner.open Corner.position
                 tt 2 m)).
Proof.
  apply (heuristic_move_legal unit Corner.open Corner.score Corner.position
           nat Corner.keep 1 2 (seqZ 0 81) 0%nat tt (Some 40) (seqZ 0 81)
           0%nat).
  vm_compute. reflexivity.
Defined.

Lemma heuristic_no_move_undefined_witness :
  heuristic_agent.take_action unit Corner.closed Corner.score
    Corner.position nat Corner.keep 1 2 (seqZ 0 81) 0%nat tt = None.
Proof.
  apply (heuristic_no_move_undefined unit Corner.closed Corner.score
           Corner.position nat Corner.keep 1 2 (seqZ 0 81) 0%nat tt).
  - intros m _. reflexivity.
  - reflexivity.
Defined.


Lemma notify_property_witness :
  agent.property "N" (agent.notify ("N" ++ "=" ++ "1000") ∅) = Some "1000"%string
  /\ forall key', key' <> "N"%string ->
       agent.property key' (agent.notify ("N" ++ "=" ++ "1000") ∅)
       = agent.property key' ∅.
Proof.
  apply (notify_property "N" "1000" ∅). reflexivity.
Defined.

Lemma player_needs_role_witness :
  agent.player (fun _ => agent.Returned 0) "N=1000 c=0.1"
  = agent.Thrown "invalid role: unknown"
  \/ exists n, agent.player (fun _ => agent.Returned 0) "N=1000 c=0.1"
               = agent.Thrown ("invalid name: " ++ n).
Proof.
  assert (Hwords : forall key : string,
            key <> "N" -> key <> "c" ->
            forall w, w ∈ agent.stream_words "N=1000 c=0.1" ->
                      agent.key_of w <> key).
  { intros key HN Hc w Hw.
    change (agent.stream_words "N=1000 c=0.1") with ["N=1000"; "c=0.1"]%string
      in Hw.
    apply elem_of_cons in Hw as [->|Hw];
      [|apply list_elem_of_singleton in Hw as ->].
    - change (agent.key_of "N=1000") with "N"%string. congruence.
    - change (agent.key_of "c=0.1") with "c"%string. congruence. }
  apply (player_needs_role (fun _ => agent.Returned 0) "N=1000 c=0.1").
  - apply Hwords; discriminate.
  - apply Hwords; discriminate.
Defined.

Lemma extract_feature_index_witness :
  0 <= extract_feature (fun k => k mod 16) 0 1 2 3 < table_size
  /\ (extract_feature (fun k => k mod 16) 0 1 2 3
      = extract_feature (fun k => (k + 16) mod 16) 0 1 2 3 ->
      0 mod 16 = (0 + 16) mod 16 /\ 1 mod 16 = (1 + 16) mod 16
      /\ 2 mod 16 = (2 + 16) mod 16 /\ 3 mod 16 = (3 + 16) mod 16).
Proof.
  apply (extract_feature_index (fun k => k mod 16)
           (fun k => (k + 16) mod 16) 0 1 2 3).
  - intros k. apply Z.mod_pos_bound. lia.
  - intros k. apply Z.mod_pos_bound. lia.
Defined.

Lemma placer_places_on_empty_witness :
  Corner.one_gap 13 = 0
  /\ (exists space, random_placer.spaces !! Z.to_nat 0 = Some space
                    /\ 13 ∈ space)
  /\ (0 <> 0 -> 3 = 0)
  /\ (0 = 0 -> 3 = 1 \/ 3 = 2 \/ 3 = 3)
  /\ (2 = 1 \/ 2 = 2 \/ 2 = 3).
Proof.
  apply (placer_places_on_empty nat Corner.keep keep_permutes Corner.one_gap
           0 (fun _ => 1%nat) 0 0%nat 0%nat 13 3 2).
  vm_compute. reflexivity.
Defined.

Lemma placer_passes_iff_full_witness :
  (exists g', random_placer.take_action nat Corner.keep Corner.all_taken 0
                (fun _ => 1%nat) 0 0%nat = Some (None, g'))
  <-> forall pos, pos ∈ [12; 13; 14; 15] -> Corner.all_taken pos <> 0.
Proof.
  apply (placer_passes_iff_full nat Corner.keep keep_permutes
           Corner.all_taken 0 (fun _ => 1%nat) 0 0%nat [12; 13; 14; 15]).
  - reflexivity.
  - lia.
Defined.
